(** * Progression and dialogue engine of the AWS Problem Solver game

    A shallow embedding of the scoring function of [GameManager]
    (src/frontend/game.js), of [LevelSystem] (level, streak and achievement
    bookkeeping) and of the hint path of [NPCSystem]
    (src/frontend/npc_system.js), with the properties of the specification
    stated and settled against them.

    Conventions of the embedding.

    - JavaScript numbers that hold counts, points and seconds are integers
      of [Z]; their sums, differences and products, also by the multiplier
      [1.5], are exact, as they are for doubles in the safe integer range,
      and are computed in [Z] and [Q].  A quotient and the product of a
      quotient are rounded to a double: the rounding is the parameter
      [rnd] of the class [Rounding], of which only monotonicity and
      exactness on doubles are used.  The rounding of binary64,
      [double_rounding], is an instance, and what is proved for every
      rounding holds of it.  Overflow and [NaN] are not modelled.
    - [null] and [undefined] are [None]; a thrown exception is the [Throw]
      constructor of [completion].
    - The DOM, timers and local storage are not part of the state: the
      functions below keep the fields of [this] that the code reads and
      writes, and receive what the environment answers (the remote reply)
      as an argument.
    - A method taken alone is followed to its end ([Score], [Level],
      [Npc]).  In a session ([Play]) an asynchronous method is cut at the
      [await] that separates the test of a field from its use, and the
      events of a session come in any order. *)

From Stdlib Require Import ZArith QArith Qround Qminmax Qpower Lqa.
From Stdlib Require Import List String Ascii Bool Lia.
From Stdlib Require Import Sorted SpecFloat.
Import ListNotations.

Open Scope Z_scope.

(** ** Data shared by the components *)

(** A question as [generateMockQuestion] builds it and [calculateScore] and
    the hint path read it.  [category] is optional because the hint path
    reads it with [?.]. *)
Record Question := mkQuestion {
  questionId : string;
  category : option string;
  difficulty : string;
  points : Z;
  timeLimit : Z;
  correctAnswer : string
}.

(** The object returned by [calculateScore]. *)
Record ScoreResult := mkScoreResult {
  isCorrect : bool;
  res_selectedAnswer : option string;
  res_correctAnswer : string;
  baseScore : Z;
  difficultyMultiplier : Q;
  timeBonus : Z;
  hintPenalty : Z;
  totalScore : Z
}.

(** The fields of [GameManager] read or written by the modelled methods. *)
Record GameManager := mkGameManager {
  currentQuestion : option Question;
  currentNpc : option string;
  timeRemaining : Z;
  hintsUsed : Z;
  questionsAnswered : Z;
  correctAnswers : Z;
  selectedAnswer : option string
}.

(** Completion of a call: a value, or a thrown exception. *)
Inductive completion (A : Type) : Type :=
| Return (a : A)
| Throw (e : string).
Arguments Return {A} a.
Arguments Throw {A} e.

(** ** Rounding of JavaScript numbers *)

(** The value of a double is a rational, and an arithmetic operation
    returns the double nearest to the exact result.  [rnd] is that
    rounding.  It is monotone, and it returns a rational [m / 2^e] with
    [|m| < 2^53] as it is, because that is a double. *)
Class Rounding : Type := {
  rnd : Q -> Q;
  rnd_le : forall x y : Q, (x <= y)%Q -> (rnd x <= rnd y)%Q;
  rnd_double : forall (m : Z) (e : nat),
      Z.abs m < 2 ^ 53 -> (e <= 1000)%nat ->
      (rnd (inject_Z m / inject_Z (2 ^ Z.of_nat e))
       == inject_Z m / inject_Z (2 ^ Z.of_nat e))%Q
}.

(** Arithmetic without rounding is one instance.  The inputs evaluated
    with it have no quotient, or one that is a double, on which every
    instance agrees, or they only witness a theorem about every
    instance. *)
Definition exact_rounding : Rounding :=
  {| rnd := fun x => x;
     rnd_le := fun x y H => H;
     rnd_double := fun m e _ _ => Qeq_refl _ |}.

(** ** Binary64

    The rounding of JavaScript itself, on rationals: round to nearest,
    ties to even, with 53 binary digits.  The exponent is taken without
    bounds, so overflow and subnormal numbers are left out; no number of
    the game comes near them. *)

Module Double.

(** [2^e] for an integer exponent. *)
Definition pow2 (e : Z) : Q := Qpower 2 e.

(** The integer nearest to a rational, the even one of two that are
    equally near. *)
Definition nearestEven (x : Q) : Z :=
  let f := Qfloor x in
  match Qcompare (x - inject_Z f) (1 # 2) with
  | Lt => f
  | Gt => f + 1
  | Eq => if Z.even f then f else f + 1
  end.

(** For [x > 0], the exponent [e] with [2^(e+52) <= x < 2^(e+53)]: the
    doubles between these powers are the multiples of [2^e]. *)
Definition exponent (x : Q) : Z :=
  let k := Z.log2 (Qnum x) - Z.log2 (Zpos (Qden x)) in
  (if Qle_bool (pow2 k) x then k else k - 1) - 52.

(** The double nearest to a positive rational, ties to even. *)
Definition nearestPositive (x : Q) : Q :=
  let e := exponent x in
  inject_Z (nearestEven (x / pow2 e)) * pow2 e.

(** Rounding to nearest, ties to even, of binary64, the exponent taken
    without bounds. *)
Definition nearest (x : Q) : Q :=
  match Qcompare x 0 with
  | Eq => 0
  | Gt => nearestPositive x
  | Lt => - nearestPositive (- x)
  end.

(** The rational that a finite float of the standard library's
    specification of IEEE 754 stands for. *)
Definition valueOf (f : spec_float) : Q :=
  match f with
  | S754_finite s m e =>
      (if s then -1 else 1) * inject_Z (Zpos m) * pow2 e
  | _ => 0
  end.

End Double.

(** ** GameManager.calculateScore *)

Module Score.

Section WithRounding.
Context {R : Rounding}.

(** [selectedAnswer === correctAnswer] *)
Definition strict_eq_answer (sel : option string) (correct : string) : bool :=
  match sel with
  | Some a => String.eqb a correct
  | None => false
  end.

(** The [switch] on [difficulty]; the initial value [1] stays for any other
    string. *)
Definition multiplierOf (d : string) : Q :=
  if String.eqb d "easy" then 1
  else if String.eqb d "medium" then 3 # 2
  else if String.eqb d "hard" then 2
  else 1.

(** [Math.max(0, Math.floor((timeRemaining / timeLimit) * 50))] *)
Definition timeBonusOf (remaining limit : Z) : Z :=
  Z.max 0 (Qfloor (rnd (rnd (inject_Z remaining / inject_Z limit) * 50))).

(** The body of [calculateScore] once [this.currentQuestion] is known. *)
Definition scoreOf (q : Question) (sel : option string) (remaining hints : Z)
  : ScoreResult :=
  let correct := strict_eq_answer sel (correctAnswer q) in
  let base := points q in
  let bonus := timeBonusOf remaining (timeLimit q) in
  let penalty := hints * 10 in
  let mult := multiplierOf (difficulty q) in
  let total :=
    if correct
    then Qfloor (inject_Z base * mult + inject_Z bonus - inject_Z penalty)
    else 0 in
  mkScoreResult correct sel (correctAnswer q) base mult bonus penalty total.

(** [calculateScore()]: reading a property of a [null] question throws. *)
Definition calculateScore (g : GameManager) : completion ScoreResult :=
  match currentQuestion g with
  | None => Throw "TypeError"
  | Some q => Return (scoreOf q (selectedAnswer g) (timeRemaining g) (hintsUsed g))
  end.

(** The specification's wording of the two formulas, for comparison with the
    code: [elapsed] is the time used, [timeLimit - timeRemaining]. *)
Definition spec_timeBonus (limit elapsed : Z) : Z :=
  Qfloor (rnd (Qmax 0 (rnd (inject_Z (limit - elapsed) / inject_Z limit)) * 50)).

Definition spec_multiplier (d : string) : option Q :=
  if String.eqb d "easy" then Some 1%Q
  else if String.eqb d "medium" then Some (3 # 2)%Q
  else if String.eqb d "hard" then Some 2%Q
  else None.

Definition spec_total (base : Z) (mult : Q) (bonus hints : Z) : Z :=
  Qfloor (inject_Z base * mult + inject_Z bonus) - 10 * hints.

(** The time bonus of the specification in the arithmetic of the
    rationals, without rounding. *)
Definition real_timeBonus (limit elapsed : Z) : Z :=
  Qfloor (Qmax 0 (inject_Z (limit - elapsed) / inject_Z limit) * 50).

(** The question and the player state of the specification's first example. *)
Definition example_question : Question :=
  mkQuestion "q001" (Some "EC2"%string) "medium" 100 60 "B".

Definition example_game (sel : string) (remaining hints : Z) : GameManager :=
  mkGameManager (Some example_question) (Some "alex_ceo"%string)
                remaining hints 0 0 (Some sel).

(** A question with a limit of 50 seconds, answered correctly after 21. *)
Definition tight_question : Question :=
  mkQuestion "q050" (Some "EC2"%string) "medium" 100 50 "B".

Definition tight_game : GameManager :=
  mkGameManager (Some tight_question) (Some "alex_ceo"%string)
                29 0 0 0 (Some "B"%string).

(** A ten-point easy question answered correctly at the last second with
    three hints. *)
Definition cheap_question : Question :=
  mkQuestion "q900" (Some "S3"%string) "easy" 10 60 "A".

Definition cheap_game : GameManager :=
  mkGameManager (Some cheap_question) (Some "alex_ceo"%string) 0 3 0 0
                (Some "A"%string).

End WithRounding.

End Score.

(** ** LevelSystem *)

Module Level.

Section WithRounding.
Context {R : Rounding}.

(** The mutable fields of a [LevelSystem] instance. *)
Record LevelSystem := mkLevelSystem {
  currentLevel : Z;
  currentExp : Z;
  ls_totalScore : Z;
  achievements : list string;
  streakCount : Z;
  maxStreak : Z
}.

(** The state the constructor sets up when nothing has been saved. *)
Definition fresh : LevelSystem := mkLevelSystem 1 0 0 [] 0 0.

(** [this.levelThresholds]: cumulative experience needed for levels 1 to 20. *)
Definition levelThresholds : list Z :=
  [0; 100; 300; 600; 1000; 1500; 2100; 2800; 3600; 4500;
   5500; 6600; 7800; 9100; 10500; 12000; 13600; 15300; 17100; 19000].

(** The loop of [calculateLevel]: with [i] indices left to visit it looks at
    index [i - 1] and goes down; when none is left it returns 1. *)
Fixpoint calculateLevel_from (i : nat) (exp : Z) : Z :=
  match i with
  | O => 1
  | S j =>
      if nth j levelThresholds 0 <=? exp
      then Z.of_nat j + 1
      else calculateLevel_from j exp
  end.

Definition calculateLevel (exp : Z) : Z :=
  calculateLevel_from (List.length levelThresholds) exp.

(** [getCategoryStats()]: the per-category counters are all zero for now. *)
Record CategoryStats := mkCategoryStats {
  cat_EC2 : Z; cat_S3 : Z; cat_Lambda : Z; cat_RDS : Z; cat_VPC : Z
}.

Definition getCategoryStats : CategoryStats := mkCategoryStats 0 0 0 0 0.

(** The object built by [getPlayerStats]. *)
Record PlayerStats := mkPlayerStats {
  st_correctAnswers : Z;
  st_questionsAnswered : Z;
  st_totalScore : Z;
  st_maxStreak : Z;
  st_currentStreak : Z;
  st_categoryStats : CategoryStats
}.

Definition getPlayerStats (gm : GameManager) (ls : LevelSystem) : PlayerStats :=
  mkPlayerStats (correctAnswers gm) (questionsAnswered gm)
                (ls_totalScore ls) (maxStreak ls) (streakCount ls)
                getCategoryStats.

(** An achievement definition: its [id] and its [condition].  The name,
    description, icon and colour are shown to the player and decide
    nothing. *)
Record Achievement := mkAchievement {
  ach_id : string;
  condition : PlayerStats -> option ScoreResult -> bool
}.

(** [lastResult && lastResult.isCorrect && rest] *)
Definition onLast (lastResult : option ScoreResult) (rest : ScoreResult -> bool)
  : bool :=
  match lastResult with
  | Some r => isCorrect r && rest r
  | None => false
  end.

(** [this.achievementDefinitions], keys in the order they are written, which
    is the order [for ... in] visits them.  In [accuracy_master] the literal
    [0.9] is the double nearest to 9/10 and [&&] guards the quotient. *)
Definition achievementDefinitions : list (string * Achievement) :=
  [ ("first_correct"%string,
     mkAchievement "first_correct" (fun stats _ => 1 <=? st_correctAnswers stats));
    ("streak_5"%string,
     mkAchievement "streak_5" (fun stats _ => 5 <=? st_maxStreak stats));
    ("streak_10"%string,
     mkAchievement "streak_10" (fun stats _ => 10 <=? st_maxStreak stats));
    ("perfect_score"%string,
     mkAchievement "perfect_score" (fun _ lastResult =>
       onLast lastResult (fun r => (hintPenalty r =? 0) && (0 <? timeBonus r))));
    ("speed_demon"%string,
     mkAchievement "speed_demon" (fun _ lastResult =>
       onLast lastResult (fun r => 40 <=? timeBonus r)));
    ("ec2_expert"%string,
     mkAchievement "ec2_expert" (fun stats _ =>
       10 <=? cat_EC2 (st_categoryStats stats)));
    ("s3_master"%string,
     mkAchievement "s3_master" (fun stats _ =>
       10 <=? cat_S3 (st_categoryStats stats)));
    ("lambda_guru"%string,
     mkAchievement "lambda_guru" (fun stats _ =>
       10 <=? cat_Lambda (st_categoryStats stats)));
    ("accuracy_master"%string,
     mkAchievement "accuracy_master" (fun stats _ =>
       (10 <=? st_questionsAnswered stats)
       && Qle_bool (rnd (9 # 10))
            (rnd (inject_Z (st_correctAnswers stats)
                  / inject_Z (st_questionsAnswered stats)))));
    ("persistent_learner"%string,
     mkAchievement "persistent_learner" (fun stats _ =>
       50 <=? st_questionsAnswered stats));
    ("high_scorer"%string,
     mkAchievement "high_scorer" (fun stats _ => 5000 <=? st_totalScore stats)) ].

(** [this.achievements.includes(id)] *)
Definition includes (l : list string) (id : string) : bool :=
  existsb (String.eqb id) l.

(** The loop of [checkAchievements] over the remaining definitions: [achs]
    is [this.achievements] as mutated so far and [news] the local
    [newAchievements]; both grow by [push]. *)
Fixpoint checkLoop (defs : list (string * Achievement)) (stats : PlayerStats)
  (questionResult : option ScoreResult)
  (achs : list string) (news : list Achievement)
  : list string * list Achievement :=
  match defs with
  | [] => (achs, news)
  | (achievementId, achievement) :: rest =>
      if includes achs achievementId
      then checkLoop rest stats questionResult achs news
      else if condition achievement stats questionResult
      then checkLoop rest stats questionResult
                     (achs ++ [achievementId]) (news ++ [achievement])
      else checkLoop rest stats questionResult achs news
  end.

Definition setAchievements (ls : LevelSystem) (a : list string) : LevelSystem :=
  mkLevelSystem (currentLevel ls) (currentExp ls) (ls_totalScore ls) a
                (streakCount ls) (maxStreak ls).

(** [checkAchievements(questionResult)]: the new state and the returned
    list. *)
Definition checkAchievements (gm : GameManager) (ls : LevelSystem)
  (questionResult : option ScoreResult) : LevelSystem * list Achievement :=
  let stats := getPlayerStats gm ls in
  let '(achs, news) :=
    checkLoop achievementDefinitions stats questionResult (achievements ls) [] in
  (setAchievements ls achs, news).

(** [this.achievementDefinitions[id]] *)
Fixpoint lookupDefinition (defs : list (string * Achievement)) (id : string)
  : option Achievement :=
  match defs with
  | [] => None
  | (k, a) :: rest => if String.eqb k id then Some a else lookupDefinition rest id
  end.

(** [getRecentAchievements()]: [slice(-5)] then the definition of each id. *)
Definition getRecentAchievements (ls : LevelSystem) : list (option Achievement) :=
  let a := achievements ls in
  map (lookupDefinition achievementDefinitions)
      (skipn (List.length a - 5) a).

(** The object returned by [addScore]. *)
Record AddScoreResult := mkAddScoreResult {
  leveledUp : bool;
  newLevel : Z;
  newAchievements : list (option Achievement)
}.

(** [questionResult && questionResult.isCorrect] *)
Definition resultIsCorrect (questionResult : option ScoreResult) : bool :=
  match questionResult with
  | Some r => isCorrect r
  | None => false
  end.

(** The state of [addScore] after the score, streak and level updates and
    before [checkAchievements] runs: the post-score state. *)
Definition scored (ls : LevelSystem) (score : Z)
  (questionResult : option ScoreResult) : LevelSystem :=
  let total := ls_totalScore ls + score in
  let exp := currentExp ls + score in
  let streak := if resultIsCorrect questionResult then streakCount ls + 1 else 0 in
  let best :=
    if resultIsCorrect questionResult
    then Z.max (maxStreak ls) streak
    else maxStreak ls in
  let level' := calculateLevel exp in
  let level := if currentLevel ls <? level' then level' else currentLevel ls in
  mkLevelSystem level exp total (achievements ls) streak best.

(** [addScore(score, questionResult)].  [gm] is the game manager the
    instance points to, as it is when the call is made. *)
Definition addScore (gm : GameManager) (ls : LevelSystem) (score : Z)
  (questionResult : option ScoreResult) : LevelSystem * AddScoreResult :=
  let up := currentLevel ls <? calculateLevel (currentExp ls + score) in
  let ls1 := scored ls score questionResult in
  let ls2 := fst (checkAchievements gm ls1 questionResult) in
  (ls2, mkAddScoreResult up (currentLevel ls2) (getRecentAchievements ls2)).

(** One call of [addScore] as the environment makes it. *)
Record Call := mkCall {
  call_gm : GameManager;
  call_score : Z;
  call_result : option ScoreResult
}.

(** A sequence of [addScore] calls on one instance. *)
Fixpoint run (ls : LevelSystem) (calls : list Call) : LevelSystem :=
  match calls with
  | [] => ls
  | c :: rest =>
      run (fst (addScore (call_gm c) ls (call_score c) (call_result c))) rest
  end.

(** The specification's wording of the level: [l] is the greatest 1-based
    index whose threshold the experience has reached. *)
Definition greatest_level (exp l : Z) : Prop :=
  1 <= l <= 20
  /\ nth (Z.to_nat (l - 1)) levelThresholds 0 <= exp
  /\ forall j, l < j <= 20 -> exp < nth (Z.to_nat (j - 1)) levelThresholds 0.

(** The specification's wording of an evaluation: a definition is reported
    when its key is not among the unlocked ones and its predicate holds. *)
Definition eligible (unlocked : list string) (stats : PlayerStats)
  (lastResult : option ScoreResult) (d : string * Achievement) : bool :=
  negb (includes unlocked (fst d)) && condition (snd d) stats lastResult.

Definition newlyUnlocked (unlocked : list string) (stats : PlayerStats)
  (lastResult : option ScoreResult) : list (string * Achievement) :=
  filter (eligible unlocked stats lastResult) achievementDefinitions.

(** The level agrees with the experience: kept by calls that add a
    non-negative score. *)
Definition level_in_step (ls : LevelSystem) : Prop :=
  0 <= currentExp ls /\ currentLevel ls = calculateLevel (currentExp ls).

(** A game manager with nothing answered yet, and a call of [addScore]
    that passes a score and no result. *)
Definition idle_game : GameManager := mkGameManager None None 0 0 0 0 None.

Definition plainCall (score : Z) : Call := mkCall idle_game score None.

(** A result as [calculateScore] returns it for the example question. *)
Definition sampleResult (sel : string) (remaining hints : Z) : ScoreResult :=
  Score.scoreOf Score.example_question (Some sel) remaining hints.

(** A player four correct answers into a streak, and a player who already
    holds the first badge, with the game manager that counts one correct
    answer out of one. *)
Definition streak4 : LevelSystem := mkLevelSystem 1 0 0 [] 4 4.

Definition badgeHolder : LevelSystem :=
  mkLevelSystem 1 0 0 ["first_correct"%string] 1 1.

Definition one_correct_game : GameManager :=
  mkGameManager None None 0 0 1 1 None.

End WithRounding.

End Level.

(** ** NPCSystem: the hint path *)

Module Npc.
Local Open Scope string_scope.

(** A JavaScript value of the hint path: what [response.json()] decodes,
    and a function or a built-in object, of which only the name is kept
    ([JSON.parse] returns none of these). *)
#[warnings="-register-all"]
Inductive json : Type :=
| JNull
| JBool (b : bool)
| JNum (z : Z)
| JStr (s : string)
| JArr (items : list json)
| JObj (fields : list (string * json))
| JNative (name : string).

(** The fields of [NPCSystem] the hint path reads and writes.  A typed-text
    effect is running exactly while [isTyping] is [true]. *)
Record NPCSystem := mkNPCSystem {
  npc_currentNpc : option string;
  isTyping : bool
}.

(** A call that may change the instance and may throw: the state reached
    comes back in both cases, since an assignment made before a [throw]
    stays. *)
Definition action (A : Type) : Type := NPCSystem * completion A.

(** What [levelHints[key]] finds: a line of text, or, under a name that
    every object inherits from [Object.prototype], the function (for
    [__proto__], the object) of that name. *)
Inductive Found : Type :=
| Text (s : string)
| Native (name : string).

(** The object built by [generateEnhancedFallbackHint].  [message] is
    whatever the lookup by NPC found. *)
Record Hint := mkHint {
  hint : string;
  message : Found;
  hintLevel : Z;
  source : string;
  npcId : option string;
  hint_category : string
}.

(** One level of a template: the [base] text and the text per NPC. *)
Record LevelHints := mkLevelHints {
  base : string;
  byNpc : list (string * string)
}.

Definition LevelTable : Type := list (Z * LevelHints).

Fixpoint lookupKey {A : Type} (l : list (string * A)) (k : string) : option A :=
  match l with
  | [] => None
  | (k', v) :: rest => if String.eqb k' k then Some v else lookupKey rest k
  end.

Fixpoint lookupLevel (t : LevelTable) (n : Z) : option LevelHints :=
  match t with
  | [] => None
  | (k, v) :: rest => if Z.eqb k n then Some v else lookupLevel rest n
  end.

(** The names under which every object finds a member of
    [Object.prototype]. *)
Definition inheritedKeys : list string :=
  [ "constructor"; "hasOwnProperty"; "isPrototypeOf"; "propertyIsEnumerable";
    "toLocaleString"; "toString"; "valueOf"; "__proto__";
    "__defineGetter__"; "__defineSetter__";
    "__lookupGetter__"; "__lookupSetter__" ].

(** [levelHints[key]]: the keys the object owns come first, [base] and one
    per NPC; any other key is looked up in [Object.prototype]. *)
Definition levelHintsProp (lh : LevelHints) (key : string) : option Found :=
  if String.eqb key "base" then Some (Text (base lh))
  else
    match lookupKey (byNpc lh) key with
    | Some s => Some (Text s)
    | None =>
        if existsb (String.eqb key) inheritedKeys
        then Some (Native key)
        else None
    end.

(** [toUpperCase()] on the letters a to z; other bytes are kept.  JavaScript
    also maps letters outside ASCII, which no category of the game has. *)
Definition upperAscii (c : ascii) : ascii :=
  let n := nat_of_ascii c in
  if (Nat.leb 97 n && Nat.leb n 122)%bool then ascii_of_nat (n - 32) else c.

Fixpoint toUpperCase (s : string) : string :=
  match s with
  | EmptyString => EmptyString
  | String c rest => String (upperAscii c) (toUpperCase rest)
  end.

(** [questionData.category?.toUpperCase() || 'GENERAL'] *)
Definition categoryOf (q : Question) : string :=
  match category q with
  | None => "GENERAL"
  | Some c =>
      match toUpperCase c with
      | EmptyString => "GENERAL"
      | u => u
      end
  end.

(** The templates of [generateEnhancedFallbackHint], by category and level. *)
Definition enhancedHintTemplates : list (string * LevelTable) :=
  [ ("EC2",
     [
      (1, mkLevelHints
         "인스턴스 확장성과 로드 밸런싱을 고려해보세요."
         [ ("alex_ceo", "트래픽 급증에 대비한 확장 가능한 솔루션이 필요해요!");
           ("sarah_analyst", "데이터를 보니 Auto Scaling이 가장 효율적일 것 같아요.");
           ("mike_security", "보안을 유지하면서 확장할 수 있는 방법을 찾아보세요.");
           ("jenny_developer", "서버 관리 없이 자동으로 확장되는 방법이 있어요!") ]);
      (2, mkLevelHints
         "Auto Scaling Group과 Application Load Balancer 조합을 생각해보세요."
         [ ("alex_ceo", "ALB와 ASG로 비용 효율적인 확장이 가능해요!");
           ("sarah_analyst", "로드 밸런서 메트릭을 분석하면 최적의 설정을 찾을 수 있어요.");
           ("mike_security", "보안 그룹과 함께 안전한 로드 밸런싱을 구성해보세요.");
           ("jenny_developer", "코드 배포도 자동화할 수 있는 완벽한 조합이에요!") ]);
      (3, mkLevelHints
         "다중 AZ 배포와 CloudWatch 모니터링을 포함한 완전한 아키텍처를 설계해보세요."
         [ ("alex_ceo", "투자자들이 좋아할 고가용성 아키텍처를 만들어봅시다!");
           ("sarah_analyst", "CloudWatch 대시보드로 모든 지표를 한눈에 볼 수 있어요.");
           ("mike_security", "다중 AZ로 장애 복구와 보안을 동시에 확보하세요.");
           ("jenny_developer", "Infrastructure as Code로 전체 스택을 관리해보세요!") ]) ]);
    ("S3",
     [
      (1, mkLevelHints
         "스토리지 클래스와 액세스 패턴을 고려해보세요."
         [ ("alex_ceo", "비용 최적화를 위한 스토리지 전략이 중요해요!");
           ("sarah_analyst", "액세스 패턴을 분석해서 적절한 클래스를 선택하세요.");
           ("mike_security", "데이터 암호화와 접근 제어를 잊지 마세요.");
           ("jenny_developer", "라이프사이클 정책으로 자동화해보세요!") ]);
      (2, mkLevelHints
         "Standard-IA, Glacier 등 적절한 스토리지 클래스를 선택해보세요."
         [ ("alex_ceo", "Standard-IA로 비용을 70% 절약할 수 있어요!");
           ("sarah_analyst", "데이터 액세스 빈도에 따라 클래스를 분류해보세요.");
           ("mike_security", "Glacier로 장기 보관하면서 규제 요구사항도 만족해요.");
           ("jenny_developer", "Intelligent Tiering으로 자동 최적화가 가능해요!") ]);
      (3, mkLevelHints
         "라이프사이클 정책과 버전 관리를 포함한 완전한 스토리지 전략을 수립해보세요."
         [ ("alex_ceo", "완전 자동화된 스토리지 관리로 운영비를 대폭 절감해요!");
           ("sarah_analyst", "버전 관리와 메트릭 분석으로 완벽한 데이터 거버넌스를 구축하세요.");
           ("mike_security", "MFA Delete와 Cross-Region Replication으로 최고 수준의 보안을 확보하세요.");
           ("jenny_developer", "S3 이벤트와 Lambda로 완전 자동화된 워크플로우를 만들어보세요!") ]) ]);
    ("LAMBDA",
     [
      (1, mkLevelHints
         "서버리스 아키텍처와 이벤트 기반 처리를 고려해보세요."
         [ ("alex_ceo", "서버 관리 비용을 완전히 없앨 수 있어요!");
           ("sarah_analyst", "이벤트 기반으로 정확한 데이터 처리가 가능해요.");
           ("mike_security", "서버리스로 공격 표면을 최소화할 수 있어요.");
           ("jenny_developer", "코드만 작성하면 나머지는 AWS가 알아서 해줘요!") ]);
      (2, mkLevelHints
         "Lambda와 API Gateway, DynamoDB 조합을 생각해보세요."
         [ ("alex_ceo", "완전 서버리스 스택으로 운영비 제로를 달성해요!");
           ("sarah_analyst", "DynamoDB 스트림으로 실시간 데이터 분석이 가능해요.");
           ("mike_security", "IAM 역할로 세밀한 권한 제어가 가능해요.");
           ("jenny_developer", "SAM이나 CDK로 전체 스택을 코드로 관리해보세요!") ]);
      (3, mkLevelHints
         "Step Functions를 활용한 워크플로우 오케스트레이션을 포함해보세요."
         [ ("alex_ceo", "복잡한 비즈니스 로직도 시각적으로 관리할 수 있어요!");
           ("sarah_analyst", "Step Functions으로 데이터 파이프라인을 체계적으로 구성하세요.");
           ("mike_security", "각 단계별로 보안 검증을 추가할 수 있어요.");
           ("jenny_developer", "에러 처리와 재시도 로직까지 완벽하게 자동화해보세요!") ]) ]);
    ("RDS",
     [
      (1, mkLevelHints
         "데이터베이스 가용성과 백업 전략을 고려해보세요."
         [ ("alex_ceo", "데이터베이스 다운타임은 비즈니스에 치명적이에요!");
           ("sarah_analyst", "백업과 복구 시간을 정확히 계산해보세요.");
           ("mike_security", "데이터 암호화와 접근 제어가 필수예요.");
           ("jenny_developer", "자동 백업으로 관리 부담을 줄여보세요!") ]);
      (2, mkLevelHints
         "Multi-AZ 배포와 Read Replica를 생각해보세요."
         [ ("alex_ceo", "Multi-AZ로 99.95% 가용성을 보장할 수 있어요!");
           ("sarah_analyst", "Read Replica로 읽기 성능을 5배까지 향상시킬 수 있어요.");
           ("mike_security", "암호화된 Read Replica로 보안과 성능을 동시에 확보하세요.");
           ("jenny_developer", "Aurora Serverless로 자동 스케일링까지 가능해요!") ]);
      (3, mkLevelHints
         "자동 백업, 모니터링, 성능 최적화를 포함한 완전한 DB 솔루션을 설계해보세요."
         [ ("alex_ceo", "완전 자동화된 DB 관리로 DBA 비용까지 절약해요!");
           ("sarah_analyst", "Performance Insights로 쿼리 성능을 실시간 분석하세요.");
           ("mike_security", "Database Activity Streaming으로 모든 DB 활동을 감시하세요.");
           ("jenny_developer", "RDS Proxy와 Lambda로 연결 풀링까지 자동화해보세요!") ]) ]);
    ("VPC",
     [
      (1, mkLevelHints
         "네트워크 보안과 서브넷 구성을 고려해보세요."
         [ ("alex_ceo", "네트워크 설계가 전체 아키텍처의 기반이에요!");
           ("sarah_analyst", "트래픽 패턴을 분석해서 서브넷을 설계하세요.");
           ("mike_security", "네트워크 레벨에서부터 보안을 강화해야 해요.");
           ("jenny_developer", "Infrastructure as Code로 네트워크를 관리해보세요!") ]);
      (2, mkLevelHints
         "퍼블릭/프라이빗 서브넷과 NAT Gateway를 생각해보세요."
         [ ("alex_ceo", "NAT Gateway로 아웃바운드 트래픽을 안전하게 관리해요!");
           ("sarah_analyst", "서브넷별 트래픽 분석으로 최적의 구성을 찾으세요.");
           ("mike_security", "프라이빗 서브넷으로 내부 리소스를 완전히 격리하세요.");
           ("jenny_developer", "Terraform으로 전체 네트워크 인프라를 코드화해보세요!") ]);
      (3, mkLevelHints
         "보안 그룹, NACL, VPC 엔드포인트를 포함한 완전한 네트워크 아키텍처를 설계해보세요."
         [ ("alex_ceo", "엔터프라이즈급 네트워크 보안으로 고객 신뢰를 확보해요!");
           ("sarah_analyst", "VPC Flow Logs로 모든 네트워크 트래픽을 분석하세요.");
           ("mike_security", "다층 보안으로 제로 트러스트 네트워크를 구축하세요.");
           ("jenny_developer", "VPC 엔드포인트로 AWS 서비스 통신을 완전히 프라이빗하게 만들어보세요!") ]) ]) ].

(** The hints used when the category has no template. *)
Definition defaultHints : LevelTable :=
  [
    (1, mkLevelHints
       "AWS의 관리형 서비스를 활용해보세요."
       [ ("alex_ceo", "관리형 서비스로 운영 비용을 대폭 절감할 수 있어요!");
         ("sarah_analyst", "관리형 서비스의 성능 지표를 분석해보세요.");
         ("mike_security", "AWS 관리형 서비스는 보안 패치가 자동으로 적용돼요.");
         ("jenny_developer", "관리형 서비스로 개발에만 집중할 수 있어요!") ]);
    (2, mkLevelHints
       "고가용성과 비용 효율성을 동시에 고려해보세요."
       [ ("alex_ceo", "고가용성으로 비즈니스 연속성을 보장하면서 비용도 최적화해요!");
         ("sarah_analyst", "가용성 지표와 비용 분석을 통해 최적점을 찾으세요.");
         ("mike_security", "고가용성 구성에서도 보안 요구사항을 만족해야 해요.");
         ("jenny_developer", "자동화로 고가용성과 비용 효율성을 동시에 달성해보세요!") ]);
    (3, mkLevelHints
       "모니터링과 자동화를 포함한 완전한 솔루션을 설계해보세요."
       [ ("alex_ceo", "완전 자동화로 운영팀 없이도 안정적인 서비스를 만들어요!");
         ("sarah_analyst", "종합적인 모니터링 대시보드로 모든 지표를 추적하세요.");
         ("mike_security", "자동화된 보안 모니터링과 대응 체계를 구축하세요.");
         ("jenny_developer", "GitOps와 CI/CD로 완전 자동화된 배포 파이프라인을 만들어보세요!") ]) ].

(** A string is truthy when it is not empty. *)
Definition truthyString (s : string) : bool :=
  match s with
  | EmptyString => false
  | _ => true
  end.

(** Truthiness of what a lookup found: a function and an object are
    truthy. *)
Definition truthyFound (f : Found) : bool :=
  match f with
  | Text s => truthyString s
  | Native _ => true
  end.

(** [generateEnhancedFallbackHint(questionData, npcData, hintLevel)].
    [npcData] is not read.  The category is in upper case and the level is
    a number, so the first two lookups meet no name of [Object.prototype];
    the lookup by NPC can.  When no table has the level, [levelHints] is
    [undefined] and reading a property of it throws. *)
Definition generateEnhancedFallbackHint (n : NPCSystem) (q : Question)
  (level : Z) : completion Hint :=
  let cat := categoryOf q in
  let categoryHints :=
    match lookupKey enhancedHintTemplates cat with
    | Some t => t
    | None => defaultHints
    end in
  let levelHints :=
    match lookupLevel categoryHints level with
    | Some lh => Some lh
    | None => lookupLevel defaultHints level
    end in
  match levelHints with
  | None => Throw "TypeError"
  | Some lh =>
      let npcSpecificHint :=
        match npc_currentNpc n with
        | None => Text (base lh)
        | Some npc =>
            match levelHintsProp lh npc with
            | Some f => if truthyFound f then f else Text (base lh)
            | None => Text (base lh)
            end
        end in
      Return (mkHint (base lh) npcSpecificHint level "enhanced_fallback"
                     (npc_currentNpc n) cat)
  end.

(** The fallback object as a JavaScript value, for [showNpcHint]. *)
Definition hintToJson (h : Hint) : json :=
  JObj [ ("hint", JStr (hint h));
         ("message", match message h with
                     | Text s => JStr s
                     | Native name => JNative name
                     end);
         ("hintLevel", JNum (hintLevel h));
         ("source", JStr (source h));
         ("npcId", match npcId h with Some s => JStr s | None => JNull end);
         ("category", JStr (hint_category h)) ].

(** Truthiness of a value; [None] is [undefined]. *)
Definition truthy (v : option json) : bool :=
  match v with
  | None => false
  | Some JNull => false
  | Some (JBool b) => b
  | Some (JNum z) => negb (Z.eqb z 0)
  | Some (JStr s) => truthyString s
  | Some (JArr _) => true
  | Some (JObj _) => true
  | Some (JNative _) => true
  end.

(** [value.key] for the keys [message] and [hint]: a property of [null]
    cannot be read; only an object can own these keys. *)
Definition getProp (value : json) (key : string) : completion (option json) :=
  match value with
  | JNull => Throw "TypeError"
  | JObj fields => Return (lookupKey fields key)
  | _ => Return None
  end.

Definition setTyping (n : NPCSystem) (b : bool) : NPCSystem :=
  mkNPCSystem (npc_currentNpc n) b.

(** [typeMessage(message)], followed to its end.  [isTyping] is set before
    [message.length] is read, which throws for [null] and [undefined]; the
    loop and a skip both end with [isTyping] reset. *)
Definition typeMessage (n : NPCSystem) (msg : option json) : action unit :=
  let n1 := setTyping n true in
  match msg with
  | None => (n1, Throw "TypeError")
  | Some JNull => (n1, Throw "TypeError")
  | Some _ => (setTyping n1 false, Return tt)
  end.

(** [skipDialogue()] *)
Definition skipDialogue (n : NPCSystem) : NPCSystem := setTyping n false.

(** [hintData.message || hintData.hint] *)
Definition hintMessage (hintData : json) : completion (option json) :=
  match getProp hintData "message" with
  | Throw e => Throw e
  | Return m => if truthy m then Return m else getProp hintData "hint"
  end.

(** [showNpcHint(hintData)]: the message is typed, then the continue click
    is awaited. *)
Definition showNpcHint (n : NPCSystem) (hintData : json) : action unit :=
  match hintMessage hintData with
  | Throw e => (n, Throw e)
  | Return m => typeMessage n m
  end.

(** A payload is malformed when it is [null] or when its
    [message || hint] is [null] or [undefined], so that nothing can be
    typed. *)
Definition malformed (hintData : json) : bool :=
  match hintMessage hintData with
  | Throw _ => true
  | Return None => true
  | Return (Some JNull) => true
  | Return (Some _) => false
  end.

(** What the remote service does with the request: [fetch] rejects, or a
    response arrives whose [ok] flag and body are given; a body that is not
    JSON is [None]. *)
Inductive Remote : Type :=
| FetchRejected
| Responded (ok : bool) (body : option json).

(** The value [requestNpcHint] resolves to. *)
Inductive HintReturn : Type :=
| RetNull
| RetRemote (hintData : json)
| RetFallback (h : Hint).

(** The [try] block of [requestNpcHint]. *)
Definition remoteAttempt (n : NPCSystem) (remote : Remote) : action json :=
  match remote with
  | FetchRejected => (n, Throw "TypeError: Failed to fetch")
  | Responded false _ => (n, Throw "HTTP error!")
  | Responded true None => (n, Throw "SyntaxError")
  | Responded true (Some hintData) =>
      match showNpcHint n hintData with
      | (n1, Return _) => (n1, Return hintData)
      | (n1, Throw e) => (n1, Throw e)
      end
  end.

(** The [catch] block of [requestNpcHint]. *)
Definition fallbackAttempt (n : NPCSystem) (q : Question) (level : Z)
  : action HintReturn :=
  match generateEnhancedFallbackHint n q level with
  | Throw e => (n, Throw e)
  | Return fallbackHint =>
      match showNpcHint n (hintToJson fallbackHint) with
      | (n1, Return _) => (n1, Return (RetFallback fallbackHint))
      | (n1, Throw e) => (n1, Throw e)
      end
  end.

(** [!this.currentNpc] *)
Definition noNpc (o : option string) : bool :=
  match o with
  | None => true
  | Some s => negb (truthyString s)
  end.

(** [requestNpcHint(questionData, hintLevel)] *)
Definition requestNpcHint (n : NPCSystem) (q : Question) (level : Z)
  (remote : Remote) : action HintReturn :=
  if noNpc (npc_currentNpc n) then (n, Return RetNull)
  else
    match remoteAttempt n remote with
    | (n1, Return hintData) => (n1, Return (RetRemote hintData))
    | (n1, Throw _) => fallbackAttempt n1 q level
    end.

(** [provideHint] only forwards. *)
Definition provideHint := requestNpcHint.

(** *** GameManager.requestHint *)

(** The game manager together with the NPC system it may hold. *)
Record Session := mkSession {
  game : GameManager;
  npcSystem : option NPCSystem
}.

(** How a call of [requestHint] ends. *)
Inductive HintOutcome : Type :=
| NoQuestionLoaded
| NoHintLeft
| HintProvided (r : HintReturn)
| BasicHintShown (text : option string)
| HintFailed (e : string).

Definition basicHints : list string :=
  [ "AWS의 관리형 서비스를 고려해보세요.";
    "비용 효율성과 확장성을 동시에 고려해야 합니다.";
    "고가용성을 위한 다중 AZ 구성을 생각해보세요." ].

Definition setHintsUsed (g : GameManager) (h : Z) : GameManager :=
  mkGameManager (currentQuestion g) (currentNpc g) (timeRemaining g) h
                (questionsAnswered g) (correctAnswers g) (selectedAnswer g).

(** [hints[Math.min(this.hintsUsed, hints.length - 1)]] *)
Definition basicHintAt (used : Z) : option string :=
  let i := Z.min used 2 in
  if Z.ltb i 0 then None else nth_error basicHints (Z.to_nat i).

(** [showBasicHint()]: the text notified and the hint counted. *)
Definition showBasicHint (g : GameManager) : GameManager * option string :=
  (setHintsUsed g (hintsUsed g + 1), basicHintAt (hintsUsed g)).

(** [requestHint()].  The two guards come first; then the NPC path when
    both [this.npcSystem] and [this.currentNpc] are set, else the basic
    hint; an exception of the NPC path is caught and reported. *)
Definition requestHint (s : Session) (remote : Remote) : Session * HintOutcome :=
  let g := game s in
  match currentQuestion g with
  | None => (s, NoQuestionLoaded)
  | Some q =>
      if Z.leb 3 (hintsUsed g) then (s, NoHintLeft)
      else
        match npcSystem s with
        | Some n =>
            if noNpc (currentNpc g)
            then (mkSession (fst (showBasicHint g)) (Some n),
                  BasicHintShown (snd (showBasicHint g)))
            else
              match provideHint n q (hintsUsed g + 1) remote with
              | (n1, Return hintData) =>
                  (mkSession (setHintsUsed g (hintsUsed g + 1)) (Some n1),
                   HintProvided hintData)
              | (n1, Throw e) => (mkSession g (Some n1), HintFailed e)
              end
        | None =>
            (mkSession (fst (showBasicHint g)) None,
             BasicHintShown (snd (showBasicHint g)))
        end
  end.

(** The session with the typed-text flag of its NPC system set to [b]. *)
Definition withTyping (s : Session) (b : bool) : Session :=
  mkSession (game s)
            (match npcSystem s with
             | Some n => Some (setTyping n b)
             | None => None
             end).

(** [skip] on the session: the skip button calls [skipDialogue] of the NPC
    system that registered it. *)
Definition skip (s : Session) : Session :=
  mkSession (game s)
            (match npcSystem s with
             | Some n => Some (skipDialogue n)
             | None => None
             end).

(** A typed-text effect is running in the session. *)
Definition typingActive (s : Session) : bool :=
  match npcSystem s with
  | Some n => isTyping n
  | None => false
  end.

(** The remote lookup fails: the request is rejected, the response is not a
    success, its body is not JSON, or the payload is malformed. *)
Definition remoteFails (remote : Remote) : bool :=
  match remote with
  | FetchRejected => true
  | Responded false _ => true
  | Responded true None => true
  | Responded true (Some hintData) => malformed hintData
  end.

(** Every level entry of every template. *)
Definition allLevelHints : list LevelHints :=
  flat_map (fun t => map snd (snd t)) enhancedHintTemplates
  ++ map snd defaultHints.

(** An NPC system in dialogue with Alex, idle or in the middle of a typed
    line, and a session on the example question that holds it. *)
Definition alex (typing : bool) : NPCSystem :=
  mkNPCSystem (Some "alex_ceo") typing.

Definition alexSession (typing : bool) (hints : Z) : Session :=
  mkSession (Score.example_game "B" 45 hints) (Some (alex typing)).

End Npc.

(** ** LevelSystem: progress bar, titles, badge count and saved progress *)

Module Progress.
Import Level.

Section WithRounding.
Context {R : Rounding}.

(** [this.levelThresholds[i]], [undefined] outside the table. *)
Definition thresholdAt (i : Z) : option Z :=
  if i <? 0 then None else nth_error levelThresholds (Z.to_nat i).

(** [getExpForNextLevel()] *)
Definition getExpForNextLevel (ls : LevelSystem) : option Z :=
  let len := Z.of_nat (List.length levelThresholds) in
  if len <=? currentLevel ls
  then thresholdAt (len - 1)
  else thresholdAt (currentLevel ls).

(** The object returned by [getExpProgress]. *)
Record ExpProgress := mkExpProgress {
  ep_current : Z;
  ep_required : Z;
  ep_percentage : Q
}.

(** [getExpProgress()].  [None] stands for a result with a field that is
    not a finite number: a threshold read outside the table, or a quotient
    by zero that [Math.min] does not bring back to 100. *)
Definition getExpProgress (ls : LevelSystem) : option ExpProgress :=
  let currentLevelExp :=
    if 1 <? currentLevel ls then thresholdAt (currentLevel ls - 2) else Some 0 in
  match currentLevelExp, getExpForNextLevel ls with
  | Some c, Some nextLevelExp =>
      let progressExp := currentExp ls - c in
      let requiredExp := nextLevelExp - c in
      if requiredExp =? 0
      then if 0 <? progressExp
           then Some (mkExpProgress progressExp requiredExp 100)
           else None
      else Some (mkExpProgress progressExp requiredExp
                   (Qmin (rnd (rnd (inject_Z progressExp / inject_Z requiredExp)
                               * 100))
                         100))
  | _, _ => None
  end.

(** An entry of [this.expertTitles]. *)
Record Title := mkTitle {
  title_text : string;
  title_color : string;
  title_icon : string
}.

(** [this.expertTitles]; [for ... in] visits integer keys in ascending
    order, which is the order written. *)
Definition expertTitles : list (Z * Title) :=
  [ (1, mkTitle "AWS 입문자" "#95a5a6" "🌱");
    (3, mkTitle "클라우드 탐험가" "#3498db" "🔍");
    (5, mkTitle "AWS 실무자" "#2ecc71" "⚡");
    (8, mkTitle "솔루션 아키텍트" "#f39c12" "🏗️");
    (12, mkTitle "클라우드 전문가" "#e74c3c" "🎯");
    (15, mkTitle "AWS 마스터" "#9b59b6" "👑");
    (18, mkTitle "클라우드 구루" "#1abc9c" "🧙‍♂️");
    (20, mkTitle "AWS 레전드" "#f1c40f" "⭐") ].

(** The loop of [getCurrentTitle]: every entry whose key the level has
    reached replaces the title picked so far. *)
Fixpoint titleLoop (entries : list (Z * Title)) (level : Z) (title : Title)
  : Title :=
  match entries with
  | [] => title
  | (k, t) :: rest => titleLoop rest level (if k <=? level then t else title)
  end.

(** [getCurrentTitle()]; the loop starts from [this.expertTitles[1]]. *)
Definition getCurrentTitle (ls : LevelSystem) : Title :=
  titleLoop expertTitles (currentLevel ls)
            (mkTitle "AWS 입문자" "#95a5a6" "🌱").

(** [getAllAchievements()] *)
Definition getAllAchievements (ls : LevelSystem) : list (option Achievement) :=
  map (lookupDefinition achievementDefinitions) (achievements ls).

(** [Math.round]: the nearest integer, a half going up. *)
Definition mathRound (x : Q) : Z := Qfloor (x + (1 # 2)).

(** The object returned by [getAchievementProgress]. *)
Record AchievementProgress := mkAchievementProgress {
  ap_earned : Z;
  ap_total : Z;
  ap_percentage : Z
}.

(** [getAchievementProgress()] *)
Definition getAchievementProgress (ls : LevelSystem) : AchievementProgress :=
  let total := Z.of_nat (List.length achievementDefinitions) in
  let earned := Z.of_nat (List.length (achievements ls)) in
  mkAchievementProgress earned total
    (mathRound (rnd (rnd (inject_Z earned / inject_Z total) * 100))).

(** The accuracy shown by [updateUI], [getLeaderboardData] and
    [updateGameStats]:
    [answered > 0 ? Math.round((correct / answered) * 100) : 0]. *)
Definition accuracyOf (correct answered : Z) : Z :=
  if 0 <? answered
  then mathRound (rnd (rnd (inject_Z correct / inject_Z answered) * 100))
  else 0.

(** The object written by [saveUserProgress], as [JSON.parse] gives it
    back; a field that is missing or [null] is [None].  The date of the
    save is not read again and is left out. *)
Record ProgressData := mkProgressData {
  pd_level : option Z;
  pd_exp : option Z;
  pd_totalScore : option Z;
  pd_achievements : option (list string);
  pd_streakCount : option Z;
  pd_maxStreak : option Z
}.

(** The item [awsGameProgress] of the local storage: absent (or empty),
    text that [JSON.parse] rejects or turns into [null], or an object.
    Stringifying integers and strings and parsing them back returns them
    unchanged, so the object stands for its text. *)
Inductive Stored : Type :=
| NoItem
| Unreadable
| Saved (pd : ProgressData).

(** [saveUserProgress()] *)
Definition saveUserProgress (ls : LevelSystem) : Stored :=
  Saved (mkProgressData (Some (currentLevel ls)) (Some (currentExp ls))
           (Some (ls_totalScore ls)) (Some (achievements ls))
           (Some (streakCount ls)) (Some (maxStreak ls))).

(** [value || fallback] for a number: 0 is falsy. *)
Definition orNumber (value : option Z) (fallback : Z) : Z :=
  match value with
  | Some v => if v =? 0 then fallback else v
  | None => fallback
  end.

(** [value || []] for an array: every array is truthy. *)
Definition orArray (value : option (list string)) : list string :=
  match value with
  | Some l => l
  | None => []
  end.

(** [loadUserProgress()]: the exception of an unreadable item is caught
    before any field is assigned. *)
Definition loadUserProgress (ls : LevelSystem) (item : Stored) : LevelSystem :=
  match item with
  | NoItem => ls
  | Unreadable => ls
  | Saved pd =>
      mkLevelSystem (orNumber (pd_level pd) 1) (orNumber (pd_exp pd) 0)
                    (orNumber (pd_totalScore pd) 0) (orArray (pd_achievements pd))
                    (orNumber (pd_streakCount pd) 0) (orNumber (pd_maxStreak pd) 0)
  end.

(** The constructor: the default fields, then [init()] loads the item. *)
Definition construct (item : Stored) : LevelSystem :=
  loadUserProgress fresh item.

(** [resetProgress()]: the new state and the item, which is removed. *)
Definition resetProgress (ls : LevelSystem) : LevelSystem * Stored :=
  (fresh, NoItem).

(** [addScore] as it leaves the instance and the storage: the call ends
    with [saveUserProgress()]. *)
Definition addScoreAndSave (gm : GameManager) (ls : LevelSystem) (score : Z)
  (questionResult : option ScoreResult) : LevelSystem * Stored :=
  let ls' := fst (addScore gm ls score questionResult) in
  (ls', saveUserProgress ls').

(** The unlocked list holds no id twice and only ids of definitions. *)
Definition badges_sound (ls : LevelSystem) : Prop :=
  NoDup (achievements ls)
  /\ incl (achievements ls) (map fst achievementDefinitions).

End WithRounding.

End Progress.

(** ** GameManager: the course of a question *)

Module Play.
Import Npc.
Local Open Scope string_scope.

Section WithRounding.
Context {R : Rounding}.

(** The state between two events.  An asynchronous method runs up to an
    [await] that the network, a timer or a click ends, and goes on after
    it; any event in between finds the fields as the first part left
    them, and the second part finds them as the events in between left
    them.  Two awaits stand between the test of a field and its use:
    [await this.npcSystem.provideHint(...)] in [requestHint], and
    [await this.revealAnswers()] in [submitAnswer].  The calls waiting
    there are part of the state: of a hint the question and the level
    passed to [provideHint], of an answer nothing, since [calculateScore]
    reads its fields after the await. *)
Record Play := mkPlay {
  session : Session;
  questionTimer : bool;
  hintsPending : list (Question * Z);
  answersPending : nat
}.

(** The fields as the two constructors leave them. *)
Definition initialGame : GameManager := mkGameManager None None 0 0 0 0 None.

Definition initial : Play :=
  mkPlay (mkSession initialGame (Some (mkNPCSystem None false))) false [] 0.

Definition currentGame (p : Play) : GameManager := game (session p).

Definition setSession (p : Play) (s : Session) : Play :=
  mkPlay s (questionTimer p) (hintsPending p) (answersPending p).

Definition setGame (p : Play) (g : GameManager) : Play :=
  setSession p (mkSession g (npcSystem (session p))).

(** [stopQuestionTimer()] *)
Definition stopQuestionTimer (p : Play) : Play :=
  mkPlay (session p) false (hintsPending p) (answersPending p).

(** [!value] for a value that is a string or [null]. *)
Definition unset (value : option string) : bool := noNpc value.

(** [resetGameState()] *)
Definition resetGameState (p : Play) : Play :=
  let g := currentGame p in
  stopQuestionTimer
    (setGame p (mkGameManager None (currentNpc g) 0 0
                  (questionsAnswered g) (correctAnswers g) None)).

(** [resetQuestionUI()] *)
Definition resetQuestionUI (g : GameManager) : GameManager :=
  mkGameManager (currentQuestion g) (currentNpc g) (timeRemaining g) 0
                (questionsAnswered g) (correctAnswers g) None.

(** [loadQuestion()] with the question that [generateMockQuestion] draws:
    the question is stored, [displayQuestion] resets the answer and the
    hints, and [startQuestionTimer] sets the time and the interval.  It
    awaits nothing. *)
Definition loadQuestion (p : Play) (q : Question) : Play :=
  let g := currentGame p in
  let g1 := mkGameManager (Some q) (currentNpc g) (timeRemaining g) (hintsUsed g)
                          (questionsAnswered g) (correctAnswers g)
                          (selectedAnswer g) in
  let g2 := resetQuestionUI g1 in
  let g3 := mkGameManager (currentQuestion g2) (currentNpc g2) (timeLimit q)
                          (hintsUsed g2) (questionsAnswered g2)
                          (correctAnswers g2) (selectedAnswer g2) in
  mkPlay (mkSession g3 (npcSystem (session p))) true
         (hintsPending p) (answersPending p).

(** The keys of [this.npcData]. *)
Definition npcIds : list string :=
  [ "alex_ceo"; "sarah_analyst"; "mike_security"; "jenny_developer" ].

(** [this.npcData[npcId]] is one of the four NPCs.  Under any other
    identifier it is [undefined], or, under a name of [Object.prototype],
    a function or object without greetings and responses. *)
Definition knownNpc (id : string) : bool := existsb (String.eqb id) npcIds.

(** [selectNpc(npcId)] followed by [startGameSession()], which a timer
    starts half a second later: both objects record the NPC;
    [startNpcDialogue] types the greetings and loads the question when
    [npcData] has the NPC.  Otherwise it returns early, or reading the
    greetings throws and [startGameSession] catches it; no question is
    loaded either way. *)
Definition selectNpc (p : Play) (npcId : string) (q : Question) : Play :=
  let g := currentGame p in
  let g1 := mkGameManager (currentQuestion g) (Some npcId) (timeRemaining g)
                          (hintsUsed g) (questionsAnswered g)
                          (correctAnswers g) (selectedAnswer g) in
  match npcSystem (session p) with
  | Some n =>
      if unset (Some npcId)
      then loadQuestion (setSession p (mkSession g1 (Some n))) q
      else if knownNpc npcId
      then loadQuestion
             (setSession p
                (mkSession g1 (Some (mkNPCSystem (Some npcId) false)))) q
      else setSession p
             (mkSession g1 (Some (mkNPCSystem (Some npcId) (isTyping n))))
  | None => loadQuestion (setSession p (mkSession g1 None)) q
  end.

(** [selectOption(optionId)] *)
Definition selectOption (p : Play) (optionId : string) : Play :=
  let g := currentGame p in
  setGame p (mkGameManager (currentQuestion g) (currentNpc g) (timeRemaining g)
               (hintsUsed g) (questionsAnswered g) (correctAnswers g)
               (Some optionId)).

(** [showAnswerResponse]: without an NPC nothing is typed; the response
    pools are read from [npcData[this.currentNpc]], and drawing from a
    pool that is not there throws. *)
Definition showAnswerResponse (n : NPCSystem) : action unit :=
  match npc_currentNpc n with
  | None => (n, Return tt)
  | Some id =>
      if negb (truthyString id) then (n, Return tt)
      else if knownNpc id then (setTyping n false, Return tt)
      else (n, Throw "TypeError")
  end.

(** The counters of [handleAnswerResult]. *)
Definition countAnswer (g : GameManager) (result : ScoreResult) : GameManager :=
  mkGameManager (currentQuestion g) (currentNpc g) (timeRemaining g)
                (hintsUsed g) (questionsAnswered g + 1)
                (if isCorrect result then correctAnswers g + 1 else correctAnswers g)
                (selectedAnswer g).

(** What an event lets the player see: nothing, the warning of a guard,
    the end of a hint request, the result of an answer, an exception of
    the NPC's reaction, or an exception of [calculateScore]. *)
Inductive Output : Type :=
| Quiet
| Warned
| Hinted (o : HintOutcome)
| Scored (r : ScoreResult)
| Crashed (e : string)
| Unscored (e : string).

(** [requestHint()] up to [await this.npcSystem.provideHint(...)].  The
    two guards are tested here.  The basic hint awaits nothing and is
    counted at once; so is the answer [null] of an NPC system without NPC,
    which [requestNpcHint] returns before its first await.  Any other
    call waits, with the question and the level [hintsUsed + 1] it
    passed. *)
Definition requestHint_first (p : Play) : Play * Output :=
  let g := currentGame p in
  match currentQuestion g with
  | None => (p, Hinted NoQuestionLoaded)
  | Some q =>
      if Z.leb 3 (hintsUsed g) then (p, Hinted NoHintLeft)
      else
        match npcSystem (session p) with
        | Some n =>
            if noNpc (currentNpc g)
            then (setGame p (fst (showBasicHint g)),
                  Hinted (BasicHintShown (snd (showBasicHint g))))
            else if noNpc (npc_currentNpc n)
            then (setGame p (setHintsUsed g (hintsUsed g + 1)),
                  Hinted (HintProvided RetNull))
            else (mkPlay (session p) (questionTimer p)
                         (hintsPending p ++ [(q, hintsUsed g + 1)])
                         (answersPending p),
                  Quiet)
        | None =>
            (setGame p (fst (showBasicHint g)),
             Hinted (BasicHintShown (snd (showBasicHint g))))
        end
  end.

(** The [try] and [catch] blocks of [requestNpcHint], entered by a call
    that passed its guard: they run when the request settles. *)
Definition requestNpcHint_rest (n : NPCSystem) (q : Question) (level : Z)
  (remote : Remote) : action HintReturn :=
  match remoteAttempt n remote with
  | (n1, Return hintData) => (n1, Return (RetRemote hintData))
  | (n1, Throw _) => fallbackAttempt n1 q level
  end.

(** A list without its [k]-th entry. *)
Fixpoint without {A : Type} (k : nat) (l : list A) : list A :=
  match l, k with
  | [], _ => []
  | _ :: rest, O => rest
  | x :: rest, S k' => x :: without k' rest
  end.

(** The rest of [requestHint()] for the [k]-th waiting call, whose
    request settles as [remote] tells: the hint of the service or the
    fallback is typed, and [this.hintsUsed++] counts it on the value the
    field has by then; an exception is caught and reported.  The typed
    line and the continue click inside [provideHint] read and write
    [isTyping] alone; they are run with the rest. *)
Definition requestHint_rest (p : Play) (k : nat) (remote : Remote)
  : Play * Output :=
  let g := currentGame p in
  match nth_error (hintsPending p) k, npcSystem (session p) with
  | Some (q, level), Some n =>
      let waiting := without k (hintsPending p) in
      match requestNpcHint_rest n q level remote with
      | (n1, Return hintData) =>
          (mkPlay (mkSession (setHintsUsed g (hintsUsed g + 1)) (Some n1))
                  (questionTimer p) waiting (answersPending p),
           Hinted (HintProvided hintData))
      | (n1, Throw e) =>
          (mkPlay (mkSession g (Some n1))
                  (questionTimer p) waiting (answersPending p),
           Hinted (HintFailed e))
      end
  | _, _ => (p, Quiet)
  end.

(** [submitAnswer()] up to [await this.revealAnswers()]: the guard, and
    the timer stopped. *)
Definition submitAnswer_first (p : Play) : Play * Output :=
  let g := currentGame p in
  match currentQuestion g with
  | None => (p, Warned)
  | Some q =>
      if unset (selectedAnswer g) then (p, Warned)
      else (mkPlay (session p) false (hintsPending p) (S (answersPending p)),
            Quiet)
  end.

(** The rest of [submitAnswer()], 600 ms later: the score is calculated
    on the fields as they are by then, and [calculateScore] throws when
    the question has been taken away.  With an NPC system and an NPC
    chosen, [handleAnswerResult] lets the NPC react and counts the
    answer; an exception of the reaction leaves the answer uncounted.
    The reaction awaits a typed line before the counters are
    incremented; nothing else writes the counters and the result is
    kept in a local variable, so the increment is made at once. *)
Definition submitAnswer_rest (p : Play) : Play * Output :=
  match answersPending p with
  | O => (p, Quiet)
  | S waiting =>
      let g := currentGame p in
      let p1 := mkPlay (session p) (questionTimer p) (hintsPending p) waiting in
      match Score.calculateScore g with
      | Throw e => (p1, Unscored e)
      | Return result =>
          match npcSystem (session p) with
          | Some n =>
              if unset (currentNpc g) then (p1, Scored result)
              else
                match showAnswerResponse n with
                | (n1, Return _) =>
                    (setSession p1 (mkSession (countAnswer g result) (Some n1)),
                     Scored result)
                | (n1, Throw e) =>
                    (setSession p1 (mkSession g (Some n1)), Crashed e)
                end
          | None => (p1, Scored result)
          end
      end
  end.

(** [timeUp()]: the timer is stopped, option A stands in for a missing
    choice, and [submitAnswer()] is called and not awaited. *)
Definition timeUp (p : Play) : Play * Output :=
  let p1 := stopQuestionTimer p in
  let g := currentGame p1 in
  let p2 :=
    if unset (selectedAnswer g)
    then setGame p1 (mkGameManager (currentQuestion g) (currentNpc g)
                       (timeRemaining g) (hintsUsed g) (questionsAnswered g)
                       (correctAnswers g) (Some "A"))
    else p1 in
  submitAnswer_first p2.

(** One firing of the interval set by [startQuestionTimer]; a cleared
    interval does not fire. *)
Definition tick (p : Play) : Play * Output :=
  if questionTimer p
  then
    let g := currentGame p in
    let p1 := setGame p (mkGameManager (currentQuestion g) (currentNpc g)
                           (timeRemaining g - 1) (hintsUsed g)
                           (questionsAnswered g) (correctAnswers g)
                           (selectedAnswer g)) in
    if Z.leb (timeRemaining g - 1) 0 then timeUp p1 else (p1, Quiet)
  else (p, Quiet).

(** What can happen, in any order: the clicks, the firing of the
    interval, and the ends of the two awaits. *)
Inductive Event : Type :=
| SelectNpc (npcId : string) (q : Question)
| NextQuestion (q : Question)
| SelectOption (optionId : string)
| RequestHint
| HintSettles (k : nat) (remote : Remote)
| SubmitAnswer
| AnswersRevealed
| Tick
| EndSession.

Definition step (p : Play) (e : Event) : Play * Output :=
  match e with
  | SelectNpc npcId q => (selectNpc p npcId q, Quiet)
  | NextQuestion q => (loadQuestion (resetGameState p) q, Quiet)
  | SelectOption optionId => (selectOption p optionId, Quiet)
  | RequestHint => requestHint_first p
  | HintSettles k remote => requestHint_rest p k remote
  | SubmitAnswer => submitAnswer_first p
  | AnswersRevealed => submitAnswer_rest p
  | Tick => tick p
  | EndSession => (resetGameState p, Quiet)
  end.

(** A sequence of events, with what each one shows. *)
Fixpoint play (p : Play) (events : list Event) : Play * list Output :=
  match events with
  | [] => (p, [])
  | e :: rest =>
      let '(p1, o) := step p e in
      let '(p2, os) := play p1 rest in
      (p2, o :: os)
  end.

(** The question an event loads, if any. *)
Definition loaded (e : Event) : option Question :=
  match e with
  | SelectNpc _ q => Some q
  | NextQuestion q => Some q
  | _ => None
  end.

(** The events load questions with a time limit of a second or more. *)
Definition timed (e : Event) : Prop :=
  match loaded e with
  | Some q => 1 <= timeLimit q
  | None => True
  end.

(** What holds of the game manager in the course of a question when no
    more than three hints have been counted. *)
Definition in_round (p : Play) : Prop :=
  let g := currentGame p in
  0 <= hintsUsed g <= 3
  /\ 0 <= correctAnswers g <= questionsAnswered g
  /\ match currentQuestion g with
     | Some q =>
         1 <= timeLimit q
         /\ 0 <= timeRemaining g <= timeLimit q
         /\ (questionTimer p = true -> 1 <= timeRemaining g)
     | None => questionTimer p = false
     end.

(** What holds whatever the order of the events: the time and the
    counters as in [in_round], hints counted from 0 on, and waiting hint
    calls that passed a level from 1 to 3. *)
Definition in_play (p : Play) : Prop :=
  let g := currentGame p in
  0 <= hintsUsed g
  /\ 0 <= correctAnswers g <= questionsAnswered g
  /\ match currentQuestion g with
     | Some q =>
         1 <= timeLimit q
         /\ 0 <= timeRemaining g <= timeLimit q
         /\ (questionTimer p = true -> 1 <= timeRemaining g)
     | None => questionTimer p = false
     end
  /\ Forall (fun w => 1 <= snd w <= 3) (hintsPending p).

(** The hints counted and the hint calls waiting are three at most. *)
Definition in_turn (p : Play) : Prop :=
  in_play p
  /\ hintsUsed (currentGame p) + Z.of_nat (List.length (hintsPending p)) <= 3.

(** The event is not a hint request made while another one waits. *)
Definition unhurried (p : Play) (e : Event) : Prop :=
  match e with
  | RequestHint => hintsPending p = []
  | _ => True
  end.

(** Along the events no hint is requested while another one waits. *)
Fixpoint patient (p : Play) (events : list Event) : Prop :=
  match events with
  | [] => True
  | e :: rest => unhurried p e /\ patient (fst (step p e)) rest
  end.

(** A hint request whose call ends before anything else happens. *)
Definition askHint (remote : Remote) : list Event :=
  [RequestHint; HintSettles 0 remote].

(** A submission whose answers are revealed before anything else
    happens. *)
Definition answer : list Event := [SubmitAnswer; AnswersRevealed].

(** [this.npcSystem && this.currentNpc]: the guard of the NPC reaction
    and of the NPC hint. *)
Definition npcChosen (p : Play) : bool :=
  match npcSystem (session p) with
  | Some _ => negb (unset (currentNpc (currentGame p)))
  | None => false
  end.

(** The NPC system can react to an answer: it has no NPC, or one that
    [npcData] knows. *)
Definition canReact (p : Play) : bool :=
  match npcSystem (session p) with
  | Some n =>
      match npc_currentNpc n with
      | Some id => negb (truthyString id) || knownNpc id
      | None => true
      end
  | None => true
  end.

(** The example question started with Alex and answered B, and the same
    with one second left and no option chosen. *)
Definition alexRound : Play :=
  fst (play initial [SelectNpc "alex_ceo" Score.example_question;
                     SelectOption "B"]).

Definition lastSecond : Play :=
  let p := selectNpc initial "alex_ceo" Score.example_question in
  let g := currentGame p in
  setGame p (mkGameManager (currentQuestion g) (currentNpc g) 1 (hintsUsed g)
               (questionsAnswered g) (correctAnswers g) (selectedAnswer g)).

(** Four hint requests made before the first of them has ended. *)
Definition hurried : list Event :=
  SelectNpc "alex_ceo" Score.example_question
  :: repeat RequestHint 4
  ++ repeat (HintSettles 0 FetchRejected) 4.

(** The questions of [generateMockQuestion], one of which it draws. *)
Definition mockQuestions : list Question :=
  [ mkQuestion "q001" (Some "EC2") "medium" 100 60 "B";
    mkQuestion "q002" (Some "S3") "easy" 75 45 "B" ].

(** Eight hint requests on the second mock question made before the
    first of them has ended, the right option chosen, and the time left
    to run out. *)
Definition hurriedStart : list Event :=
  SelectNpc "alex_ceo" (mkQuestion "q002" (Some "S3") "easy" 75 45 "B")
  :: SelectOption "B"
  :: repeat RequestHint 8
  ++ repeat (HintSettles 0 FetchRejected) 8
  ++ repeat Tick 45.

Definition hurriedMock : list Event := hurriedStart ++ [AnswersRevealed].

(** The events load questions drawn by [generateMockQuestion]. *)
Definition mocked (e : Event) : Prop :=
  match loaded e with
  | Some q => In q mockQuestions
  | None => True
  end.

(** The loaded question, if any, is one of the mock questions. *)
Definition mock_loaded (p : Play) : Prop :=
  match currentQuestion (currentGame p) with
  | Some q => In q mockQuestions
  | None => True
  end.



(** The line "difficulty bonus" of [displayResult]:
    [Math.floor(result.baseScore * (result.difficultyMultiplier - 1))]. *)
Definition difficultyBonusShown (r : ScoreResult) : Z :=
  Qfloor (inject_Z (baseScore r) * (difficultyMultiplier r - 1)).

(** The lines of [displayResult] added up: base score, difficulty bonus
    and time bonus, less the hint penalty. *)
Definition shownSum (r : ScoreResult) : Z :=
  baseScore r + difficultyBonusShown r + timeBonus r - hintPenalty r.

End WithRounding.

End Play.

(** ** NPCSystem.typeMessage: the typed line *)

Module Typing.
Local Open Scope string_scope.

(** The text of the dialogue box and [this.isTyping] while a string is
    typed.  A string is the sequence of its units. *)
Record Line := mkLine {
  shown : string;
  typing : bool
}.

(** The [for] loop of [typeMessage] over the units not yet typed.  After
    each unit the call sleeps; [skips] tells for each sleep, in order,
    whether the skip button is pressed during it, which clears the flag. *)
Fixpoint typeLoop (rest : string) (skips : list bool) (l : Line) : Line :=
  match rest with
  | EmptyString => l
  | String c rest' =>
      if negb (typing l) then l
      else
        let text := shown l ++ String c EmptyString in
        let pressed := match skips with b :: _ => b | [] => false end in
        typeLoop rest' (tl skips)
                 (mkLine text (if pressed then false else typing l))
  end.

(** [typeMessage(message)] on a string: the flag is set and the box
    emptied, the loop runs, a cleared flag puts the whole message in the
    box, and the flag is reset. *)
Definition typeString (message : string) (skips : list bool) : Line :=
  let l := typeLoop message skips (mkLine "" true) in
  mkLine (if negb (typing l) then message else shown l) false.

(** The first [n] units of a string. *)
Definition firstUnits (n : nat) (s : string) : string := substring 0 n s.

End Typing.

(** ** Arithmetic of [Qfloor] and of the rounding *)

Section FloorFacts.

Lemma Qfloor_add_Z (x : Q) (n : Z) : Qfloor (x + inject_Z n) = Qfloor x + n.
Proof.
  destruct x as [a d]. unfold Qfloor, Qplus, inject_Z. simpl.
  rewrite Pos.mul_1_r, Z.mul_1_r.
  apply Z.div_add. discriminate.
Qed.

Lemma Qfloor_sub_Z (x : Q) (n : Z) : Qfloor (x - inject_Z n) = Qfloor x - n.
Proof.
  unfold Qminus.
  replace (- inject_Z n)%Q with (inject_Z (- n)) by reflexivity.
  rewrite Qfloor_add_Z. lia.
Qed.

Lemma Qfloor_nonneg (x : Q) : (0 <= x)%Q -> 0 <= Qfloor x.
Proof.
  intro H. change 0 with (Qfloor 0). now apply Qfloor_resp_le.
Qed.

Lemma ratio_nonneg (r t : Z) :
  0 <= r -> 0 < t -> (0 <= inject_Z r / inject_Z t)%Q.
Proof.
  intros Hr Ht. apply Qle_shift_div_l.
  - change 0%Q with (inject_Z 0). rewrite <- Zlt_Qlt. exact Ht.
  - rewrite Qmult_0_l. change 0%Q with (inject_Z 0). rewrite <- Zle_Qle. exact Hr.
Qed.

Lemma ratio_le_1 (r t : Z) :
  r <= t -> 0 < t -> (inject_Z r / inject_Z t <= 1)%Q.
Proof.
  intros Hr Ht. apply Qle_shift_div_r.
  - change 0%Q with (inject_Z 0). rewrite <- Zlt_Qlt. exact Ht.
  - rewrite Qmult_1_l. rewrite <- Zle_Qle. exact Hr.
Qed.

End FloorFacts.

Section RoundingFacts.
Context (R : Rounding).

Lemma rnd_comp (x y : Q) : (x == y)%Q -> (rnd x == rnd y)%Q.
Proof.
  intro H. apply Qle_antisym; apply rnd_le; rewrite H; apply Qle_refl.
Qed.

(** A rational equal to a double is returned as it is. *)
Lemma rnd_exact_at (x : Q) (m : Z) (e : nat) :
  Z.abs m < 2 ^ 53 -> (e <= 1000)%nat ->
  (x == inject_Z m / inject_Z (2 ^ Z.of_nat e))%Q ->
  (rnd x == x)%Q.
Proof.
  intros Hm He Hx.
  rewrite (rnd_comp _ _ Hx), Hx. now apply rnd_double.
Qed.

Lemma rnd_Z (k : Z) : Z.abs k < 2 ^ 53 -> (rnd (inject_Z k) == inject_Z k)%Q.
Proof.
  intro Hk. apply (rnd_exact_at _ k 0); [exact Hk | lia |].
  unfold Qdiv. change (/ inject_Z (2 ^ Z.of_nat 0))%Q with 1%Q.
  now rewrite Qmult_1_r.
Qed.

Lemma rnd_nonneg (x : Q) : (0 <= x)%Q -> (0 <= rnd x)%Q.
Proof.
  intro H. rewrite <- (rnd_Z 0) by (simpl; lia). now apply rnd_le.
Qed.

Lemma rnd_le_Z (x : Q) (k : Z) :
  Z.abs k < 2 ^ 53 -> (x <= inject_Z k)%Q -> (rnd x <= inject_Z k)%Q.
Proof.
  intros Hk H. rewrite <- (rnd_Z k) by exact Hk. now apply rnd_le.
Qed.

End RoundingFacts.

(** ** Binary64 is monotone and keeps the doubles *)

Section DoubleFacts.
Import Double.

Lemma pow2_pos (e : Z) : (0 < pow2 e)%Q.
Proof. apply Qpower_0_lt. reflexivity. Qed.

Lemma pow2_add (a b : Z) : (pow2 (a + b) == pow2 a * pow2 b)%Q.
Proof. apply Qpower_plus. discriminate. Qed.

Lemma pow2_le (a b : Z) : a <= b -> (pow2 a <= pow2 b)%Q.
Proof. intro H. apply Qpower_le_compat_l; [exact H | discriminate]. Qed.

Lemma pow2_lt (a b : Z) : a < b -> (pow2 a < pow2 b)%Q.
Proof. intro H. apply Qpower_lt_compat_l; [exact H | reflexivity]. Qed.

Lemma pow2_Z (a : Z) : 0 <= a -> (pow2 a == inject_Z (2 ^ a))%Q.
Proof. intro H. unfold pow2. now rewrite (Zpower_Qpower 2 a H). Qed.

Lemma pow2_opp (a : Z) : (pow2 (- a) == / pow2 a)%Q.
Proof. apply Qpower_opp. Qed.

Lemma div_pow2 (x : Q) (e : Z) : (x / pow2 e == x * pow2 (- e))%Q.
Proof. unfold Qdiv. now rewrite pow2_opp. Qed.

(** *** The nearest integer *)

Lemma nearestEven_floor (x : Q) :
  Qfloor x <= nearestEven x <= Qfloor x + 1.
Proof.
  unfold nearestEven.
  destruct (Qcompare _ _); [destruct (Z.even _)| |]; lia.
Qed.

Lemma nearestEven_Z (k : Z) : nearestEven (inject_Z k) = k.
Proof.
  unfold nearestEven. rewrite Qfloor_Z.
  assert (E : (inject_Z k - inject_Z k == 0)%Q) by ring.
  rewrite E. reflexivity.
Qed.

Lemma nearestEven_comp (x y : Q) : (x == y)%Q -> nearestEven x = nearestEven y.
Proof.
  intro E. unfold nearestEven. rewrite (Qfloor_comp _ _ E).
  assert (E2 : (x - inject_Z (Qfloor y) == y - inject_Z (Qfloor y))%Q)
    by now rewrite E.
  now rewrite E2.
Qed.

Lemma nearestEven_le (x y : Q) : (x <= y)%Q -> nearestEven x <= nearestEven y.
Proof.
  intro H. pose proof (Qfloor_resp_le _ _ H) as Hf.
  destruct (Z.eq_dec (Qfloor x) (Qfloor y)) as [E|Hne].
  - unfold nearestEven. rewrite E.
    assert (Hr : (x - inject_Z (Qfloor y) <= y - inject_Z (Qfloor y))%Q)
      by lra.
    destruct (Qcompare_spec (x - inject_Z (Qfloor y)) (1 # 2)) as [E1|L1|G1];
      destruct (Qcompare_spec (y - inject_Z (Qfloor y)) (1 # 2)) as [E2|L2|G2];
      try destruct (Z.even _); try lia; exfalso; lra.
  - pose proof (nearestEven_floor x). pose proof (nearestEven_floor y). lia.
Qed.


(** *** Quotients of integers *)

Lemma frac_le (a b c d : Z) :
  0 < b -> 0 < d ->
  ((inject_Z a / inject_Z b <= inject_Z c / inject_Z d)%Q <-> a * d <= c * b).
Proof.
  intros Hb Hd.
  destruct b as [|b|b]; try lia. destruct d as [|d|d]; try lia.
  unfold Qle, Qdiv, Qmult, Qinv, inject_Z. simpl.
  rewrite !Z.mul_1_r. reflexivity.
Qed.

Lemma frac_lt (a b c d : Z) :
  0 < b -> 0 < d ->
  ((inject_Z a / inject_Z b < inject_Z c / inject_Z d)%Q <-> a * d < c * b).
Proof.
  intros Hb Hd.
  destruct b as [|b|b]; try lia. destruct d as [|d|d]; try lia.
  unfold Qlt, Qdiv, Qmult, Qinv, inject_Z. simpl.
  rewrite !Z.mul_1_r. reflexivity.
Qed.

Lemma Q_as_frac (x : Q) : (x == inject_Z (Qnum x) / inject_Z (Zpos (Qden x)))%Q.
Proof. destruct x as [n d]. apply Qmake_Qdiv. Qed.

(** [2^(a - b)] as a quotient of integers. *)
Lemma pow2_sub (a b : Z) :
  0 <= a -> 0 <= b ->
  (pow2 (a - b) == inject_Z (2 ^ a) / inject_Z (2 ^ b))%Q.
Proof.
  intros Ha Hb. unfold Z.sub. rewrite pow2_add, pow2_opp.
  now rewrite (pow2_Z a Ha), (pow2_Z b Hb).
Qed.

(** *** The exponent *)

Lemma exponent_spec (x : Q) :
  (0 < x)%Q ->
  (pow2 (exponent x + 52) <= x < pow2 (exponent x + 53))%Q.
Proof.
  intro Hx. unfold exponent.
  set (n := Qnum x). set (d := Zpos (Qden x)).
  assert (Hn : 0 < n).
  { unfold n. destruct x as [xn xd]. unfold Qlt in Hx. simpl in *. lia. }
  assert (Hd : 0 < d) by (unfold d; lia).
  destruct (Z.log2_spec n Hn) as [Hn1 Hn2].
  destruct (Z.log2_spec d Hd) as [Hd1 Hd2].
  pose proof (Z.log2_nonneg n) as Hln. pose proof (Z.log2_nonneg d) as Hld.
  set (ln := Z.log2 n) in *. set (ld := Z.log2 d) in *.
  assert (Ex : (x == inject_Z n / inject_Z d)%Q) by apply Q_as_frac.
  assert (Hlow : (pow2 (ln - ld - 1) < x)%Q).
  { replace (ln - ld - 1) with (ln - (ld + 1)) by lia.
    rewrite pow2_sub by lia. rewrite Ex.
    apply frac_lt; [apply Z.pow_pos_nonneg; lia | exact Hd|].
    replace (ld + 1) with (Z.succ ld) by lia.
    assert (0 < 2 ^ ln) by (apply Z.pow_pos_nonneg; lia). nia. }
  assert (Hup : (x < pow2 (ln - ld + 1))%Q).
  { replace (ln - ld + 1) with (ln + 1 - ld) by lia.
    rewrite pow2_sub by lia. rewrite Ex.
    apply frac_lt; [exact Hd | apply Z.pow_pos_nonneg; lia|].
    replace (ln + 1) with (Z.succ ln) by lia.
    assert (0 < 2 ^ ld) by (apply Z.pow_pos_nonneg; lia). nia. }
  destruct (Qle_bool (pow2 (ln - ld)) x) eqn:Hb.
  - apply Qle_bool_iff in Hb.
    replace (ln - ld - 52 + 52) with (ln - ld) by lia.
    replace (ln - ld - 52 + 53) with (ln - ld + 1) by lia.
    split; assumption.
  - assert (Hlt : (x < pow2 (ln - ld))%Q).
    { apply Qnot_le_lt. intro H. apply Qle_bool_iff in H. congruence. }
    replace (ln - ld - 1 - 52 + 52) with (ln - ld - 1) by lia.
    replace (ln - ld - 1 - 52 + 53) with (ln - ld) by lia.
    split; [now apply Qlt_le_weak | assumption].
Qed.

(** The exponent is the only one between whose powers [x] lies. *)
Lemma exponent_unique (x : Q) (e : Z) :
  (pow2 (e + 52) <= x < pow2 (e + 53))%Q -> exponent x = e.
Proof.
  intros [H1 H2].
  assert (Hx : (0 < x)%Q).
  { apply Qlt_le_trans with (pow2 (e + 52)); [apply pow2_pos | exact H1]. }
  destruct (exponent_spec x Hx) as [G1 G2].
  destruct (Z.lt_trichotomy (exponent x) e) as [L|[E|L]]; [|exact E|].
  - exfalso. assert (H : (pow2 (exponent x + 53) <= pow2 (e + 52))%Q)
      by (apply pow2_le; lia). lra.
  - exfalso. assert (H : (pow2 (e + 53) <= pow2 (exponent x + 52))%Q)
      by (apply pow2_le; lia). lra.
Qed.

Lemma exponent_le (x y : Q) :
  (0 < x)%Q -> (x <= y)%Q -> exponent x <= exponent y.
Proof.
  intros Hx Hxy.
  assert (Hy : (0 < y)%Q) by lra.
  destruct (exponent_spec x Hx) as [G1 G2].
  destruct (exponent_spec y Hy) as [K1 K2].
  destruct (Z_le_gt_dec (exponent x) (exponent y)) as [|L]; [assumption|].
  exfalso. assert (H : (pow2 (exponent y + 53) <= pow2 (exponent x + 52))%Q)
    by (apply pow2_le; lia). lra.
Qed.

(** *** The nearest double *)

(** The scaled value lies between [2^52] and [2^53], and so does the
    integer nearest to it. *)
Lemma scaled_range (x : Q) :
  (0 < x)%Q ->
  (inject_Z (2 ^ 52) <= x / pow2 (exponent x) < inject_Z (2 ^ 53))%Q.
Proof.
  intro Hx. destruct (exponent_spec x Hx) as [G1 G2].
  rewrite pow2_add in G1, G2.
  rewrite (pow2_Z 52) in G1 by lia. rewrite (pow2_Z 53) in G2 by lia.
  pose proof (pow2_pos (exponent x)) as Hp.
  split.
  - apply Qle_shift_div_l; [exact Hp|]. rewrite Qmult_comm. exact G1.
  - apply Qlt_shift_div_r; [exact Hp|]. rewrite Qmult_comm. exact G2.
Qed.

Lemma nearest_mantissa (x : Q) :
  (0 < x)%Q ->
  2 ^ 52 <= nearestEven (x / pow2 (exponent x)) <= 2 ^ 53.
Proof.
  intro Hx. destruct (scaled_range x Hx) as [H1 H2]. split.
  - rewrite <- (nearestEven_Z (2 ^ 52)). now apply nearestEven_le.
  - rewrite <- (nearestEven_Z (2 ^ 53)). apply nearestEven_le.
    now apply Qlt_le_weak.
Qed.

Lemma nearestPositive_pos (x : Q) : (0 < x)%Q -> (0 < nearestPositive x)%Q.
Proof.
  intro Hx. unfold nearestPositive.
  pose proof (nearest_mantissa x Hx) as [H _].
  apply Qmult_lt_0_compat; [|apply pow2_pos].
  change 0%Q with (inject_Z 0). rewrite <- Zlt_Qlt. lia.
Qed.

Lemma nearestPositive_le (x y : Q) :
  (0 < x)%Q -> (x <= y)%Q -> (nearestPositive x <= nearestPositive y)%Q.
Proof.
  intros Hx Hxy. assert (Hy : (0 < y)%Q) by lra.
  pose proof (exponent_le x y Hx Hxy) as He.
  unfold nearestPositive.
  destruct (Z.eq_dec (exponent x) (exponent y)) as [E|Hne].
  - rewrite E. apply Qmult_le_compat_r; [|apply Qlt_le_weak, pow2_pos].
    rewrite <- Zle_Qle. apply nearestEven_le.
    apply Qmult_le_compat_r; [exact Hxy|].
    apply Qlt_le_weak, Qinv_lt_0_compat, pow2_pos.
  - pose proof (nearest_mantissa x Hx) as [_ Hmx].
    pose proof (nearest_mantissa y Hy) as [Hmy _].
    apply Qle_trans with (inject_Z (2 ^ 53) * pow2 (exponent x))%Q.
    { apply Qmult_le_compat_r; [|apply Qlt_le_weak, pow2_pos].
      now rewrite <- Zle_Qle. }
    apply Qle_trans with (inject_Z (2 ^ 52) * pow2 (exponent y))%Q.
    { rewrite <- (pow2_Z 53), <- (pow2_Z 52) by lia.
      rewrite <- !pow2_add. apply pow2_le. lia. }
    apply Qmult_le_compat_r; [|apply Qlt_le_weak, pow2_pos].
    now rewrite <- Zle_Qle.
Qed.

Lemma nearest_le (x y : Q) : (x <= y)%Q -> (nearest x <= nearest y)%Q.
Proof.
  intro H. unfold nearest.
  destruct (Qcompare_spec x 0) as [Ex|Lx|Gx];
    destruct (Qcompare_spec y 0) as [Ey|Ly|Gy]; try lra.
  - apply Qlt_le_weak. apply nearestPositive_pos. exact Gy.
  - assert (P : (0 < nearestPositive (- x))%Q)
      by (apply nearestPositive_pos; lra). lra.
  - assert (P : (nearestPositive (- y) <= nearestPositive (- x))%Q)
      by (apply nearestPositive_le; lra). lra.
  - assert (P : (0 < nearestPositive (- x))%Q)
      by (apply nearestPositive_pos; lra).
    assert (P' : (0 < nearestPositive y)%Q)
      by (apply nearestPositive_pos; lra). lra.
  - now apply nearestPositive_le.
Qed.


(** A rational [m * 2^e] with [0 < m < 2^53] is a double and is its own
    nearest double. *)
Lemma nearestPositive_exact (x : Q) (m e : Z) :
  0 < m < 2 ^ 53 ->
  (x == inject_Z m * pow2 e)%Q ->
  (nearestPositive x == x)%Q.
Proof.
  intros [Hm1 Hm2] Ex.
  assert (Hx : (0 < x)%Q).
  { rewrite Ex. apply Qmult_lt_0_compat; [|apply pow2_pos].
    change 0%Q with (inject_Z 0). now rewrite <- Zlt_Qlt. }
  destruct (exponent_spec x Hx) as [G1 _].
  assert (Hup : (x < pow2 (53 + e))%Q).
  { rewrite Ex, pow2_add, (pow2_Z 53) by lia.
    apply Qmult_lt_compat_r; [apply pow2_pos|]. now rewrite <- Zlt_Qlt. }
  assert (Hj : 0 <= e - exponent x).
  { assert (H : (pow2 (exponent x + 52) < pow2 (53 + e))%Q) by lra.
    apply Qpower_lt_compat_l_inv in H; [lia | reflexivity]. }
  unfold nearestPositive.
  remember (exponent x) as ex eqn:Hex. clear Hex G1.
  assert (Es : (x / pow2 ex == inject_Z (m * 2 ^ (e - ex)))%Q).
  { rewrite div_pow2, Ex, <- Qmult_assoc, <- pow2_add.
    replace (e + - ex) with (e - ex) by lia.
    rewrite (pow2_Z _ Hj). now rewrite inject_Z_mult. }
  rewrite (nearestEven_comp _ _ Es), nearestEven_Z.
  rewrite inject_Z_mult, <- (pow2_Z _ Hj), <- Qmult_assoc, <- pow2_add.
  replace (e - ex + ex) with e by lia.
  now rewrite Ex.
Qed.

Lemma nearest_double (m : Z) (e : nat) :
  Z.abs m < 2 ^ 53 -> (e <= 1000)%nat ->
  (nearest (inject_Z m / inject_Z (2 ^ Z.of_nat e))
   == inject_Z m / inject_Z (2 ^ Z.of_nat e))%Q.
Proof.
  intros Hm _.
  set (x := (inject_Z m / inject_Z (2 ^ Z.of_nat e))%Q).
  assert (Ex : (x == inject_Z m * pow2 (- Z.of_nat e))%Q).
  { unfold x, Qdiv. rewrite pow2_opp, (pow2_Z (Z.of_nat e)) by lia.
    reflexivity. }
  pose proof (pow2_pos (- Z.of_nat e)) as Hp.
  unfold nearest.
  destruct (Z.lt_trichotomy m 0) as [Hneg|[Hzero|Hpos]].
  - assert (Hx : (x < 0)%Q).
    { rewrite Ex. setoid_replace 0%Q with (0 * pow2 (- Z.of_nat e))%Q by ring.
      apply Qmult_lt_compat_r; [exact Hp|].
      change 0%Q with (inject_Z 0). now rewrite <- Zlt_Qlt. }
    destruct (Qcompare_spec x 0) as [E|L|G]; try lra.
    rewrite (nearestPositive_exact (- x) (- m) (- Z.of_nat e)); [ring | lia|].
    rewrite Ex, inject_Z_opp. ring.
  - subst m. assert (Hx : (x == 0)%Q) by (rewrite Ex; ring).
    destruct (Qcompare_spec x 0) as [E|L|G]; try lra.
  - assert (Hx : (0 < x)%Q).
    { rewrite Ex. apply Qmult_lt_0_compat; [|exact Hp].
      change 0%Q with (inject_Z 0). now rewrite <- Zlt_Qlt. }
    destruct (Qcompare_spec x 0) as [E|L|G]; try lra.
    apply (nearestPositive_exact x m (- Z.of_nat e)); [lia | exact Ex].
Qed.

End DoubleFacts.

(** The arithmetic of binary64 is an instance of [Rounding]. *)
Definition double_rounding : Rounding :=
  {| rnd := Double.nearest;
     rnd_le := nearest_le;
     rnd_double := nearest_double |}.

(** The standard library's specification of IEEE 754 returns the same
    doubles for the quotient [29 / 50] and for its product by 50, which
    falls short of 29. *)
Example nearest_agrees_with_SpecFloat :
  let q := SFdiv 53 1024 (S754_finite false 29 0) (S754_finite false 50 0) in
  let p := SFmul 53 1024 q (S754_finite false 50 0) in
  (Double.valueOf q == Double.nearest (29 # 50))%Q
  /\ (Double.valueOf p == Double.nearest (Double.nearest (29 # 50) * 50))%Q
  /\ (Double.valueOf p < 29)%Q.
Proof. vm_compute. repeat split. Qed.

Section ScoreFacts.
Import Score.
Context (R : Rounding).

Lemma timeBonus_floor (r t : Z) :
  0 <= r -> 0 < t ->
  timeBonusOf r t = Qfloor (rnd (rnd (inject_Z r / inject_Z t) * 50)).
Proof.
  intros Hr Ht. unfold timeBonusOf.
  apply Z.max_r. apply Qfloor_nonneg. apply rnd_nonneg.
  apply Qmult_le_0_compat; [|discriminate].
  apply rnd_nonneg. now apply ratio_nonneg.
Qed.

Lemma timeBonus_lower (r t : Z) : 0 <= timeBonusOf r t.
Proof. unfold timeBonusOf. apply Z.le_max_l. Qed.

Lemma timeBonus_upper (r t : Z) :
  0 <= r <= t -> 0 < t -> timeBonusOf r t <= 50.
Proof.
  intros [Hr Hrt] Ht. rewrite timeBonus_floor by assumption.
  change 50 with (Qfloor (inject_Z 50)). apply Qfloor_resp_le.
  apply rnd_le_Z; [simpl; lia|].
  change (inject_Z 50) with (1 * 50)%Q.
  apply Qmult_le_compat_r; [|discriminate].
  apply (rnd_le_Z R _ 1); [simpl; lia | now apply ratio_le_1].
Qed.

Lemma timeBonus_matches_spec (limit elapsed : Z) :
  0 < limit -> 0 <= elapsed <= limit ->
  timeBonusOf (limit - elapsed) limit = spec_timeBonus limit elapsed.
Proof.
  intros Ht He. rewrite timeBonus_floor by lia.
  unfold spec_timeBonus. apply Qfloor_comp. apply rnd_comp.
  rewrite Q.max_r; [reflexivity|].
  apply rnd_nonneg. apply ratio_nonneg; lia.
Qed.

(** With no time left the bonus is 0, and three quarters of the time left
    give 37: the quotients 0 and 0.75 and the product 37.5 are doubles. *)
Lemma timeBonus_none_left (t : Z) : timeBonusOf 0 t = 0.
Proof.
  unfold timeBonusOf.
  assert (E1 : (rnd (inject_Z 0 / inject_Z t) == 0)%Q).
  { rewrite (rnd_exact_at R _ 0 0); [reflexivity | simpl; lia | lia | reflexivity]. }
  assert (E2 : (rnd (rnd (inject_Z 0 / inject_Z t) * 50) == 0)%Q).
  { rewrite (rnd_exact_at R _ 0 0); [now rewrite E1 | simpl; lia | lia |].
    now rewrite E1. }
  now rewrite (Qfloor_comp _ _ E2).
Qed.

Lemma timeBonus_three_quarters : timeBonusOf 45 60 = 37.
Proof.
  rewrite timeBonus_floor by lia.
  assert (E1 : (rnd (inject_Z 45 / inject_Z 60) == 3 # 4)%Q).
  { rewrite (rnd_exact_at R _ 3 2); [reflexivity | simpl; lia | lia | reflexivity]. }
  assert (E2 : (rnd (rnd (inject_Z 45 / inject_Z 60) * 50) == 75 # 2)%Q).
  { rewrite (rnd_exact_at R _ 75 1); [now rewrite E1 | simpl; lia | lia |].
    now rewrite E1. }
  now rewrite (Qfloor_comp _ _ E2).
Qed.

Lemma multiplier_matches_spec (d : string) (m : Q) :
  spec_multiplier d = Some m -> multiplierOf d = m.
Proof.
  unfold spec_multiplier, multiplierOf.
  destruct (String.eqb d "easy"); [congruence|].
  destruct (String.eqb d "medium"); [congruence|].
  destruct (String.eqb d "hard"); congruence.
Qed.

Lemma strict_eq_answer_refl (a : string) : strict_eq_answer (Some a) a = true.
Proof. simpl. apply String.eqb_refl. Qed.

Lemma strict_eq_answer_false (sel : option string) (c : string) :
  sel <> Some c -> strict_eq_answer sel c = false.
Proof.
  destruct sel as [a|]; simpl; [|reflexivity].
  intro H. apply String.eqb_neq. congruence.
Qed.

Lemma total_correct (q : Question) (r h : Z) :
  totalScore (scoreOf q (Some (correctAnswer q)) r h)
  = Qfloor (inject_Z (points q) * multiplierOf (difficulty q))
    + timeBonusOf r (timeLimit q) - 10 * h.
Proof.
  unfold scoreOf. cbn [totalScore]. rewrite strict_eq_answer_refl.
  rewrite Qfloor_sub_Z, Qfloor_add_Z. lia.
Qed.

(** The total of [cheap_game] does not depend on the rounding. *)
Lemma cheap_total :
  totalScore (scoreOf cheap_question (Some "A"%string) 0 3) = -20.
Proof.
  change (Some "A"%string) with (Some (correctAnswer cheap_question)).
  rewrite total_correct. cbn [timeLimit cheap_question].
  rewrite timeBonus_none_left. reflexivity.
Qed.

End ScoreFacts.

(** ** The time bonus and the exact quotient *)

Section NearFacts.
Import Score.
Context (R : Rounding).

(** A monotone rounding that keeps the doubles stays between the two
    multiples of [2^-e] around its argument, as long as these are
    doubles. *)
Lemma rnd_near (x : Q) (e : nat) :
  (e <= 1000)%nat ->
  (0 <= x)%Q ->
  Qfloor (x * inject_Z (2 ^ Z.of_nat e)) + 1 < 2 ^ 53 ->
  (x - / inject_Z (2 ^ Z.of_nat e) < rnd x
   /\ rnd x <= x + / inject_Z (2 ^ Z.of_nat e))%Q.
Proof.
  intros He Hx Hm.
  set (P := inject_Z (2 ^ Z.of_nat e)) in *.
  assert (HP : (0 < P)%Q).
  { unfold P. change 0%Q with (inject_Z 0). rewrite <- Zlt_Qlt.
    apply Z.pow_pos_nonneg; lia. }
  set (m := Qfloor (x * P)) in *.
  pose proof (Qfloor_le (x * P)) as H1. pose proof (Qlt_floor (x * P)) as H2.
  fold m in H1, H2.
  assert (Hm0 : 0 <= m).
  { unfold m. apply Qfloor_nonneg. apply Qmult_le_0_compat; lra. }
  assert (Hinv : (0 < / P)%Q) by now apply Qinv_lt_0_compat.
  assert (E1 : (inject_Z m / P == inject_Z m * / P)%Q) by reflexivity.
  assert (E2 : (inject_Z (m + 1) / P == inject_Z m * / P + / P)%Q).
  { rewrite inject_Z_plus. unfold Qdiv. ring. }
  assert (Ex : (x == x * P * / P)%Q).
  { rewrite <- Qmult_assoc, Qmult_inv_r; [ring | lra]. }
  assert (D1 : (inject_Z m * / P <= x)%Q).
  { rewrite Ex. apply Qmult_le_compat_r; lra. }
  assert (D2 : (x < inject_Z m * / P + / P)%Q).
  { rewrite <- E2, Ex at 1. unfold Qdiv.
    apply Qmult_lt_compat_r; [exact Hinv | exact H2]. }
  assert (G1 : (rnd (inject_Z m / P) == inject_Z m / P)%Q)
    by (apply rnd_double; [lia | exact He]).
  assert (G2 : (rnd (inject_Z (m + 1) / P) == inject_Z (m + 1) / P)%Q)
    by (apply rnd_double; [lia | exact He]).
  assert (R1 : (rnd (inject_Z m / P) <= rnd x)%Q)
    by (apply rnd_le; rewrite E1; exact D1).
  assert (R2 : (rnd x <= rnd (inject_Z (m + 1) / P))%Q)
    by (apply rnd_le; rewrite E2; lra).
  rewrite G1, E1 in R1. rewrite G2, E2 in R2.
  split; lra.
Qed.

(** The quotient and its product by 50 are within [2^-52] and [2^-46] of
    their exact values. *)
Lemma rnd_near_unit (x : Q) :
  (0 <= x <= 1)%Q ->
  (x - (1 # 4503599627370496) < rnd x
   /\ rnd x <= x + (1 # 4503599627370496))%Q.
Proof.
  intros [H0 H1].
  destruct (rnd_near x 52 ltac:(lia) H0) as [L U].
  - assert (H : Qfloor (x * inject_Z (2 ^ Z.of_nat 52))
                <= Qfloor (inject_Z (2 ^ 52))).
    { apply Qfloor_resp_le.
      setoid_replace (inject_Z (2 ^ 52)) with (1 * inject_Z (2 ^ 52))%Q by ring.
      apply Qmult_le_compat_r; [exact H1 | discriminate]. }
    rewrite Qfloor_Z in H. simpl in *. lia.
  - change (/ inject_Z (2 ^ Z.of_nat 52))%Q with (1 # 4503599627370496)%Q in *.
    split; assumption.
Qed.

Lemma rnd_near_fifty (y : Q) :
  (0 <= y <= 50)%Q ->
  (y - (1 # 70368744177664) < rnd y
   /\ rnd y <= y + (1 # 70368744177664))%Q.
Proof.
  intros [H0 H1].
  destruct (rnd_near y 46 ltac:(lia) H0) as [L U].
  - assert (H : Qfloor (y * inject_Z (2 ^ Z.of_nat 46))
                <= Qfloor (inject_Z (50 * 2 ^ 46))).
    { apply Qfloor_resp_le. rewrite inject_Z_mult.
      apply Qmult_le_compat_r; [exact H1 | discriminate]. }
    rewrite Qfloor_Z in H. simpl in *. lia.
  - change (/ inject_Z (2 ^ Z.of_nat 46))%Q with (1 # 70368744177664)%Q in *.
    split; assumption.
Qed.

(** The time bonus is the whole part of [50 * remaining / limit], or one
    less; it can be one less only when the limit divides
    [50 * remaining], where the rounded product may fall just short of
    the whole number. *)
Lemma real_timeBonus_div (limit elapsed : Z) :
  0 < limit -> 0 <= elapsed <= limit ->
  real_timeBonus limit elapsed = (50 * (limit - elapsed)) / limit.
Proof.
  intros Ht He. unfold real_timeBonus.
  rewrite Q.max_r by (apply ratio_nonneg; lia).
  rewrite Zdiv_Qdiv. apply Qfloor_comp.
  rewrite inject_Z_mult. unfold Qdiv. ring.
Qed.

Lemma timeBonus_near (r t : Z) :
  0 <= r <= t -> 0 < t <= 2 ^ 45 ->
  (50 * r) / t - 1 <= timeBonusOf r t <= (50 * r) / t
  /\ ((50 * r) mod t <> 0 -> timeBonusOf r t = (50 * r) / t).
Proof.
  intros Hr Ht. rewrite timeBonus_floor by lia.
  set (x := (inject_Z r / inject_Z t)%Q).
  assert (Hx : (0 <= x <= 1)%Q).
  { split; [apply ratio_nonneg | apply ratio_le_1]; lia. }
  destruct (rnd_near_unit x Hx) as [A1 A2].
  assert (Ha : (0 <= rnd x <= 1)%Q).
  { split; [apply rnd_nonneg; apply Hx|].
    change 1%Q with (inject_Z 1). apply rnd_le_Z; [simpl; lia | apply Hx]. }
  assert (Hy : (0 <= rnd x * 50 <= 50)%Q) by (destruct Ha; split; lra).
  destruct (rnd_near_fifty (rnd x * 50)%Q Hy) as [B1 B2].
  set (b := rnd (rnd x * 50)) in *.
  set (k := (50 * r) / t). set (s := (50 * r) mod t).
  assert (Hdiv : 50 * r = t * k + s) by (apply Z.div_mod; lia).
  assert (Hs : 0 <= s < t) by (apply Z.mod_pos_bound; lia).
  assert (F : (50 * x == inject_Z k + inject_Z s / inject_Z t)%Q).
  { unfold x. unfold Qdiv.
    setoid_replace (50 * (inject_Z r * / inject_Z t))%Q
      with (inject_Z (50 * r) * / inject_Z t)%Q
      by (rewrite inject_Z_mult; ring).
    rewrite Hdiv, inject_Z_plus, inject_Z_mult.
    field. change 0%Q with (inject_Z 0). rewrite inject_Z_injective. lia. }
  set (S := (inject_Z s / inject_Z t)%Q) in *.
  assert (S0 : (0 <= S)%Q) by (apply ratio_nonneg; lia).
  assert (S1 : (S <= 1 - (1 # 35184372088832))%Q).
  { setoid_replace (1 - (1 # 35184372088832))%Q
      with (inject_Z (2 ^ 45 - 1) / inject_Z (2 ^ 45))%Q by reflexivity.
    apply frac_le; [lia | reflexivity|].
    assert (s <= t - 1) by lia. nia. }
  assert (Hupper : (b < inject_Z (k + 1))%Q).
  { rewrite inject_Z_plus. change (inject_Z 1) with 1%Q. lra. }
  assert (Hlower : (inject_Z (k - 1) <= b)%Q).
  { unfold Z.sub. rewrite inject_Z_plus. change (inject_Z (- (1))) with (-1)%Q.
    lra. }
  assert (Hle : Qfloor b <= k).
  { destruct (Z_le_gt_dec (Qfloor b) k) as [|Hgt]; [assumption|exfalso].
    pose proof (Qfloor_le b) as Hf.
    assert (H : (inject_Z (k + 1) <= inject_Z (Qfloor b))%Q)
      by (rewrite <- Zle_Qle; lia).
    lra. }
  assert (Hge : k - 1 <= Qfloor b).
  { rewrite <- (Qfloor_Z (k - 1)). now apply Qfloor_resp_le. }
  split; [split; assumption|].
  intro Hs0. fold s in Hs0.
  assert (S2 : ((1 # 35184372088832) <= S)%Q).
  { setoid_replace (1 # 35184372088832)%Q
      with (inject_Z 1 / inject_Z (2 ^ 45))%Q by reflexivity.
    apply frac_le; [reflexivity | lia|]. nia. }
  assert (Hk : k <= Qfloor b).
  { rewrite <- (Qfloor_Z k). apply Qfloor_resp_le. lra. }
  lia.
Qed.

End NearFacts.

(** ** calculateScore: the claims *)

Section ScoreClaims.
Import Score.

(** C1 as stated fails: the quotient and its product by 50 are rounded
    to doubles.  With a limit of 50 seconds and 21 elapsed, [29 / 50]
    rounds to a double below 0.58 and its product by 50 to the double
    below 29, so the bonus is 28 and the total 178, where the formula
    gives 29 and 179. *)
Lemma calculateScore_timeBonus_falls_short :
  exists r,
    calculateScore (R := double_rounding) tight_game = Return r
    /\ 0 <= timeLimit tight_question - timeRemaining tight_game
         <= timeLimit tight_question
    /\ isCorrect r = true
    /\ timeBonus r = 28
    /\ real_timeBonus (timeLimit tight_question)
         (timeLimit tight_question - timeRemaining tight_game) = 29
    /\ totalScore r = 178
    /\ spec_total (points tight_question) (3 # 2)
         (real_timeBonus (timeLimit tight_question)
            (timeLimit tight_question - timeRemaining tight_game))
         (hintsUsed tight_game) = 179.
Proof.
  eexists. split; [reflexivity|]. vm_compute.
  repeat split; discriminate.
Qed.

(** C1, amended. For a correct submission with [0 <= elapsed <= timeLimit]
    and [0 < timeLimit] the result has the time bonus
    [floor(max(0, (timeLimit - elapsed)/timeLimit) * 50)] with the
    quotient and the product rounded to doubles.  For a limit up to
    [2^45] this is the value of the formula in exact arithmetic or one
    less, and it is that value whenever the limit does not divide
    [50 * (timeLimit - elapsed)].  The total is
    [floor(basePoints * multiplier + timeBonus) - 10 * hintsUsed], the
    multiplier being 1 for easy, 1.5 for medium and 2 for hard; and for
    100 points, medium, a limit of 60, 15 seconds elapsed and one hint the
    bonus is 37 and the total 177. *)
Theorem calculateScore_correct_formula (R : Rounding) :
  (forall (g : GameManager) (q : Question) (elapsed : Z) (m : Q),
      currentQuestion g = Some q ->
      0 < timeLimit q ->
      0 <= elapsed <= timeLimit q ->
      timeRemaining g = timeLimit q - elapsed ->
      selectedAnswer g = Some (correctAnswer q) ->
      spec_multiplier (difficulty q) = Some m ->
      exists r,
        calculateScore g = Return r
        /\ isCorrect r = true
        /\ difficultyMultiplier r = m
        /\ timeBonus r = spec_timeBonus (timeLimit q) elapsed
        /\ totalScore r = spec_total (points q) m (timeBonus r) (hintsUsed g)
        /\ (timeLimit q <= 2 ^ 45 ->
            real_timeBonus (timeLimit q) elapsed - 1 <= timeBonus r
            <= real_timeBonus (timeLimit q) elapsed
            /\ ((50 * (timeLimit q - elapsed)) mod timeLimit q <> 0 ->
                timeBonus r = real_timeBonus (timeLimit q) elapsed)))
  /\ (spec_multiplier "easy" = Some 1%Q
      /\ spec_multiplier "medium" = Some (3 # 2)%Q
      /\ spec_multiplier "hard" = Some 2%Q)
  /\ (exists r,
        calculateScore (example_game "B" (60 - 15) 1) = Return r
        /\ timeBonus r = 37
        /\ totalScore r = 177).
Proof.
  split; [|split].
  - intros g q elapsed m Hq Ht He Hrem Hsel Hm.
    unfold calculateScore. rewrite Hq, Hsel, Hrem.
    eexists; split; [reflexivity|].
    apply multiplier_matches_spec in Hm.
    split; [cbn [scoreOf isCorrect]; apply strict_eq_answer_refl|].
    split; [exact Hm|].
    split; [cbn [scoreOf timeBonus]; now apply timeBonus_matches_spec|].
    split.
    + rewrite total_correct. unfold spec_total. cbn [scoreOf timeBonus].
      rewrite Qfloor_add_Z, Hm. lia.
    + intro Hup. cbn [scoreOf timeBonus].
      rewrite (real_timeBonus_div (timeLimit q) elapsed Ht He).
      apply (timeBonus_near R (timeLimit q - elapsed) (timeLimit q)); lia.
  - repeat split.
  - eexists; split; [reflexivity|].
    change (60 - 15) with 45.
    change (Some "B"%string) with (Some (correctAnswer example_question)).
    split.
    + cbn [scoreOf timeBonus]. apply timeBonus_three_quarters.
    + rewrite total_correct. cbn [timeLimit example_question].
      rewrite timeBonus_three_quarters. reflexivity.
Qed.

Lemma calculateScore_correct_formula_witness :
  exists r,
    calculateScore (R := double_rounding) (example_game "B" 45 1) = Return r
    /\ isCorrect r = true
    /\ difficultyMultiplier r = (3 # 2)%Q
    /\ timeBonus r = spec_timeBonus (R := double_rounding) 60 15
    /\ totalScore r = spec_total 100 (3 # 2) (timeBonus r) 1
    /\ (60 <= 2 ^ 45 ->
        real_timeBonus 60 15 - 1 <= timeBonus r <= real_timeBonus 60 15
        /\ ((50 * (60 - 15)) mod 60 <> 0 ->
            timeBonus r = real_timeBonus 60 15)).
Proof.
  apply (proj1 (calculateScore_correct_formula double_rounding)
               (example_game "B" 45 1) example_question 15 (3 # 2)%Q).
  - reflexivity.
  - reflexivity.
  - simpl. lia.
  - reflexivity.
  - reflexivity.
  - reflexivity.
Defined.

(** C2 as stated fails: the total is not clamped.  A ten-point easy
    question answered correctly when the time is up, with three hints
    used, scores 10 + 0 - 30. *)
Lemma calculateScore_total_can_be_negative :
  exists r,
    calculateScore (R := exact_rounding) cheap_game = Return r
    /\ 0 <= timeLimit cheap_question - timeRemaining cheap_game
         <= timeLimit cheap_question
    /\ isCorrect r = true
    /\ totalScore r = -20
    /\ ~ 0 <= totalScore r.
Proof.
  eexists. split; [reflexivity|].
  split; [simpl; lia|]. split; [reflexivity|]. split; [reflexivity|].
  vm_compute. intro H. apply H. reflexivity.
Qed.

(** C2, amended. With [0 <= elapsed <= timeLimit], non-negative points and
    hints, the total never exceeds [floor(basePoints * multiplier) + 50]; a
    correct answer scores [floor(basePoints * multiplier + timeBonus) - hintPenalty]
    with no clamp, which is non-negative exactly when the penalty does not
    exceed [floor(basePoints * multiplier + timeBonus)]; an incorrect answer
    scores 0. *)
Theorem calculateScore_total_bounds (R : Rounding) :
  forall (g : GameManager) (q : Question),
    currentQuestion g = Some q ->
    0 < timeLimit q ->
    0 <= timeLimit q - timeRemaining g <= timeLimit q ->
    0 <= points q ->
    0 <= hintsUsed g ->
    exists r,
      calculateScore g = Return r
      /\ totalScore r
         <= Qfloor (inject_Z (points q) * multiplierOf (difficulty q)) + 50
      /\ (isCorrect r = true ->
          totalScore r
          = Qfloor (inject_Z (points q) * multiplierOf (difficulty q)
                    + inject_Z (timeBonus r)) - hintPenalty r)
      /\ (isCorrect r = true ->
          (0 <= totalScore r
           <-> hintPenalty r
               <= Qfloor (inject_Z (points q) * multiplierOf (difficulty q)
                          + inject_Z (timeBonus r))))
      /\ (isCorrect r = false -> totalScore r = 0).
Proof.
  intros g q Hq Ht He Hp Hh.
  unfold calculateScore. rewrite Hq.
  eexists; split; [reflexivity|].
  assert (Hb : 0 <= timeBonusOf (timeRemaining g) (timeLimit q) <= 50).
  { split; [apply timeBonus_lower | apply timeBonus_upper; lia]. }
  assert (Hm : 0 <= Qfloor (inject_Z (points q) * multiplierOf (difficulty q))).
  { apply Qfloor_nonneg. apply Qmult_le_0_compat.
    - change 0%Q with (inject_Z 0). now rewrite <- Zle_Qle.
    - unfold multiplierOf.
      destruct (String.eqb _ "easy"); [discriminate|].
      destruct (String.eqb _ "medium"); [discriminate|].
      destruct (String.eqb _ "hard"); discriminate. }
  unfold scoreOf. cbn [totalScore isCorrect hintPenalty timeBonus].
  destruct (strict_eq_answer (selectedAnswer g) (correctAnswer q)).
  - rewrite Qfloor_sub_Z, !Qfloor_add_Z.
    repeat split; try lia; discriminate.
  - repeat split; try lia; discriminate.
Qed.

Lemma calculateScore_total_bounds_witness :
  exists r,
    calculateScore (R := exact_rounding) cheap_game = Return r
    /\ totalScore r <= 10 + 50
    /\ (isCorrect r = true ->
        totalScore r
        = Qfloor (inject_Z 10 * 1 + inject_Z (timeBonus r)) - hintPenalty r)
    /\ (isCorrect r = true ->
        (0 <= totalScore r
         <-> hintPenalty r <= Qfloor (inject_Z 10 * 1 + inject_Z (timeBonus r))))
    /\ (isCorrect r = false -> totalScore r = 0).
Proof.
  apply (calculateScore_total_bounds exact_rounding cheap_game cheap_question).
  - reflexivity.
  - reflexivity.
  - simpl. lia.
  - simpl. lia.
  - simpl. lia.
Defined.

(** C3. A submission whose selected option differs from the correct option
    scores exactly 0, whatever the hints used and the time left. *)
Theorem calculateScore_incorrect_zero (R : Rounding) :
  forall (g : GameManager) (q : Question),
    currentQuestion g = Some q ->
    selectedAnswer g <> Some (correctAnswer q) ->
    exists r,
      calculateScore g = Return r
      /\ isCorrect r = false
      /\ totalScore r = 0.
Proof.
  intros g q Hq Hsel.
  unfold calculateScore. rewrite Hq.
  eexists; split; [reflexivity|].
  unfold scoreOf. cbn [isCorrect totalScore].
  rewrite (strict_eq_answer_false _ _ Hsel). split; reflexivity.
Qed.

Lemma calculateScore_incorrect_zero_witness :
  exists r,
    calculateScore (R := exact_rounding) (example_game "A" 45 3) = Return r
    /\ isCorrect r = false
    /\ totalScore r = 0.
Proof.
  apply (calculateScore_incorrect_zero exact_rounding
           (example_game "A" 45 3) example_question).
  - reflexivity.
  - simpl. discriminate.
Defined.

End ScoreClaims.

(** ** LevelSystem: level, experience and streak *)

Section LevelFacts.
Import Level.
Context (R : Rounding).

Lemma calculateLevel_from_range (i : nat) (e : Z) :
  1 <= calculateLevel_from i e <= Z.max 1 (Z.of_nat i).
Proof.
  induction i as [|j IH]; cbn [calculateLevel_from].
  - lia.
  - destruct (nth j levelThresholds 0 <=? e); lia.
Qed.

Lemma calculateLevel_range (e : Z) : 1 <= calculateLevel e <= 20.
Proof.
  unfold calculateLevel.
  pose proof (calculateLevel_from_range (List.length levelThresholds) e) as H.
  simpl List.length in *. lia.
Qed.

(** When some visited threshold is reached, the loop stops at the highest
    such index. *)
Lemma calculateLevel_from_hit (i : nat) (e : Z) :
  (exists k, (k < i)%nat /\ nth k levelThresholds 0 <= e) ->
  let k0 := Z.to_nat (calculateLevel_from i e - 1) in
  (k0 < i)%nat
  /\ nth k0 levelThresholds 0 <= e
  /\ forall k, (k0 < k < i)%nat -> e < nth k levelThresholds 0.
Proof.
  induction i as [|j IH]; intros [k [Hk Hle]]; [lia|].
  cbn [calculateLevel_from].
  destruct (Z.leb_spec (nth j levelThresholds 0) e) as [Hj|Hj].
  - replace (Z.to_nat (Z.of_nat j + 1 - 1)) with j by lia.
    repeat split; [lia | exact Hj | intros; lia].
  - assert (Hkj : (k < j)%nat).
    { destruct (Nat.eq_dec k j) as [->|]; lia. }
    destruct (IH (ex_intro _ k (conj Hkj Hle))) as [H1 [H2 H3]].
    repeat split; [lia | exact H2 |].
    intros k' Hk'. destruct (Nat.eq_dec k' j) as [->|]; [exact Hj|].
    apply H3. lia.
Qed.

Lemma calculateLevel_greatest (e : Z) :
  0 <= e -> greatest_level e (calculateLevel e).
Proof.
  intro He. pose proof (calculateLevel_range e) as Hr.
  destruct (calculateLevel_from_hit (List.length levelThresholds) e)
    as [H1 [H2 H3]].
  { exists 0%nat. split; [simpl; lia | exact He]. }
  fold (calculateLevel e) in H1, H2, H3.
  split; [exact Hr|]. split; [exact H2|].
  intros j Hj. apply H3. simpl List.length. lia.
Qed.

Lemma levelThresholds_nonneg (j : nat) : 0 <= nth j levelThresholds 0.
Proof.
  assert (H : Forall (fun t => 0 <= t) levelThresholds)
    by (repeat constructor; lia).
  destruct (Nat.lt_ge_cases j (List.length levelThresholds)) as [Hlt|Hge].
  - rewrite Forall_forall in H. apply H. now apply nth_In.
  - rewrite nth_overflow by exact Hge. lia.
Qed.

(** Below the first threshold the loop falls through to its last line. *)
Lemma calculateLevel_negative (e : Z) : e < 0 -> calculateLevel e = 1.
Proof.
  intro He. unfold calculateLevel.
  induction (List.length levelThresholds) as [|j IH];
    cbn [calculateLevel_from]; [reflexivity|].
  pose proof (levelThresholds_nonneg j) as Hj.
  destruct (Z.leb_spec (nth j levelThresholds 0) e); [lia | exact IH].
Qed.

Lemma greatest_level_unique (e l1 l2 : Z) :
  greatest_level e l1 -> greatest_level e l2 -> l1 = l2.
Proof.
  intros [R1 [A1 B1]] [R2 [A2 B2]].
  destruct (Z.lt_trichotomy l1 l2) as [H|[H|H]]; [|exact H|].
  - specialize (B1 l2). lia.
  - specialize (B2 l1). lia.
Qed.

Lemma calculateLevel_mono (e e' : Z) :
  0 <= e <= e' -> calculateLevel e <= calculateLevel e'.
Proof.
  intros [He Hee'].
  destruct (calculateLevel_greatest e He) as [Rg [A _]].
  destruct (calculateLevel_greatest e' ltac:(lia)) as [Rg' [_ B']].
  destruct (Z_le_gt_dec (calculateLevel e) (calculateLevel e')) as [|Hgt];
    [assumption|].
  specialize (B' (calculateLevel e)). lia.
Qed.

Lemma checkAchievements_state (gm : GameManager) (ls : LevelSystem)
  (qr : option ScoreResult) :
  fst (checkAchievements gm ls qr)
  = setAchievements ls
      (fst (checkLoop achievementDefinitions (getPlayerStats gm ls) qr
                      (achievements ls) [])).
Proof.
  unfold checkAchievements.
  destruct (checkLoop _ _ _ _ _) as [achs news]. reflexivity.
Qed.

Lemma addScore_state (gm : GameManager) (ls : LevelSystem) (score : Z)
  (qr : option ScoreResult) :
  fst (addScore gm ls score qr)
  = fst (checkAchievements gm (scored ls score qr) qr).
Proof. reflexivity. Qed.

Lemma addScore_exp gm ls score qr :
  currentExp (fst (addScore gm ls score qr)) = currentExp ls + score.
Proof. rewrite addScore_state, checkAchievements_state. reflexivity. Qed.

Lemma addScore_total gm ls score qr :
  ls_totalScore (fst (addScore gm ls score qr)) = ls_totalScore ls + score.
Proof. rewrite addScore_state, checkAchievements_state. reflexivity. Qed.

Lemma addScore_level gm ls score qr :
  currentLevel (fst (addScore gm ls score qr))
  = Z.max (currentLevel ls) (calculateLevel (currentExp ls + score)).
Proof.
  rewrite addScore_state, checkAchievements_state.
  cbn [setAchievements scored currentLevel].
  destruct (Z.ltb_spec (currentLevel ls) (calculateLevel (currentExp ls + score)));
    lia.
Qed.

Lemma addScore_streak gm ls score qr :
  streakCount (fst (addScore gm ls score qr))
  = if resultIsCorrect qr then streakCount ls + 1 else 0.
Proof. rewrite addScore_state, checkAchievements_state. reflexivity. Qed.

Lemma addScore_maxStreak gm ls score qr :
  maxStreak (fst (addScore gm ls score qr))
  = if resultIsCorrect qr
    then Z.max (maxStreak ls) (streakCount ls + 1)
    else maxStreak ls.
Proof.
  rewrite addScore_state, checkAchievements_state.
  cbn [setAchievements scored maxStreak].
  destruct (resultIsCorrect qr); reflexivity.
Qed.

Lemma run_level_le (calls : list Call) :
  forall ls, currentLevel ls <= currentLevel (run ls calls).
Proof.
  induction calls as [|c rest IH]; intro ls; cbn [run]; [lia|].
  etransitivity; [|apply IH]. rewrite addScore_level. lia.
Qed.

Lemma run_level_max (calls : list Call) :
  forall ls, currentLevel ls <= 20 -> currentLevel (run ls calls) <= 20.
Proof.
  induction calls as [|c rest IH]; intros ls H; cbn [run]; [exact H|].
  apply IH. rewrite addScore_level.
  pose proof (calculateLevel_range (currentExp ls + call_score c)). lia.
Qed.

Lemma run_maxStreak_le (calls : list Call) :
  forall ls, maxStreak ls <= maxStreak (run ls calls).
Proof.
  induction calls as [|c rest IH]; intro ls; cbn [run]; [lia|].
  etransitivity; [|apply IH]. rewrite addScore_maxStreak.
  destruct (resultIsCorrect (call_result c)); lia.
Qed.

Lemma addScore_level_in_step gm ls score qr :
  level_in_step ls -> 0 <= score ->
  level_in_step (fst (addScore gm ls score qr)).
Proof.
  intros [He Hl] Hs. unfold level_in_step.
  rewrite addScore_exp, addScore_level, Hl.
  split; [lia|].
  pose proof (calculateLevel_mono (currentExp ls) (currentExp ls + score)).
  lia.
Qed.

Lemma run_level_in_step (calls : list Call) :
  forall ls,
    level_in_step ls ->
    Forall (fun c => 0 <= call_score c) calls ->
    level_in_step (run ls calls).
Proof.
  induction calls as [|c rest IH]; intros ls Hls Hall; cbn [run]; [exact Hls|].
  inversion Hall; subst.
  apply IH; [|assumption]. now apply addScore_level_in_step.
Qed.

(** A player at 95 experience who earns 10 points reaches level 2. *)
Example level_up_at_100 :
  let out := addScore idle_game (run fresh [plainCall 95]) 10 None in
  currentExp (fst out) = 105
  /\ currentLevel (fst out) = 2
  /\ leveledUp (snd out) = true
  /\ newLevel (snd out) = 2.
Proof. repeat split. Qed.

(** Beyond the last threshold the level stays 20. *)
Example level_is_capped : calculateLevel 1000000 = 20.
Proof. reflexivity. Qed.

End LevelFacts.

(** ** LevelSystem: the claims on level, streak and score *)

Section LevelClaims.
Import Level.

(** C4 as stated fails: the level is only ever raised, so after a call
    that lowers the experience it is no longer the greatest index whose
    threshold the experience reaches.  From a new player, 100 points and
    then -20 points (the total of [cheap_game]) leave level 2 with
    experience 80. *)
Lemma addScore_level_not_recomputed :
  let ls := run (R := exact_rounding) fresh [plainCall 100; plainCall (-20)] in
  currentExp ls = 80
  /\ currentLevel ls = 2
  /\ calculateLevel (currentExp ls) = 1
  /\ ~ greatest_level (currentExp ls) (currentLevel ls).
Proof.
  cbv zeta. repeat split.
  intros [_ [H _]]. vm_compute in H. apply H. reflexivity.
Qed.

(** C4, amended. The recomputed level is the greatest 1-based index [i]
    with [experience >= thresholds[i-1]], and 1 for a negative experience.
    After every [addScore] call the level is the maximum of the level
    before and the recomputed level, and [leveledUp] is true iff the
    recomputed level is strictly greater than the level before; over any
    sequence of calls the level never decreases and never exceeds 20 when
    it started at most 20; and while the scores are non-negative and the
    level agreed with the experience at the start (as it does for a new
    player), the level is that greatest index. *)
Theorem addScore_level_rules (R : Rounding) :
  (forall e,
      (0 <= e -> greatest_level e (calculateLevel e))
      /\ (e < 0 -> calculateLevel e = 1))
  /\ (forall gm ls score qr,
      let out := addScore gm ls score qr in
      currentExp (fst out) = currentExp ls + score
      /\ currentLevel (fst out)
         = Z.max (currentLevel ls) (calculateLevel (currentExp (fst out)))
      /\ (leveledUp (snd out) = true
          <-> currentLevel ls < calculateLevel (currentExp (fst out)))
      /\ newLevel (snd out) = currentLevel (fst out))
  /\ (forall ls calls, currentLevel ls <= currentLevel (run ls calls))
  /\ (forall ls calls,
         currentLevel ls <= 20 -> currentLevel (run ls calls) <= 20)
  /\ level_in_step fresh
  /\ (forall ls calls,
         level_in_step ls ->
         Forall (fun c => 0 <= call_score c) calls ->
         greatest_level (currentExp (run ls calls)) (currentLevel (run ls calls))).
Proof.
  split; [|split; [|split; [|split; [|split]]]].
  - intro e. split; [apply calculateLevel_greatest | apply calculateLevel_negative].
  - intros gm ls score qr out. subst out.
    rewrite addScore_exp, addScore_level.
    split; [reflexivity|]. split; [reflexivity|].
    split; [cbn [addScore snd leveledUp]; apply Z.ltb_lt |].
    change (newLevel (snd (addScore gm ls score qr)))
      with (currentLevel (fst (addScore gm ls score qr))).
    apply addScore_level.
  - intros ls calls. apply run_level_le.
  - intros ls calls. apply run_level_max.
  - split; [simpl; lia | reflexivity].
  - intros ls calls Hls Hall.
    destruct (run_level_in_step R calls ls Hls Hall) as [He Hl].
    rewrite Hl. now apply calculateLevel_greatest.
Qed.

Lemma addScore_level_rules_witness :
  let ls := run (R := exact_rounding) fresh [plainCall 95; plainCall 10] in
  currentLevel fresh <= 20
  /\ currentLevel ls <= 20
  /\ greatest_level (currentExp ls) (currentLevel ls).
Proof.
  cbv zeta. split; [simpl; lia|]. split.
  - apply (proj1 (proj2 (proj2 (proj2 (addScore_level_rules exact_rounding))))).
    simpl. lia.
  - apply (proj2 (proj2 (proj2 (proj2 (proj2
             (addScore_level_rules exact_rounding)))))).
    + split; [simpl; lia | reflexivity].
    + repeat constructor; simpl; lia.
Defined.

(** C5. In every [addScore] call a correct result raises the streak by
    exactly 1 and makes [maxStreak] the maximum of its old value and the new
    streak; an incorrect result sets the streak to exactly 0; and over any
    sequence of calls [maxStreak] never decreases. *)
Theorem addScore_streak_rules (R : Rounding) :
  (forall gm ls score r,
      isCorrect r = true ->
      let ls' := fst (addScore gm ls score (Some r)) in
      streakCount ls' = streakCount ls + 1
      /\ maxStreak ls' = Z.max (maxStreak ls) (streakCount ls'))
  /\ (forall gm ls score r,
         isCorrect r = false ->
         streakCount (fst (addScore gm ls score (Some r))) = 0)
  /\ (forall ls calls, maxStreak ls <= maxStreak (run ls calls)).
Proof.
  split; [|split].
  - intros gm ls score r Hr ls'. subst ls'.
    rewrite addScore_streak, addScore_maxStreak.
    cbn [resultIsCorrect]. rewrite Hr. split; reflexivity.
  - intros gm ls score r Hr.
    rewrite addScore_streak. cbn [resultIsCorrect]. now rewrite Hr.
  - intros ls calls. apply run_maxStreak_le.
Qed.

Lemma addScore_streak_rules_witness :
  (let ls' :=
     fst (addScore (R := exact_rounding) idle_game fresh 177
            (Some (sampleResult (R := exact_rounding) "B" 45 1))) in
   streakCount ls' = streakCount fresh + 1
   /\ maxStreak ls' = Z.max (maxStreak fresh) (streakCount ls'))
  /\ streakCount
       (fst (addScore (R := exact_rounding) idle_game fresh 0
               (Some (sampleResult (R := exact_rounding) "A" 45 1)))) = 0.
Proof.
  split.
  - apply (proj1 (addScore_streak_rules exact_rounding)). reflexivity.
  - apply (proj1 (proj2 (addScore_streak_rules exact_rounding))). reflexivity.
Defined.

(** C9. Every [addScore] call adds the same amount to [totalScore] and to
    the experience, so if the two are equal before a call they are equal
    after it. *)
Theorem addScore_score_equals_exp (R : Rounding) :
  forall gm ls score qr,
    let ls' := fst (addScore gm ls score qr) in
    ls_totalScore ls' = ls_totalScore ls + score
    /\ currentExp ls' = currentExp ls + score
    /\ (ls_totalScore ls = currentExp ls -> ls_totalScore ls' = currentExp ls').
Proof.
  intros gm ls score qr ls'. subst ls'.
  rewrite addScore_total, addScore_exp.
  repeat split. intro H. now rewrite H.
Qed.

Lemma addScore_score_equals_exp_witness :
  let ls' :=
    fst (addScore (R := exact_rounding) idle_game fresh 177
           (Some (sampleResult (R := exact_rounding) "B" 45 1))) in
  ls_totalScore ls' = currentExp ls'.
Proof.
  apply (addScore_score_equals_exp exact_rounding idle_game fresh 177).
  reflexivity.
Defined.

(** C10. A call of [addScore] without a question result takes the branch
    of an incorrect answer: the streak becomes exactly 0 and [maxStreak]
    stays, while the score is still added to [totalScore] and to the
    experience; the reset happens whenever the result is missing or not
    correct. *)
Theorem addScore_without_result (R : Rounding) :
  (forall gm ls score,
      let ls' := fst (addScore gm ls score None) in
      streakCount ls' = 0
      /\ maxStreak ls' = maxStreak ls
      /\ ls_totalScore ls' = ls_totalScore ls + score
      /\ currentExp ls' = currentExp ls + score)
  /\ (forall ls score r,
         isCorrect r = false ->
         scored ls score None = scored ls score (Some r))
  /\ (forall gm ls score qr,
         resultIsCorrect qr = false ->
         streakCount (fst (addScore gm ls score qr)) = 0
         /\ maxStreak (fst (addScore gm ls score qr)) = maxStreak ls).
Proof.
  split; [|split].
  - intros gm ls score ls'. subst ls'.
    rewrite addScore_streak, addScore_maxStreak, addScore_total, addScore_exp.
    repeat split.
  - intros ls score r Hr. unfold scored. cbn [resultIsCorrect]. now rewrite Hr.
  - intros gm ls score qr Hqr.
    rewrite addScore_streak, addScore_maxStreak, Hqr. split; reflexivity.
Qed.

Lemma addScore_without_result_witness :
  scored fresh 10 None
  = scored fresh 10 (Some (sampleResult (R := exact_rounding) "A" 45 1))
  /\ streakCount (fst (addScore (R := exact_rounding) idle_game fresh 10 None)) = 0
  /\ maxStreak (fst (addScore (R := exact_rounding) idle_game fresh 10 None))
     = maxStreak fresh.
Proof.
  split.
  - apply (proj1 (proj2 (addScore_without_result exact_rounding))). reflexivity.
  - apply (proj2 (proj2 (addScore_without_result exact_rounding))). reflexivity.
Defined.

End LevelClaims.

(** ** LevelSystem: achievements *)

Section AchievementFacts.
Import Level.
Context (R : Rounding).

Lemma includes_In (l : list string) (id : string) :
  includes l id = true <-> In id l.
Proof.
  unfold includes. rewrite existsb_exists. split.
  - intros [x [Hx Heq]]. apply String.eqb_eq in Heq. now subst.
  - intro H. exists id. split; [exact H | apply String.eqb_refl].
Qed.

Lemma includes_app (l1 l2 : list string) (id : string) :
  includes (l1 ++ l2) id = includes l1 id || includes l2 id.
Proof. unfold includes. apply existsb_app. Qed.

Lemma includes_false_not_In (l : list string) (id : string) :
  includes l id = false <-> ~ In id l.
Proof.
  rewrite <- includes_In. destruct (includes l id); split; congruence.
Qed.

Lemma filter_none {A} (f : A -> bool) (l : list A) :
  (forall x, In x l -> f x = false) -> filter f l = [].
Proof.
  induction l as [|x l IH]; intro H; [reflexivity|].
  simpl. rewrite (H x (or_introl eq_refl)). apply IH.
  intros y Hy. apply H. now right.
Qed.

Variable stats : PlayerStats.
Variable qr : option ScoreResult.

(** Pushing a key that none of the remaining definitions has does not
    change which of them are eligible. *)
Lemma eligible_after_push (defs : list (string * Achievement))
  (achs : list string) (k : string) :
  ~ In k (map fst defs) ->
  filter (eligible (achs ++ [k]) stats qr) defs
  = filter (eligible achs stats qr) defs.
Proof.
  intro Hk. apply filter_ext_in. intros [k' a'] Hin.
  unfold eligible. cbn [fst snd]. rewrite includes_app.
  assert (Hne : includes [k] k' = false).
  { apply includes_false_not_In. intros [->|[]].
    apply Hk. apply (in_map fst) in Hin. exact Hin. }
  now rewrite Hne, orb_false_r.
Qed.

(** The loop, with its two arrays mutated on the way, appends the eligible
    definitions in the order of the list. *)
Lemma checkLoop_filter (defs : list (string * Achievement)) :
  NoDup (map fst defs) ->
  forall achs news,
    checkLoop defs stats qr achs news
    = (achs ++ map fst (filter (eligible achs stats qr) defs),
       news ++ map snd (filter (eligible achs stats qr) defs)).
Proof.
  induction defs as [|[k a] rest IH]; intros Hnd achs news.
  - simpl. now rewrite !app_nil_r.
  - inversion Hnd as [|? ? Hk Hrest]; subst.
    cbn [checkLoop filter].
    assert (He : eligible achs stats qr (k, a)
                 = negb (includes achs k) && condition a stats qr)
      by reflexivity.
    rewrite !He.
    destruct (includes achs k) eqn:Hinc; cbn [negb andb].
    + now apply IH.
    + destruct (condition a stats qr) eqn:Hc.
      * rewrite IH by assumption. rewrite eligible_after_push by assumption.
        cbn [map]. now rewrite <- !app_assoc.
      * now apply IH.
Qed.

End AchievementFacts.

Section AchievementTable.
Import Level.
Context (R : Rounding).

Lemma achievementDefinitions_keys_distinct :
  NoDup (map fst achievementDefinitions).
Proof.
  cbn [map fst achievementDefinitions].
  repeat (constructor; [cbn [In]; intuition discriminate|]).
  constructor.
Qed.

Lemma achievementDefinitions_key_is_id :
  forall d, In d achievementDefinitions -> ach_id (snd d) = fst d.
Proof.
  intros d Hd. cbn [In achievementDefinitions] in Hd.
  repeat (destruct Hd as [<-|Hd]; [reflexivity|]). destruct Hd.
Qed.

Lemma checkAchievements_filter gm ls qr :
  checkAchievements gm ls qr
  = (setAchievements ls
       (achievements ls
        ++ map fst (newlyUnlocked (achievements ls) (getPlayerStats gm ls) qr)),
     map snd (newlyUnlocked (achievements ls) (getPlayerStats gm ls) qr)).
Proof.
  unfold checkAchievements.
  rewrite checkLoop_filter by apply achievementDefinitions_keys_distinct.
  reflexivity.
Qed.

Lemma newlyUnlocked_ids unlocked stats qr :
  map ach_id (map snd (newlyUnlocked unlocked stats qr))
  = map fst (newlyUnlocked unlocked stats qr).
Proof.
  rewrite map_map. apply map_ext_in. intros d Hd.
  apply achievementDefinitions_key_is_id.
  unfold newlyUnlocked in Hd. apply filter_In in Hd. tauto.
Qed.

Lemma newlyUnlocked_fresh unlocked stats qr id :
  In id unlocked -> ~ In id (map fst (newlyUnlocked unlocked stats qr)).
Proof.
  intros Hid Hin. apply in_map_iff in Hin. destruct Hin as [d [<- Hd]].
  unfold newlyUnlocked in Hd. apply filter_In in Hd. destruct Hd as [_ He].
  unfold eligible in He. apply andb_prop in He. destruct He as [He _].
  apply includes_In in Hid. rewrite Hid in He. discriminate.
Qed.

(** Once the eligible keys are in the unlocked list nothing is eligible. *)
Lemma newlyUnlocked_again unlocked stats qr :
  newlyUnlocked (unlocked ++ map fst (newlyUnlocked unlocked stats qr)) stats qr
  = [].
Proof.
  unfold newlyUnlocked at 1. apply filter_none. intros d Hd.
  unfold eligible. rewrite includes_app.
  destruct (includes unlocked (fst d)) eqn:Hinc; [reflexivity|].
  destruct (condition (snd d) stats qr) eqn:Hc; [|apply andb_false_r].
  assert (Hin : In (fst d) (map fst (newlyUnlocked unlocked stats qr))).
  { apply in_map. unfold newlyUnlocked. apply filter_In. split; [exact Hd|].
    unfold eligible. now rewrite Hinc, Hc. }
  apply includes_In in Hin. now rewrite Hin.
Qed.

Lemma checkAchievements_keeps gm ls qr id :
  In id (achievements ls) ->
  In id (achievements (fst (checkAchievements gm ls qr))).
Proof.
  intro H. rewrite checkAchievements_filter. cbn [fst setAchievements achievements].
  apply in_or_app. now left.
Qed.

Lemma addScore_keeps gm ls score qr id :
  In id (achievements ls) ->
  In id (achievements (fst (addScore gm ls score qr))).
Proof.
  intro H. rewrite addScore_state. apply checkAchievements_keeps. exact H.
Qed.

Lemma run_keeps (calls : list Call) :
  forall ls id, In id (achievements ls) -> In id (achievements (run ls calls)).
Proof.
  induction calls as [|c rest IH]; intros ls id H; cbn [run]; [exact H|].
  apply IH. now apply addScore_keeps.
Qed.

End AchievementTable.

Section AchievementClaims.
Import Level.

(** C6. Unlocking is idempotent and permanent: an id already in the
    unlocked list is not reported by [checkAchievements], a second
    evaluation on the same state and result reports nothing, no
    [checkAchievements] or [addScore] call and no sequence of calls removes
    an id, and the reported achievements are exactly the definitions not yet
    unlocked whose predicate holds on the post-score state and the last
    result, in the order of the definition list. *)
Theorem checkAchievements_idempotent_permanent (R : Rounding) :
  (forall gm ls qr id,
      In id (achievements ls) ->
      ~ In id (map ach_id (snd (checkAchievements gm ls qr))))
  /\ (forall gm ls qr,
         snd (checkAchievements gm (fst (checkAchievements gm ls qr)) qr) = [])
  /\ (forall gm ls qr id,
         In id (achievements ls) ->
         In id (achievements (fst (checkAchievements gm ls qr))))
  /\ (forall gm ls score qr id,
         In id (achievements ls) ->
         In id (achievements (fst (addScore gm ls score qr))))
  /\ (forall ls calls id,
         In id (achievements ls) -> In id (achievements (run ls calls)))
  /\ (forall gm ls qr,
         snd (checkAchievements gm ls qr)
         = map snd (newlyUnlocked (achievements ls) (getPlayerStats gm ls) qr))
  /\ (forall gm ls score qr,
         achievements (fst (addScore gm ls score qr))
         = achievements ls
           ++ map fst (newlyUnlocked (achievements ls)
                         (getPlayerStats gm (scored ls score qr)) qr)).
Proof.
  repeat apply conj.
  - intros gm ls qr id Hid.
    rewrite checkAchievements_filter. cbn [snd].
    rewrite newlyUnlocked_ids. now apply newlyUnlocked_fresh.
  - intros gm ls qr.
    rewrite (checkAchievements_filter R gm ls qr). cbn [fst].
    rewrite checkAchievements_filter. cbn [snd setAchievements achievements].
    change (getPlayerStats gm (setAchievements ls ?a))
      with (getPlayerStats gm ls).
    now rewrite newlyUnlocked_again.
  - intros gm ls qr id. apply checkAchievements_keeps.
  - intros gm ls score qr id. apply addScore_keeps.
  - intros ls calls id. apply run_keeps.
  - intros gm ls qr. now rewrite checkAchievements_filter.
  - intros gm ls score qr.
    rewrite addScore_state, checkAchievements_filter. reflexivity.
Qed.

Lemma checkAchievements_idempotent_permanent_witness :
  ~ In "first_correct"%string
       (map ach_id
          (snd (checkAchievements (R := exact_rounding)
                  one_correct_game badgeHolder None)))
  /\ In "first_correct"%string
        (achievements
           (fst (addScore (R := exact_rounding)
                   one_correct_game badgeHolder 0 None)))
  /\ achievements
       (fst (addScore (R := exact_rounding) idle_game streak4 177
               (Some (sampleResult (R := exact_rounding) "B" 45 1))))
     = ["streak_5"%string].
Proof.
  split; [|split].
  - apply (proj1 (checkAchievements_idempotent_permanent exact_rounding)).
    simpl. now left.
  - apply (proj1 (proj2 (proj2 (proj2
             (checkAchievements_idempotent_permanent exact_rounding))))).
    simpl. now left.
  - rewrite (proj2 (proj2 (proj2 (proj2 (proj2 (proj2
               (checkAchievements_idempotent_permanent exact_rounding))))))).
    reflexivity.
Defined.

End AchievementClaims.

(** ** The hint path *)

Section HintFacts.
Import Npc.

Lemma lookupKey_In {A} (l : list (string * A)) (k : string) (v : A) :
  lookupKey l k = Some v -> In v (map snd l).
Proof.
  induction l as [|[k' v'] rest IH]; simpl; [discriminate|].
  destruct (String.eqb k' k); intro H.
  - left. congruence.
  - right. now apply IH.
Qed.

Lemma lookupLevel_In (t : LevelTable) (n : Z) (lh : LevelHints) :
  lookupLevel t n = Some lh -> In lh (map snd t).
Proof.
  induction t as [|[k v] rest IH]; simpl; [discriminate|].
  destruct (Z.eqb k n); intro H.
  - left. congruence.
  - right. now apply IH.
Qed.

Lemma lookupLevel_default (level : Z) :
  1 <= level <= 3 -> exists lh, lookupLevel defaultHints level = Some lh.
Proof.
  intro H.
  assert (Hc : level = 1 \/ level = 2 \/ level = 3) by lia.
  destruct Hc as [-> | [-> | ->]]; eexists; reflexivity.
Qed.

Lemma allLevelHints_truthy :
  forall lh, In lh allLevelHints ->
    truthyString (base lh) = true
    /\ forall k s, lookupKey (byNpc lh) k = Some s -> truthyString s = true.
Proof.
  assert (H : forallb (fun lh =>
                truthyString (base lh)
                && forallb (fun p => truthyString (snd p)) (byNpc lh))
              allLevelHints = true) by (vm_compute; reflexivity).
  rewrite forallb_forall in H.
  intros lh Hin. specialize (H lh Hin).
  apply andb_prop in H. destruct H as [Hb Hn]. split; [exact Hb|].
  intros k s Hk. rewrite forallb_forall in Hn.
  apply lookupKey_In in Hk. apply in_map_iff in Hk.
  destruct Hk as [[k' s'] [Heq Hin']]. simpl in Heq. subst s'.
  exact (Hn _ Hin').
Qed.


Example categoryOf_cases :
  categoryOf (mkQuestion "q1" (Some "ec2"%string) "easy" 100 60 "A")
  = "EC2"%string
  /\ categoryOf (mkQuestion "q2" (Some ""%string) "easy" 100 60 "A")
     = "GENERAL"%string
  /\ categoryOf (mkQuestion "q3" None "easy" 100 60 "A") = "GENERAL"%string.
Proof. repeat split. Qed.

(** The level entry the fallback picks for a category and a level. *)
Lemma fallback_level_entry (cat : string) (level : Z) :
  1 <= level <= 3 ->
  exists lh,
    match lookupLevel
            match lookupKey enhancedHintTemplates cat with
            | Some t => t
            | None => defaultHints
            end level
    with
    | Some lh => Some lh
    | None => lookupLevel defaultHints level
    end = Some lh
    /\ In lh allLevelHints.
Proof.
  intro Hl. destruct (lookupLevel_default level Hl) as [dl Hdl].
  assert (Hdin : In dl allLevelHints).
  { apply in_or_app. right. now apply lookupLevel_In in Hdl. }
  destruct (lookupKey enhancedHintTemplates cat) as [t|] eqn:Hc.
  - destruct (lookupLevel t level) as [lh|] eqn:Hlv.
    + exists lh. split; [reflexivity|].
      apply in_or_app. left. apply in_flat_map.
      apply lookupLevel_In in Hlv.
      assert (Ht : exists c, In (c, t) enhancedHintTemplates).
      { clear - Hc. induction enhancedHintTemplates as [|[k v] rest IH];
          simpl in Hc; [discriminate|].
        destruct (String.eqb k cat).
        - injection Hc as ->. exists k. now left.
        - destruct (IH Hc) as [c Hin]. exists c. now right. }
      destruct Ht as [c Hin]. exists (c, t). split; assumption.
    + exists dl. split; assumption.
  - rewrite Hdl. exists dl. split; [reflexivity | assumption].
Qed.

Lemma generateEnhancedFallbackHint_returns (n : NPCSystem) (q : Question)
  (level : Z) :
  1 <= level <= 3 ->
  exists h,
    generateEnhancedFallbackHint n q level = Return h
    /\ source h = "enhanced_fallback"%string
    /\ hintLevel h = level
    /\ hint_category h = categoryOf q
    /\ npcId h = npc_currentNpc n
    /\ truthyString (hint h) = true
    /\ truthyFound (message h) = true.
Proof.
  intro Hl. unfold generateEnhancedFallbackHint.
  destruct (fallback_level_entry (categoryOf q) level Hl) as [lh [Hlh Hin]].
  rewrite Hlh.
  destruct (allLevelHints_truthy lh Hin) as [Hb Hn].
  eexists; split; [reflexivity|]. cbn [source hintLevel hint_category npcId hint message].
  repeat split; [exact Hb|].
  destruct (npc_currentNpc n) as [npc|]; [|exact Hb].
  destruct (levelHintsProp lh npc) as [f|]; [|exact Hb].
  destruct (truthyFound f) eqn:Hf; [exact Hf | exact Hb].
Qed.


(** Typing the message of a fallback hint succeeds and ends the effect. *)
Lemma showNpcHint_fallback (n : NPCSystem) (h : Hint) :
  showNpcHint n (hintToJson h) = (setTyping n false, Return tt).
Proof.
  unfold showNpcHint, hintMessage. cbn [hintToJson getProp lookupKey].
  destruct (message h) as [s|name]; cbn; [|reflexivity].
  destruct (truthyString s); reflexivity.
Qed.

(** The presentation of a payload throws exactly when it is malformed. *)
Lemma showNpcHint_malformed (n : NPCSystem) (hintData : json) :
  malformed hintData = true ->
  exists n' e, showNpcHint n hintData = (n', Throw e)
               /\ npc_currentNpc n' = npc_currentNpc n.
Proof.
  unfold malformed, showNpcHint.
  destruct (hintMessage hintData) as [[[]|]|e]; try discriminate; intros _.
  - exists (setTyping n true). eexists. split; reflexivity.
  - exists (setTyping n true). eexists. split; reflexivity.
  - exists n, e. split; reflexivity.
Qed.

Lemma showNpcHint_wellformed (n : NPCSystem) (hintData : json) :
  malformed hintData = false ->
  showNpcHint n hintData = (setTyping n false, Return tt).
Proof.
  unfold malformed, showNpcHint.
  destruct (hintMessage hintData) as [[[]|]|e]; try discriminate; reflexivity.
Qed.

Lemma remoteAttempt_fails (n : NPCSystem) (remote : Remote) :
  remoteFails remote = true ->
  exists n' e, remoteAttempt n remote = (n', Throw e)
               /\ npc_currentNpc n' = npc_currentNpc n.
Proof.
  destruct remote as [|[|] [hintData|]]; cbn [remoteFails remoteAttempt]; intro H.
  - exists n. eexists. split; reflexivity.
  - destruct (showNpcHint_malformed n hintData H) as [n' [e [Hs Hn]]].
    exists n', e. rewrite Hs. split; [reflexivity | exact Hn].
  - exists n. eexists. split; reflexivity.
  - exists n. eexists. split; reflexivity.
  - exists n. eexists. split; reflexivity.
Qed.

Lemma remoteAttempt_succeeds (n : NPCSystem) (remote : Remote) :
  remoteFails remote = false ->
  exists hintData,
    remote = Responded true (Some hintData)
    /\ remoteAttempt n remote = (setTyping n false, Return hintData).
Proof.
  destruct remote as [|[|] [hintData|]]; cbn [remoteFails]; intro H;
    try discriminate.
  exists hintData. split; [reflexivity|].
  cbn [remoteAttempt]. now rewrite (showNpcHint_wellformed n hintData H).
Qed.

Lemma fallbackAttempt_returns (n : NPCSystem) (q : Question) (level : Z) :
  1 <= level <= 3 ->
  exists h,
    fallbackAttempt n q level = (setTyping n false, Return (RetFallback h))
    /\ generateEnhancedFallbackHint n q level = Return h.
Proof.
  intro Hl.
  destruct (generateEnhancedFallbackHint_returns n q level Hl) as [h [Hh _]].
  exists h. unfold fallbackAttempt. rewrite Hh, showNpcHint_fallback.
  split; reflexivity.
Qed.

End HintFacts.

Section HintInvariance.
Import Npc.

(** The hint path reads [currentNpc] only: the typing flag it starts from
    changes neither the fallback nor what is returned. *)
Lemma generateEnhancedFallbackHint_flag c b1 b2 q level :
  generateEnhancedFallbackHint (mkNPCSystem c b1) q level
  = generateEnhancedFallbackHint (mkNPCSystem c b2) q level.
Proof. reflexivity. Qed.

Lemma generateEnhancedFallbackHint_same n1 n2 q level :
  npc_currentNpc n1 = npc_currentNpc n2 ->
  generateEnhancedFallbackHint n1 q level
  = generateEnhancedFallbackHint n2 q level.
Proof.
  destruct n1 as [c1 b1], n2 as [c2 b2]. cbn [npc_currentNpc].
  intros ->. apply generateEnhancedFallbackHint_flag.
Qed.

Lemma typeMessage_flag c b1 b2 m :
  typeMessage (mkNPCSystem c b1) m = typeMessage (mkNPCSystem c b2) m.
Proof. reflexivity. Qed.

Lemma fallbackAttempt_flag c b1 b2 q level :
  snd (fallbackAttempt (mkNPCSystem c b1) q level)
  = snd (fallbackAttempt (mkNPCSystem c b2) q level).
Proof.
  unfold fallbackAttempt.
  rewrite (generateEnhancedFallbackHint_flag c b1 b2).
  destruct (generateEnhancedFallbackHint (mkNPCSystem c b2) q level) as [h|e];
    [|reflexivity].
  now rewrite !showNpcHint_fallback.
Qed.

Lemma requestNpcHint_flag c b1 b2 q level remote :
  snd (requestNpcHint (mkNPCSystem c b1) q level remote)
  = snd (requestNpcHint (mkNPCSystem c b2) q level remote).
Proof.
  unfold requestNpcHint. cbn [npc_currentNpc].
  destruct (noNpc c); [reflexivity|].
  destruct remote as [|[|] [hintData|]]; cbn [remoteAttempt];
    try apply fallbackAttempt_flag.
  unfold showNpcHint. destruct (hintMessage hintData) as [m|e].
  - rewrite (typeMessage_flag c b1 b2 m).
    destruct (typeMessage (mkNPCSystem c b2) m) as [n1 [u|e]]; reflexivity.
  - apply fallbackAttempt_flag.
Qed.

End HintInvariance.

Section HintClaims.
Import Npc.


(** Outside the levels 1 to 3 no table has an entry and the fallback
    itself throws. *)
Example requestNpcHint_level_out_of_range :
  snd (requestNpcHint (alex false) Score.example_question 4 FetchRejected)
  = Throw "TypeError".
Proof. reflexivity. Qed.



(** C8 as stated fails: with a typed line running, a hint request on the
    example question is not rejected; the hint is delivered and counted. *)
Lemma requestHint_while_typing :
  typingActive (alexSession true 0) = true
  /\ exists h,
       requestHint (alexSession true 0) FetchRejected
       = (alexSession false 1, HintProvided (RetFallback h)).
Proof.
  split; [reflexivity|]. eexists. reflexivity.
Qed.

(** C8, amended. A hint request does not look at the typed-text effect:
    its outcome and its effect on the game manager are the same whether an
    effect is running or not; it is turned away only when no question is
    loaded or three hints have been used; and [skip] with no effect running
    leaves the session as it is. *)
Theorem requestHint_ignores_typing :
  (forall s remote b,
      snd (requestHint (withTyping s b) remote) = snd (requestHint s remote)
      /\ game (fst (requestHint (withTyping s b) remote))
         = game (fst (requestHint s remote)))
  /\ (forall s remote,
         snd (requestHint s remote) = NoQuestionLoaded
         <-> currentQuestion (game s) = None)
  /\ (forall s remote,
         snd (requestHint s remote) = NoHintLeft
         <-> (currentQuestion (game s) <> None /\ 3 <= hintsUsed (game s)))
  /\ (forall s, typingActive s = false -> skip s = s).
Proof.
  split; [|split; [|split]].
  - intros [g o] remote b. unfold requestHint, withTyping. cbn [game npcSystem].
    destruct (currentQuestion g) as [q|]; [|split; reflexivity].
    destruct (Z.leb 3 (hintsUsed g)); [split; reflexivity|].
    destruct o as [[c t]|]; [|split; reflexivity].
    destruct (noNpc (currentNpc g)); [split; reflexivity|].
    unfold provideHint, setTyping. cbn [npc_currentNpc].
    pose proof (requestNpcHint_flag c b t q (hintsUsed g + 1) remote) as H.
    destruct (requestNpcHint (mkNPCSystem c b) q (hintsUsed g + 1) remote)
      as [n1 [r1|e1]];
      destruct (requestNpcHint (mkNPCSystem c t) q (hintsUsed g + 1) remote)
      as [n2 [r2|e2]]; cbn [snd] in H; try discriminate;
      injection H as ->; split; reflexivity.
  - intros [g o] remote. unfold requestHint. cbn [game npcSystem].
    destruct (currentQuestion g) as [q|]; [|split; reflexivity].
    split; [|discriminate].
    destruct (Z.leb 3 (hintsUsed g)); [discriminate|].
    destruct o as [n|]; [|discriminate].
    destruct (noNpc (currentNpc g)); [discriminate|].
    destruct (provideHint n q (hintsUsed g + 1) remote) as [n1 [r|e]];
      discriminate.
  - intros [g o] remote. unfold requestHint. cbn [game npcSystem].
    destruct (currentQuestion g) as [q|].
    + destruct (Z.leb_spec 3 (hintsUsed g)) as [Hle|Hlt].
      * split; [intros _; split; [discriminate | exact Hle] | reflexivity].
      * split; [|intros [_ H]; lia].
        destruct o as [n|]; [|discriminate].
        destruct (noNpc (currentNpc g)); [discriminate|].
        destruct (provideHint n q (hintsUsed g + 1) remote) as [n1 [r|e]];
          discriminate.
    + split; [discriminate | intros [H _]; congruence].
  - intros [g [[c t]|]]; cbn [typingActive npcSystem isTyping]; [|reflexivity].
    intros ->. reflexivity.
Qed.

Lemma requestHint_ignores_typing_witness :
  skip (alexSession false 0) = alexSession false 0.
Proof.
  apply (proj2 (proj2 (proj2 requestHint_ignores_typing))). reflexivity.
Defined.

End HintClaims.

(** ** LevelSystem: progress bar and next level *)

Section ProgressFacts.
Import Level Progress.
Context (R : Rounding).

Lemma rnd_ge_Z (x : Q) (k : Z) :
  Z.abs k < 2 ^ 53 -> (inject_Z k <= x)%Q -> (inject_Z k <= rnd x)%Q.
Proof.
  intros Hk H. rewrite <- (rnd_Z R k) by exact Hk. now apply rnd_le.
Qed.

Lemma percent_range (a b : Z) :
  0 <= a -> 0 < b ->
  (0 <= Qmin (rnd (rnd (inject_Z a / inject_Z b) * 100)) 100 <= 100)%Q.
Proof.
  intros Ha Hb. split; [|apply Q.le_min_r].
  apply Q.min_glb; [|discriminate].
  apply rnd_nonneg. apply Qmult_le_0_compat; [|discriminate].
  apply rnd_nonneg. now apply ratio_nonneg.
Qed.

Lemma percent_full (a b : Z) :
  0 < b -> b <= a ->
  (Qmin (rnd (rnd (inject_Z a / inject_Z b) * 100)) 100 == 100)%Q.
Proof.
  intros Hb Hab. apply Q.min_r.
  apply (rnd_ge_Z _ 100); [simpl; lia|].
  change (inject_Z 100) with (1 * 100)%Q.
  apply Qmult_le_compat_r; [|discriminate].
  apply (rnd_ge_Z _ 1); [simpl; lia|].
  apply Qle_shift_div_l.
  - change 0%Q with (inject_Z 0). now rewrite <- Zlt_Qlt.
  - rewrite Qmult_1_l. now rewrite <- Zle_Qle.
Qed.

Lemma mathRound_range (x : Q) (k : Z) :
  (0 <= x <= inject_Z k)%Q -> 0 <= mathRound x <= k.
Proof.
  intros [H0 Hk]. unfold mathRound. split.
  - apply Qfloor_nonneg.
    apply Qle_trans with x; [exact H0|].
    rewrite <- (Qplus_0_r x) at 1. apply Qplus_le_r. discriminate.
  - assert (H : Qfloor (x + (1 # 2)) <= Qfloor (inject_Z k + (1 # 2))).
    { apply Qfloor_resp_le. now apply Qplus_le_l. }
    assert (E : Qfloor (inject_Z k + (1 # 2)) = k).
    { rewrite Qplus_comm. rewrite Qfloor_add_Z. reflexivity. }
    lia.
Qed.

(** A level between 1 and 20 picks two thresholds of the table: the base
    of the bar, two entries below the level, and the target. *)
Lemma progress_shape (ls : LevelSystem) :
  1 <= currentLevel ls <= 20 ->
  let L := currentLevel ls in
  exists c n,
    (if 1 <? L then thresholdAt (L - 2) else Some 0) = Some c
    /\ getExpForNextLevel ls = Some n
    /\ c < n
    /\ c <= nth (Z.to_nat (L - 1)) levelThresholds 0
    /\ (2 <= L -> 100 <= nth (Z.to_nat (L - 1)) levelThresholds 0 - c)
    /\ (L < 20 -> n = nth (Z.to_nat L) levelThresholds 0
                  /\ calculateLevel n = L + 1)
    /\ (L = 20 -> n = 19000 /\ n = nth (Z.to_nat (L - 1)) levelThresholds 0).
Proof.
  intros HL L. unfold getExpForNextLevel. fold L.
  assert (Hc : L = 1 \/ L = 2 \/ L = 3 \/ L = 4 \/ L = 5 \/ L = 6 \/ L = 7
               \/ L = 8 \/ L = 9 \/ L = 10 \/ L = 11 \/ L = 12 \/ L = 13
               \/ L = 14 \/ L = 15 \/ L = 16 \/ L = 17 \/ L = 18 \/ L = 19
               \/ L = 20) by lia.
  clearbody L.
  repeat (destruct Hc as [-> | Hc]);
    try subst L;
    (eexists; eexists;
     split; [reflexivity|]; split; [reflexivity|];
     repeat split; try reflexivity; simpl; lia).
Qed.

Lemma in_step_thresholds (ls : LevelSystem) :
  level_in_step ls ->
  let L := currentLevel ls in
  1 <= L <= 20
  /\ nth (Z.to_nat (L - 1)) levelThresholds 0 <= currentExp ls
  /\ (L < 20 -> currentExp ls < nth (Z.to_nat L) levelThresholds 0).
Proof.
  intros [He Hl] L. subst L.
  destruct (calculateLevel_greatest _ He) as [Hr [Hlow Hup]].
  rewrite <- Hl in Hr, Hlow, Hup.
  split; [exact Hr|]. split; [exact Hlow|].
  intro Hlt. specialize (Hup (currentLevel ls + 1) ltac:(lia)).
  now replace (currentLevel ls + 1 - 1) with (currentLevel ls) in Hup by lia.
Qed.

End ProgressFacts.

Section ProgressProperties.
Import Level Progress.

(** X1. For a player whose level agrees with the experience,
    [getExpProgress] divides by a positive amount and returns a progress
    that is not negative and a percentage between 0 and 100; below level 20
    the progress stays under the required amount, at level 20 the
    percentage is 100; and from level 2 on the progress is at least 100,
    because the bar is measured from the threshold of the level before. *)
Theorem getExpProgress_in_step (R : Rounding) :
  forall ls : LevelSystem,
    level_in_step ls ->
    exists p,
      getExpProgress ls = Some p
      /\ 0 < ep_required p
      /\ 0 <= ep_current p
      /\ (0 <= ep_percentage p <= 100)%Q
      /\ (currentLevel ls < 20 -> ep_current p < ep_required p)
      /\ (currentLevel ls = 20 -> (ep_percentage p == 100)%Q)
      /\ (2 <= currentLevel ls -> 100 <= ep_current p).
Proof.
  intros ls Hstep.
  destruct (in_step_thresholds ls Hstep) as [HL [Hlow Hup]].
  destruct (progress_shape ls HL) as [c [n [Hc [Hn [Hcn [Hbase [Hgap [Hlt Htop]]]]]]]].
  unfold getExpProgress. rewrite Hc, Hn.
  destruct (Z.eqb_spec (n - c) 0) as [E|E]; [lia|].
  eexists. split; [reflexivity|].
  cbn [ep_required ep_current ep_percentage].
  split; [lia|]. split; [lia|].
  split; [apply percent_range; lia|].
  split; [intro H; destruct (Hlt H) as [-> _]; specialize (Hup H); lia|].
  split; [|intro H; specialize (Hgap H); lia].
  intro H. destruct (Htop H) as [_ Hn19]. apply percent_full; lia.
Qed.

Lemma getExpProgress_in_step_witness :
  exists p,
    getExpProgress (R := exact_rounding) (mkLevelSystem 2 105 105 [] 0 0) = Some p
    /\ 0 < ep_required p
    /\ 0 <= ep_current p
    /\ (0 <= ep_percentage p <= 100)%Q
    /\ (2 < 20 -> ep_current p < ep_required p)
    /\ (2 = 20 -> (ep_percentage p == 100)%Q)
    /\ (2 <= 2 -> 100 <= ep_current p).
Proof.
  apply (getExpProgress_in_step exact_rounding (mkLevelSystem 2 105 105 [] 0 0)).
  split; [simpl; lia | reflexivity].
Defined.

(** X2. For a player whose level agrees with the experience and is below
    20, [getExpForNextLevel] returns the least experience that gives the
    next level: the player has less, and any smaller amount gives at most
    the present level.  At level 20 it returns the last threshold, which
    the player has already reached. *)
Theorem getExpForNextLevel_is_next :
  forall ls : LevelSystem,
    level_in_step ls ->
    exists n,
      getExpForNextLevel ls = Some n
      /\ (currentLevel ls < 20 ->
          currentExp ls < n
          /\ calculateLevel n = currentLevel ls + 1
          /\ forall e, e < n -> calculateLevel e <= currentLevel ls)
      /\ (currentLevel ls = 20 -> n = 19000 /\ n <= currentExp ls).
Proof.
  intros ls Hstep.
  destruct (in_step_thresholds ls Hstep) as [HL [Hlow Hup]].
  destruct (progress_shape ls HL)
    as [c [n [_ [Hn [_ [_ [_ [Hlt Htop]]]]]]]].
  exists n. split; [exact Hn|]. split.
  - intro H. destruct (Hlt H) as [En Hcalc]. specialize (Hup H).
    split; [lia|]. split; [exact Hcalc|].
    intros e He.
    destruct (Z_lt_le_dec e 0) as [Hneg|Hpos].
    + rewrite calculateLevel_negative by exact Hneg. lia.
    + destruct (calculateLevel_greatest e Hpos) as [Hr [Hle _]].
      assert (Hn0 : 0 <= n).
      { rewrite En. apply levelThresholds_nonneg. }
      destruct (calculateLevel_greatest n Hn0) as [_ [_ Hgt]].
      rewrite Hcalc in Hgt.
      destruct (Z_le_gt_dec (calculateLevel e) (currentLevel ls)) as [|Hbig];
        [assumption|].
      destruct (Z.eq_dec (calculateLevel e) (currentLevel ls + 1)) as [Heq|Hne].
      * rewrite Heq in Hle.
        replace (currentLevel ls + 1 - 1) with (currentLevel ls) in Hle by lia.
        lia.
      * specialize (Hgt (calculateLevel e) ltac:(lia)). lia.
  - intro H. destruct (Htop H) as [E19 En]. split; [exact E19|]. lia.
Qed.

Lemma getExpForNextLevel_is_next_witness :
  exists n,
    getExpForNextLevel (mkLevelSystem 2 105 105 [] 0 0) = Some n
    /\ (2 < 20 ->
        105 < n
        /\ calculateLevel n = 2 + 1
        /\ forall e, e < n -> calculateLevel e <= 2)
    /\ (2 = 20 -> n = 19000 /\ n <= 105).
Proof.
  apply (getExpForNextLevel_is_next (mkLevelSystem 2 105 105 [] 0 0)).
  split; [simpl; lia | reflexivity].
Defined.

End ProgressProperties.

(** ** LevelSystem: titles, badges and saved progress *)

Section TitleFacts.
Import Level Progress.

(** On keys in ascending order the loop ends on the entry of the greatest
    key the level has reached, or on the title it started from when the
    level is below every key. *)
Lemma titleLoop_greatest (entries : list (Z * Title)) :
  StronglySorted Z.lt (map fst entries) ->
  forall level t0,
    (exists k,
        In (k, titleLoop entries level t0) entries
        /\ k <= level
        /\ forall k' t', In (k', t') entries -> k' <= level -> k' <= k)
    \/ (titleLoop entries level t0 = t0
        /\ forall k' t', In (k', t') entries -> level < k').
Proof.
  induction entries as [|[k t] rest IH]; intros Hs level t0.
  - right. split; [reflexivity | intros k' t' []].
  - cbn [map fst] in Hs. inversion Hs as [|? ? Hrest Hall]; subst.
    cbn [titleLoop].
    destruct (Z.leb_spec k level) as [Hk|Hk].
    + left. destruct (IH Hrest level t) as [[k1 [Hin [Hle Hmax]]]|[Heq Hnone]].
      * exists k1. split; [now right|]. split; [exact Hle|].
        intros k' t' [Heq'|Hin'] Hk'.
        -- injection Heq' as <- <-.
           rewrite Forall_forall in Hall.
           assert (k < k1); [|lia].
           apply Hall. apply (in_map fst) in Hin. exact Hin.
        -- now apply (Hmax k' t').
      * exists k. rewrite Heq. split; [now left|]. split; [exact Hk|].
        intros k' t' [Heq'|Hin'] Hk'.
        -- injection Heq' as <- <-. lia.
        -- specialize (Hnone k' t' Hin'). lia.
    + destruct (IH Hrest level t0) as [[k1 [Hin [Hle Hmax]]]|[Heq Hnone]].
      * left. exists k1. split; [now right|]. split; [exact Hle|].
        intros k' t' [Heq'|Hin'] Hk'.
        -- injection Heq' as <- <-. lia.
        -- now apply (Hmax k' t').
      * right. split; [exact Heq|].
        intros k' t' [Heq'|Hin'].
        -- injection Heq' as <- <-. exact Hk.
        -- now apply (Hnone k' t').
Qed.

Lemma expertTitles_sorted : StronglySorted Z.lt (map fst expertTitles).
Proof.
  cbn [map fst expertTitles].
  repeat (constructor; [|repeat constructor; lia]). constructor.
Qed.

End TitleFacts.

Section TitleProperties.
Import Level Progress.

(** X3. [getCurrentTitle] returns the title of the highest tier (1, 3, 5,
    8, 12, 15, 18, 20) whose level the player has reached, and the title
    of tier 1 when the level is below 1. *)
Theorem getCurrentTitle_highest_tier :
  forall ls : LevelSystem,
    exists k,
      In (k, getCurrentTitle ls) expertTitles
      /\ (forall k' t', In (k', t') expertTitles ->
                        k' <= currentLevel ls -> k' <= k)
      /\ (k <= currentLevel ls \/ (currentLevel ls < 1 /\ k = 1)).
Proof.
  intro ls. unfold getCurrentTitle.
  destruct (titleLoop_greatest expertTitles expertTitles_sorted
              (currentLevel ls) (mkTitle "AWS 입문자" "#95a5a6" "🌱"))
    as [[k [Hin [Hle Hmax]]]|[Heq Hnone]].
  - exists k. split; [exact Hin|]. split; [exact Hmax|]. now left.
  - exists 1. rewrite Heq. split; [now left|].
    assert (H1 : currentLevel ls < 1).
    { apply (Hnone 1 (mkTitle "AWS 입문자" "#95a5a6" "🌱")). now left. }
    split; [|right; split; [exact H1 | reflexivity]].
    intros k' t' Hin Hk'. specialize (Hnone k' t' Hin). lia.
Qed.

End TitleProperties.

Section BadgeFacts.
Import Level Progress.
Context (R : Rounding).

Lemma NoDup_keys_filter {A} (f : string * A -> bool) (l : list (string * A)) :
  NoDup (map fst l) -> NoDup (map fst (filter f l)).
Proof.
  induction l as [|[k a] rest IH]; intro H; [constructor|].
  cbn [map fst] in H. inversion H as [|? ? Hk Hrest]; subst.
  cbn [filter]. destruct (f (k, a)); [|now apply IH].
  cbn [map fst]. constructor; [|now apply IH].
  intro Hin. apply Hk. apply in_map_iff in Hin.
  destruct Hin as [d [Hd Hin]]. apply filter_In in Hin.
  apply in_map_iff. exists d. tauto.
Qed.

Lemma newlyUnlocked_keys unlocked stats qr :
  NoDup (map fst (newlyUnlocked unlocked stats qr))
  /\ incl (map fst (newlyUnlocked unlocked stats qr))
          (map fst achievementDefinitions).
Proof.
  unfold newlyUnlocked. split.
  - apply NoDup_keys_filter. apply achievementDefinitions_keys_distinct.
  - intros k Hk. apply in_map_iff in Hk. destruct Hk as [d [<- Hd]].
    apply filter_In in Hd. apply in_map. tauto.
Qed.

Lemma checkAchievements_sound gm ls qr :
  badges_sound ls -> badges_sound (fst (checkAchievements gm ls qr)).
Proof.
  intros [Hnd Hincl]. rewrite checkAchievements_filter.
  unfold badges_sound. cbn [fst setAchievements achievements].
  destruct (newlyUnlocked_keys (achievements ls) (getPlayerStats gm ls) qr)
    as [Hnd' Hincl'].
  split.
  - apply NoDup_app; [exact Hnd | exact Hnd' |].
    intros id Hid. now apply newlyUnlocked_fresh.
  - now apply incl_app.
Qed.

Lemma addScore_sound gm ls score qr :
  badges_sound ls -> badges_sound (fst (addScore gm ls score qr)).
Proof.
  intro H. rewrite addScore_state. apply checkAchievements_sound. exact H.
Qed.

Lemma run_sound (calls : list Call) :
  forall ls, badges_sound ls -> badges_sound (run ls calls).
Proof.
  induction calls as [|c rest IH]; intros ls H; cbn [run]; [exact H|].
  apply IH. now apply addScore_sound.
Qed.

Lemma lookupDefinition_known (defs : list (string * Achievement)) (k : string) :
  In k (map fst defs) -> lookupDefinition defs k <> None.
Proof.
  induction defs as [|[k' a] rest IH]; intro H; [destruct H|].
  cbn [lookupDefinition]. destruct (String.eqb_spec k' k) as [|Hne];
    [discriminate|].
  apply IH. destruct H as [H|H]; [contradiction | exact H].
Qed.

Lemma lookupDefinition_In (defs : list (string * Achievement)) (d : string * Achievement) :
  NoDup (map fst defs) -> In d defs ->
  lookupDefinition defs (fst d) = Some (snd d).
Proof.
  induction defs as [|[k' a] rest IH]; intros Hnd Hin; [destruct Hin|].
  cbn [map fst] in Hnd. inversion Hnd as [|? ? Hk Hrest]; subst.
  cbn [lookupDefinition]. destruct Hin as [<-|Hin].
  - cbn [fst snd]. now rewrite String.eqb_refl.
  - destruct (String.eqb_spec k' (fst d)) as [E|_]; [|now apply IH].
    exfalso. apply Hk. rewrite E. now apply in_map.
Qed.

Lemma known_all_defined (ids : list string) :
  incl ids (map fst achievementDefinitions) ->
  Forall (fun o => o <> None) (map (lookupDefinition achievementDefinitions) ids).
Proof.
  intro H. apply Forall_forall. intros o Ho.
  apply in_map_iff in Ho. destruct Ho as [k [<- Hk]].
  apply lookupDefinition_known. now apply H.
Qed.

Lemma incl_skipn {A} (n : nat) (l : list A) : incl (skipn n l) l.
Proof.
  intros x Hx. rewrite <- (firstn_skipn n l). apply in_or_app. now right.
Qed.

End BadgeFacts.

Section BadgeProperties.
Import Level Progress.

(** X4. In every state reached from a new player by [addScore] calls the
    unlocked list holds no id twice and only ids of definitions; so at
    most 11 badges are earned, [getAchievementProgress] reports a
    percentage between 0 and 100, and [getAllAchievements] and
    [getRecentAchievements] hold no [undefined] entry. *)
Theorem badges_stay_sound (R : Rounding) :
  badges_sound fresh
  /\ forall (ls : LevelSystem) (calls : list Call),
       badges_sound ls ->
       let ls' := run ls calls in
       badges_sound ls'
       /\ ap_earned (getAchievementProgress ls')
          <= ap_total (getAchievementProgress ls')
       /\ ap_total (getAchievementProgress ls') = 11
       /\ 0 <= ap_percentage (getAchievementProgress ls') <= 100
       /\ Forall (fun o => o <> None) (getAllAchievements ls')
       /\ Forall (fun o => o <> None) (getRecentAchievements ls').
Proof.
  split.
  - split; [constructor | intros x []].
  - intros ls calls Hls ls'.
    assert (Hs : badges_sound ls') by now apply run_sound.
    destruct Hs as [Hnd Hincl].
    assert (Hlen : (List.length (achievements ls')
                    <= List.length achievementDefinitions)%nat).
    { rewrite <- (length_map fst achievementDefinitions).
      now apply NoDup_incl_length. }
    split; [split; assumption|].
    split; [cbn [getAchievementProgress ap_earned ap_total]; lia|].
    split; [reflexivity|].
    split.
    + cbn [getAchievementProgress ap_percentage].
      apply mathRound_range.
      remember (Z.of_nat (List.length (achievements ls'))) as e eqn:He.
      change (Z.of_nat (List.length achievementDefinitions)) with 11.
      assert (He11 : 0 <= e <= 11)
        by (subst e; cbn [List.length achievementDefinitions] in Hlen; lia).
      split.
      * apply rnd_nonneg. apply Qmult_le_0_compat; [|discriminate].
        apply rnd_nonneg. apply ratio_nonneg; lia.
      * apply rnd_le_Z; [simpl; lia|].
        change (inject_Z 100) with (1 * 100)%Q.
        apply Qmult_le_compat_r; [|discriminate].
        apply (rnd_le_Z R _ 1); [simpl; lia|]. apply ratio_le_1; lia.
    + split.
      * now apply known_all_defined.
      * unfold getRecentAchievements. apply known_all_defined.
        intros x Hx. apply Hincl. eapply incl_skipn. exact Hx.
Qed.

Lemma badges_stay_sound_witness :
  let ls' := run (R := exact_rounding) fresh [plainCall 100; plainCall 5000] in
  achievements ls' = ["high_scorer"%string]
  /\ badges_sound (R := exact_rounding) ls'
  /\ ap_percentage (getAchievementProgress (R := exact_rounding) ls') = 9.
Proof.
  cbv zeta. split; [reflexivity|]. split; [|reflexivity].
  apply (proj2 (badges_stay_sound exact_rounding) fresh).
  split; [constructor | intros x []].
Defined.

(** X5. The [newAchievements] field returned by [addScore] never has more
    than five entries.  When the call unlocks at most five badges, they
    are its last entries, in the order of the definitions, and the entries
    before them are the most recent of the badges unlocked earlier, so
    the field is not empty when the call unlocks nothing but badges were
    held before. *)
Theorem addScore_newAchievements_recent (R : Rounding) :
  forall gm (ls : LevelSystem) score qr,
    let out := addScore gm ls score qr in
    let new := newlyUnlocked (achievements ls)
                 (getPlayerStats gm (scored ls score qr)) qr in
    (List.length (newAchievements (snd out)) <= 5)%nat
    /\ ((List.length new <= 5)%nat ->
        newAchievements (snd out)
        = map (lookupDefinition achievementDefinitions)
              (skipn (List.length (achievements ls) - (5 - List.length new))
                     (achievements ls))
          ++ map (fun d => Some (snd d)) new).
Proof.
  intros gm ls score qr out new. subst out.
  cbn [addScore snd newAchievements]. unfold getRecentAchievements.
  rewrite checkAchievements_filter. cbn [fst setAchievements achievements].
  change (achievements (scored ls score qr)) with (achievements ls).
  fold new. split.
  - rewrite length_map, length_skipn. lia.
  - intro Hnew. rewrite skipn_app, map_app, length_app, length_map.
    replace (List.length (achievements ls) + List.length new - 5
             - List.length (achievements ls))%nat with 0%nat by lia.
    cbn [skipn].
    replace (List.length (achievements ls) + List.length new - 5)%nat
      with (List.length (achievements ls) - (5 - List.length new))%nat by lia.
    f_equal. rewrite map_map. apply map_ext_in. intros d Hd.
    apply lookupDefinition_In; [apply achievementDefinitions_keys_distinct|].
    unfold new, newlyUnlocked in Hd. apply filter_In in Hd. tauto.
Qed.

Lemma addScore_newAchievements_recent_witness :
  List.length
    (newAchievements
       (snd (addScore (R := exact_rounding) one_correct_game badgeHolder 0 None)))
  = 1%nat.
Proof.
  pose proof (proj2 (addScore_newAchievements_recent exact_rounding
                       one_correct_game badgeHolder 0 None)) as H.
  cbv zeta in H. rewrite H; [reflexivity | simpl; lia].
Defined.

End BadgeProperties.

Section SavedProgress.
Import Level Progress.

Lemma orNumber_same (v d : Z) : (v = 0 -> d = 0) -> orNumber (Some v) d = v.
Proof.
  intro H. unfold orNumber. destruct (Z.eqb_spec v 0) as [E|_];
    [rewrite (H E); now rewrite E | reflexivity].
Qed.

Lemma orNumber_level (value : option Z) : orNumber value 1 <> 0.
Proof.
  unfold orNumber. destruct value as [v|]; [|discriminate].
  destruct (Z.eqb_spec v 0); [discriminate | assumption].
Qed.

(** X6. Saved progress loads back unchanged, whatever the instance held
    before, provided the saved level is not 0; a level of 0 comes back as
    1, and no load ever yields level 0.  What [addScore] saves at its end
    always loads back as the state it left, so a new page continues where
    the last call stopped. *)
Theorem saved_progress_round_trip (R : Rounding) :
  (forall ls before : LevelSystem,
      currentLevel ls <> 0 ->
      loadUserProgress before (saveUserProgress ls) = ls)
  /\ (forall ls before : LevelSystem,
         currentLevel ls = 0 ->
         currentLevel (loadUserProgress before (saveUserProgress ls)) = 1)
  /\ (forall (before : LevelSystem) (pd : ProgressData),
         currentLevel (loadUserProgress before (Saved pd)) <> 0)
  /\ (forall gm (ls : LevelSystem) score qr,
         construct (snd (addScoreAndSave gm ls score qr))
         = fst (addScoreAndSave gm ls score qr)).
Proof.
  assert (Hrt : forall ls before : LevelSystem,
             currentLevel ls <> 0 ->
             loadUserProgress before (saveUserProgress ls) = ls).
  { intros [l e t a s m] before Hl. cbn [currentLevel] in Hl.
    cbn [saveUserProgress loadUserProgress pd_level pd_exp pd_totalScore
         pd_achievements pd_streakCount pd_maxStreak orArray
         currentLevel currentExp ls_totalScore achievements streakCount maxStreak].
    rewrite !orNumber_same by (intro; try reflexivity; contradiction).
    reflexivity. }
  split; [exact Hrt|]. split; [|split].
  - intros [l e t a s m] before Hl. cbn [currentLevel] in Hl. subst l.
    reflexivity.
  - intros before pd. cbn [loadUserProgress currentLevel]. apply orNumber_level.
  - intros gm ls score qr. unfold addScoreAndSave, construct. cbn [fst snd].
    apply Hrt. rewrite addScore_level.
    pose proof (calculateLevel_range (currentExp ls + score)). lia.
Qed.

Lemma saved_progress_round_trip_witness :
  loadUserProgress fresh (saveUserProgress badgeHolder) = badgeHolder
  /\ currentLevel
       (loadUserProgress fresh (saveUserProgress (mkLevelSystem 0 0 0 [] 0 0)))
     = 1.
Proof.
  split.
  - apply (proj1 (saved_progress_round_trip exact_rounding)). discriminate.
  - apply (proj1 (proj2 (saved_progress_round_trip exact_rounding))). reflexivity.
Defined.

End SavedProgress.

(** ** GameManager: hints, timer and answers in the course of a question *)

Section HintCounting.
Import Npc.

Lemma requestNpcHint_returns (n : NPCSystem) (q : Question) (level : Z)
  (remote : Remote) :
  1 <= level <= 3 ->
  exists n' r, requestNpcHint n q level remote = (n', Return r).
Proof.
  intro Hl. unfold requestNpcHint.
  destruct (noNpc (npc_currentNpc n)); [eauto|].
  destruct (remoteFails remote) eqn:Hr.
  - destruct (remoteAttempt_fails n remote Hr) as [n1 [e [Ha _]]]. rewrite Ha.
    destruct (fallbackAttempt_returns n1 q level Hl) as [h [Hf _]].
    rewrite Hf. eauto.
  - destruct (remoteAttempt_succeeds n remote Hr) as [hd [_ Ha]].
    rewrite Ha. eauto.
Qed.

(** A hint request leaves the game manager alone or counts one hint. *)
Lemma requestHint_game (s : Session) (remote : Remote) :
  game (fst (requestHint s remote)) = game s
  \/ (hintsUsed (game s) < 3
      /\ game (fst (requestHint s remote))
         = setHintsUsed (game s) (hintsUsed (game s) + 1)).
Proof.
  unfold requestHint.
  destruct (currentQuestion (game s)) as [q|]; [|now left].
  destruct (Z.leb_spec 3 (hintsUsed (game s))) as [|Hlt]; [now left|].
  destruct (npcSystem s) as [n|]; [|right; split; [exact Hlt | reflexivity]].
  destruct (noNpc (currentNpc (game s)));
    [right; split; [exact Hlt | reflexivity]|].
  destruct (provideHint n q (hintsUsed (game s) + 1) remote) as [n1 [r|e]];
    [right; split; [exact Hlt | reflexivity] | now left].
Qed.

Lemma requestHint_never_fails (s : Session) (remote : Remote) (e : string) :
  0 <= hintsUsed (game s) -> snd (requestHint s remote) <> HintFailed e.
Proof.
  intro H0. unfold requestHint.
  destruct (currentQuestion (game s)) as [q|]; [|discriminate].
  destruct (Z.leb_spec 3 (hintsUsed (game s))) as [|Hlt]; [discriminate|].
  destruct (npcSystem s) as [n|]; [|discriminate].
  destruct (noNpc (currentNpc (game s))); [discriminate|].
  unfold provideHint.
  destruct (requestNpcHint_returns n q (hintsUsed (game s) + 1) remote
              ltac:(lia)) as [n1 [r Hreq]].
  rewrite Hreq. discriminate.
Qed.

(** With a question loaded, an NPC chosen in both objects, fewer than
    three hints used and a failing remote service, the request returns
    the fallback hint of the next level and counts it. *)
Lemma requestHint_fallback_step (g : GameManager) (n : NPCSystem)
  (q : Question) (remote : Remote) :
  currentQuestion g = Some q ->
  0 <= hintsUsed g < 3 ->
  noNpc (currentNpc g) = false ->
  noNpc (npc_currentNpc n) = false ->
  remoteFails remote = true ->
  exists h,
    requestHint (mkSession g (Some n)) remote
    = (mkSession (setHintsUsed g (hintsUsed g + 1)) (Some (setTyping n false)),
       HintProvided (RetFallback h))
    /\ generateEnhancedFallbackHint n q (hintsUsed g + 1) = Return h
    /\ hintLevel h = hintsUsed g + 1.
Proof.
  intros Hq Hh Hg Hn Hr. unfold requestHint. cbn [game npcSystem].
  rewrite Hq. destruct (Z.leb_spec 3 (hintsUsed g)) as [|_]; [lia|].
  rewrite Hg. unfold provideHint, requestNpcHint. rewrite Hn.
  destruct (remoteAttempt_fails n remote Hr) as [n1 [e [Ha Hsame]]].
  rewrite Ha.
  destruct (fallbackAttempt_returns n1 q (hintsUsed g + 1) ltac:(lia))
    as [h [Hf Hgen]].
  rewrite Hf. exists h.
  rewrite (generateEnhancedFallbackHint_same n1 n q _ Hsame) in Hgen.
  split; [unfold setTyping; now rewrite Hsame|].
  split; [exact Hgen|].
  destruct (generateEnhancedFallbackHint_returns n q (hintsUsed g + 1)
              ltac:(lia)) as [h' [Hg' [_ [Hlv _]]]].
  congruence.
Qed.

End HintCounting.

(** ** GameManager: the events of a session in any order *)

(** A play taken apart into the fields of its records. *)
Ltac open_play p :=
  let g := fresh "g" in
  let o := fresh "o" in
  let t := fresh "t" in
  let hp := fresh "hp" in
  let ap := fresh "ap" in
  destruct p as [[g o] t hp ap];
  destruct g as [cq cn tr hu qa ca sa].

(** The projections of the records, computed away. *)
Ltac fields :=
  cbn [Play.session Play.questionTimer Play.hintsPending Play.answersPending
       Npc.game Npc.npcSystem Npc.npc_currentNpc Npc.isTyping
       currentQuestion currentNpc timeRemaining hintsUsed questionsAnswered
       correctAnswers selectedAnswer fst snd] in *.

Section PlayFacts.
Import Npc Play.
Context (R : Rounding).

Lemma play_step (p : Play) (e : Event) (rest : list Event) :
  play p (e :: rest)
  = (fst (play (fst (step p e)) rest),
     snd (step p e) :: snd (play (fst (step p e)) rest)).
Proof.
  cbn [play]. destruct (step p e) as [p1 o]. cbn [fst snd].
  destruct (play p1 rest) as [p2 os]. reflexivity.
Qed.

Lemma play_app (events1 events2 : list Event) :
  forall p,
    play p (events1 ++ events2)
    = (fst (play (fst (play p events1)) events2),
       snd (play p events1) ++ snd (play (fst (play p events1)) events2)).
Proof.
  induction events1 as [|e rest IH]; intro p.
  - cbn [app play fst snd]. now destruct (play p events2).
  - rewrite <- app_comm_cons, !play_step, IH. reflexivity.
Qed.

Lemma Forall_without {A : Type} (P : A -> Prop) (l : list A) :
  forall k, Forall P l -> Forall P (without k l).
Proof.
  induction l as [|x l IH]; intros k H; [destruct k; exact H|].
  inversion H; subst. destruct k; cbn [without]; [assumption|].
  constructor; [assumption | now apply IH].
Qed.

Lemma length_without {A : Type} (l : list A) :
  forall k x, nth_error l k = Some x ->
              List.length l = S (List.length (without k l)).
Proof.
  induction l as [|y l IH]; intros k x H; [destruct k; discriminate|].
  destruct k; cbn [without List.length]; [reflexivity|].
  cbn [nth_error] in H. now rewrite (IH k x H).
Qed.

(** The guard of [requestNpcHint] apart, a call is its two blocks. *)
Lemma requestNpcHint_blocks (n : NPCSystem) (q : Question) (level : Z)
  (remote : Remote) :
  requestNpcHint n q level remote
  = if noNpc (npc_currentNpc n) then (n, Return RetNull)
    else requestNpcHint_rest n q level remote.
Proof. reflexivity. Qed.

(** With a level from 1 to 3 the two blocks return a hint, which is not
    [null], and leave the NPC of the NPC system as it is. *)
Lemma requestNpcHint_rest_returns (n : NPCSystem) (q : Question) (level : Z)
  (remote : Remote) :
  1 <= level <= 3 ->
  exists n' r,
    requestNpcHint_rest n q level remote = (n', Return r)
    /\ r <> RetNull
    /\ npc_currentNpc n' = npc_currentNpc n.
Proof.
  intro Hl. unfold requestNpcHint_rest.
  destruct (remoteFails remote) eqn:Hr.
  - destruct (remoteAttempt_fails n remote Hr) as [n1 [e [Ha Hsame]]].
    rewrite Ha.
    destruct (fallbackAttempt_returns n1 q level Hl) as [h [Hf _]].
    rewrite Hf. exists (setTyping n1 false), (RetFallback h).
    split; [reflexivity|]. split; [discriminate | exact Hsame].
  - destruct (remoteAttempt_succeeds n remote Hr) as [hd [_ Ha]].
    rewrite Ha. exists (setTyping n false), (RetRemote hd).
    split; [reflexivity|]. split; [discriminate | reflexivity].
Qed.

End PlayFacts.

Section InvariantFacts.
Import Npc Play.
Context (R : Rounding).

Lemma in_play_selectOption (p : Play) (id : string) :
  in_play p -> in_play (selectOption p id).
Proof. open_play p. unfold in_play, currentGame. cbn. tauto. Qed.

Lemma in_play_reset (p : Play) : in_play p -> in_play (resetGameState p).
Proof.
  open_play p. unfold in_play, currentGame. cbn.
  intros [_ [Hs [_ Hl]]]. split; [lia|]. split; [exact Hs|].
  split; [reflexivity | exact Hl].
Qed.

Lemma in_play_load (p : Play) (q : Question) :
  0 <= correctAnswers (currentGame p) <= questionsAnswered (currentGame p) ->
  Forall (fun w => 1 <= snd w <= 3) (hintsPending p) ->
  1 <= timeLimit q ->
  in_play (loadQuestion p q).
Proof.
  open_play p. unfold in_play, currentGame. cbn.
  intros Hs Hl HL. split; [lia|]. split; [exact Hs|].
  split; [|exact Hl].
  split; [exact HL|]. split; [lia|]. intros _. exact HL.
Qed.

Lemma in_play_selectNpc (p : Play) (id : string) (q : Question) :
  in_play p -> 1 <= timeLimit q -> in_play (selectNpc p id q).
Proof.
  intros Hp HL. unfold selectNpc.
  assert (Hs : 0 <= correctAnswers (currentGame p)
               <= questionsAnswered (currentGame p)) by apply Hp.
  assert (Hl : Forall (fun w => 1 <= snd w <= 3) (hintsPending p))
    by apply Hp.
  destruct (npcSystem (session p)) as [n|].
  - destruct (unset (Some id)); [now apply in_play_load|].
    destruct (knownNpc id); [now apply in_play_load|].
    revert Hp. open_play p. unfold in_play, currentGame. cbn. tauto.
  - now apply in_play_load.
Qed.

Lemma in_play_hint_first (p : Play) :
  in_play p -> in_play (fst (requestHint_first p)).
Proof.
  open_play p. unfold in_play, requestHint_first, currentGame.
  fields.
  intros [Hh [Hs [Hq Hl]]].
  destruct cq as [q|]; [|cbn; tauto].
  destruct (Z.leb_spec 3 hu) as [|Hlt]; [cbn; tauto|].
  destruct o as [n|].
  - destruct (noNpc cn); [cbn; repeat split; try tauto; lia|].
    destruct (noNpc (npc_currentNpc n)); [cbn; repeat split; try tauto; lia|].
    cbn. repeat split; try tauto.
    apply Forall_app. split; [exact Hl|]. constructor; [cbn; lia | constructor].
  - cbn. repeat split; try tauto; lia.
Qed.

Lemma in_play_hint_rest (p : Play) (k : nat) (remote : Remote) :
  in_play p -> in_play (fst (requestHint_rest p k remote)).
Proof.
  open_play p. unfold in_play, requestHint_rest, currentGame.
  fields.
  intros [Hh [Hs [Hq Hl]]].
  destruct (nth_error hp k) as [[q level]|]; [|cbn; tauto].
  destruct o as [n|]; [|cbn; tauto].
  pose proof (Forall_without _ hp k Hl) as Hl'.
  destruct (requestNpcHint_rest n q level remote) as [n1 [r|e]]; cbn;
    repeat split; try tauto; lia.
Qed.

Lemma in_play_submit_first (p : Play) :
  in_play p -> in_play (fst (submitAnswer_first p)).
Proof.
  open_play p. unfold in_play, submitAnswer_first, currentGame.
  fields.
  intros [Hh [Hs [Hq Hl]]].
  destruct cq as [q|]; [|cbn; tauto].
  destruct (unset sa); cbn; repeat split; try tauto. discriminate.
Qed.

Lemma in_play_submit_rest (p : Play) :
  in_play p -> in_play (fst (submitAnswer_rest p)).
Proof.
  open_play p. unfold in_play, submitAnswer_rest, currentGame.
  fields.
  intros [Hh [Hs [Hq Hl]]].
  destruct ap as [|waiting]; [cbn; tauto|].
  unfold Score.calculateScore. cbn [currentQuestion].
  destruct cq as [q|]; [|cbn; tauto].
  cbn [npcSystem currentNpc].
  destruct o as [n|]; [|cbn; tauto].
  destruct (unset cn); [cbn; tauto|].
  destruct (showAnswerResponse n) as [n1 [u|e]]; [|cbn; tauto].
  cbn. split; [exact Hh|]. split; [|tauto].
  match goal with |- context [if ?b then _ else _] => destruct b end; lia.
Qed.

Lemma in_play_tick (p : Play) : in_play p -> in_play (fst (tick p)).
Proof.
  intro Hp. unfold tick.
  destruct (questionTimer p) eqn:Ht; [|exact Hp].
  destruct (Z.leb_spec (timeRemaining (currentGame p) - 1) 0) as [Hz|Hz].
  - unfold timeUp. apply in_play_submit_first.
    revert Ht Hz Hp. open_play p. unfold in_play, currentGame. cbn.
    intros -> Hz [Hh [Hs [Hq Hl]]].
    destruct cq as [q|]; [|discriminate].
    destruct Hq as [HL [Hr H1]]. specialize (H1 eq_refl).
    destruct (unset sa); cbn; repeat split; try tauto; try lia; discriminate.
  - revert Ht Hz Hp. open_play p. unfold in_play, currentGame. cbn.
    intros -> Hz [Hh [Hs [Hq Hl]]].
    destruct cq as [q|]; [|discriminate].
    destruct Hq as [HL [Hr H1]].
    repeat split; try tauto; lia.
Qed.

Lemma in_play_step (p : Play) (e : Event) :
  in_play p -> timed e -> in_play (fst (step p e)).
Proof.
  intros Hp He. destruct e as [id q0|q0|id| |k remote| | | |]; cbn [step fst].
  - now apply in_play_selectNpc.
  - pose proof (in_play_reset p Hp) as H. apply in_play_load; [apply H.. | exact He].
  - now apply in_play_selectOption.
  - now apply in_play_hint_first.
  - now apply in_play_hint_rest.
  - now apply in_play_submit_first.
  - now apply in_play_submit_rest.
  - now apply in_play_tick.
  - now apply in_play_reset.
Qed.

Lemma in_play_play (events : list Event) :
  forall p, in_play p -> Forall timed events -> in_play (fst (play p events)).
Proof.
  induction events as [|e rest IH]; intros p Hp Hall; [exact Hp|].
  inversion Hall; subst. rewrite play_step. cbn [fst].
  apply IH; [|assumption]. now apply in_play_step.
Qed.

Lemma in_play_initial : in_play initial.
Proof.
  unfold in_play, currentGame. cbn. repeat split; try lia. constructor.
Qed.

(** What an event does to the hints counted and to the hint calls
    waiting. *)
Lemma step_hints (p : Play) (e : Event) :
  let h := hintsUsed (currentGame p) in
  let w := Z.of_nat (List.length (hintsPending p)) in
  let h' := hintsUsed (currentGame (fst (step p e))) in
  let w' := Z.of_nat (List.length (hintsPending (fst (step p e)))) in
  (h' = h /\ w' = w)
  \/ (h' = 0 /\ w' = w)
  \/ (e = RequestHint /\ h < 3 /\ h' = h + 1 /\ w' = w)
  \/ (e = RequestHint /\ h < 3 /\ h' = h /\ w' = w + 1)
  \/ (1 <= w /\ h <= h' <= h + 1 /\ w' = w - 1).
Proof.
  destruct e as [id q0|q0|id| |k remote| | | |]; cbn [step fst].
  - unfold selectNpc.
    destruct (npcSystem (session p)) as [n|];
      [destruct (unset (Some id)); [|destruct (knownNpc id)]|];
      open_play p; cbn; auto.
  - open_play p; cbn; auto.
  - open_play p; cbn; auto.
  - open_play p. unfold requestHint_first, currentGame.
    fields.
    destruct cq as [q|]; [|cbn; auto].
    destruct (Z.leb_spec 3 hu) as [|Hlt]; [cbn; auto|].
    destruct o as [n|].
    + destruct (noNpc cn); [cbn; right; right; left; auto|].
      destruct (noNpc (npc_currentNpc n)); [cbn; right; right; left; auto|].
      fields.
      right; right; right; left. rewrite length_app. cbn [List.length].
      repeat split; try assumption; lia.
    + cbn; right; right; left; auto.
  - open_play p. unfold requestHint_rest, currentGame.
    fields.
    destruct (nth_error hp k) as [[q level]|] eqn:Hk; [|cbn; auto].
    destruct o as [n|]; [|cbn; auto].
    pose proof (length_without hp k _ Hk) as Hlen.
    destruct (requestNpcHint_rest n q level remote) as [n1 [r|e]]; cbn.
    + right; right; right; right. rewrite Hlen. lia.
    + right; right; right; right. rewrite Hlen. lia.
  - open_play p. unfold submitAnswer_first, currentGame.
    fields.
    destruct cq as [q|]; [|cbn; auto].
    destruct (unset sa); cbn; auto.
  - open_play p. unfold submitAnswer_rest, currentGame.
    fields.
    destruct ap as [|waiting]; [cbn; auto|].
    unfold Score.calculateScore. cbn [currentQuestion].
    destruct cq as [q|]; [|cbn; auto].
    cbn [npcSystem currentNpc].
    destruct o as [n|]; [|cbn; auto].
    destruct (unset cn); [cbn; auto|].
    destruct (showAnswerResponse n) as [n1 [u|e]]; cbn; auto.
  - unfold tick. destruct (questionTimer p); [|auto].
    destruct (Z.leb _ 0); [|open_play p; cbn; auto].
    unfold timeUp, submitAnswer_first. open_play p. unfold currentGame. cbn.
    destruct (unset sa); cbn; destruct cq; cbn; auto.
    destruct (unset sa); cbn; auto.
  - open_play p; cbn; auto.
Qed.

End InvariantFacts.

Section TurnFacts.
Import Npc Play.
Context (R : Rounding).

Lemma in_turn_round (p : Play) : in_turn p -> in_round p.
Proof.
  intros [[Hh [Hs [Hq _]]] Hsum]. split; [lia|]. split; assumption.
Qed.

Lemma in_turn_step (p : Play) (e : Event) :
  in_turn p -> timed e -> unhurried p e -> in_turn (fst (step p e)).
Proof.
  intros [Hp Hsum] He Hu. split; [now apply in_play_step|].
  assert (H0 : 0 <= hintsUsed (currentGame p)) by apply Hp.
  destruct (step_hints R p e)
    as [[-> ->]|[[-> ->]|[[-> [Hlt [-> ->]]]|[[-> [Hlt [-> ->]]]|[Hw [Hh ->]]]]]];
    try lia.
  - cbn [unhurried] in Hu. rewrite Hu in *. cbn [List.length] in *. lia.
  - cbn [unhurried] in Hu. rewrite Hu in *. cbn [List.length] in *. lia.
Qed.

Lemma in_turn_play (events : list Event) :
  forall p,
    in_turn p -> Forall timed events -> patient p events ->
    in_turn (fst (play p events)).
Proof.
  induction events as [|e rest IH]; intros p Hp Hall Hpat; [exact Hp|].
  inversion Hall; subst. destruct Hpat as [Hu Hpat].
  rewrite play_step. cbn [fst].
  apply IH; [|assumption..]. now apply in_turn_step.
Qed.

Lemma in_turn_initial : in_turn initial.
Proof. split; [apply in_play_initial | cbn; lia]. Qed.

(** No hint request ends in its [catch] block. *)
Lemma step_never_fails (p : Play) (e : Event) (err : string) :
  in_play p -> snd (step p e) <> Hinted (HintFailed err).
Proof.
  intro Hp. destruct e as [id q0|q0|id| |k remote| | | |]; cbn [step snd];
    try discriminate.
  - unfold requestHint_first.
    destruct (currentQuestion (currentGame p)); [|discriminate].
    destruct (Z.leb 3 (hintsUsed (currentGame p))); [discriminate|].
    destruct (npcSystem (session p)) as [n|]; [|discriminate].
    destruct (noNpc (currentNpc (currentGame p))); [discriminate|].
    destruct (noNpc (npc_currentNpc n)); discriminate.
  - unfold requestHint_rest.
    destruct (nth_error (hintsPending p) k) as [[q level]|] eqn:Hk;
      [|discriminate].
    destruct (npcSystem (session p)) as [n|]; [|discriminate].
    assert (Hl : 1 <= level <= 3).
    { destruct Hp as [_ [_ [_ Hl]]]. rewrite Forall_forall in Hl.
      apply (Hl (q, level)). eapply nth_error_In. exact Hk. }
    destruct (requestNpcHint_rest_returns n q level remote Hl)
      as [n1 [r [E _]]].
    rewrite E. discriminate.
  - unfold submitAnswer_first.
    destruct (currentQuestion (currentGame p)); [|discriminate].
    destruct (unset (selectedAnswer (currentGame p))); discriminate.
  - unfold submitAnswer_rest.
    destruct (answersPending p) as [|waiting]; [discriminate|].
    destruct (Score.calculateScore (currentGame p)); [|discriminate].
    destruct (npcSystem (session p)) as [n|]; [|discriminate].
    destruct (unset (currentNpc (currentGame p))); [discriminate|].
    destruct (showAnswerResponse n) as [n1 [u|e]]; discriminate.
  - unfold tick. destruct (questionTimer p); [|discriminate].
    destruct (Z.leb _ 0); [|discriminate].
    unfold timeUp, submitAnswer_first.
    match goal with
    | |- context [currentQuestion ?g] => destruct (currentQuestion g)
    end; [|discriminate].
    match goal with
    | |- context [unset (selectedAnswer ?g)] =>
        destruct (unset (selectedAnswer g))
    end; discriminate.
Qed.

Lemma play_never_fails (events : list Event) :
  forall p err,
    in_play p -> Forall timed events ->
    ~ In (Hinted (HintFailed err)) (snd (play p events)).
Proof.
  induction events as [|e rest IH]; intros p err Hp Hall; [intros []|].
  inversion Hall; subst. rewrite play_step. cbn [snd].
  intros [Hin|Hin].
  - exact (step_never_fails p e err Hp Hin).
  - apply (IH (fst (step p e)) err); [now apply in_play_step | assumption|].
    exact Hin.
Qed.

End TurnFacts.

Section RoundProperties.
Import Npc Play.

(** X7. From the state the constructors leave, through any sequence of
    NPC choices, question loads, option clicks, hint requests and their
    ends, submissions and their ends, timer ticks and session ends, in
    any order, in which every loaded question has a time limit of at
    least one second: the time remaining stays between 0 and the time
    limit, the timer runs only while a question is loaded with a second
    or more left, the correct answers never exceed the answers counted,
    the hints used are not negative, and no hint request ends in the
    caught-error notification.  The hints used stay at 3 or less as long
    as no hint is requested while another request is waiting for its
    hint; requested before the first of them has ended, four hints are
    counted. *)
Theorem round_invariant (R : Rounding) :
  in_turn initial
  /\ (forall p, in_turn p -> in_round p)
  /\ (forall p e, in_play p -> timed e ->
                  in_play (fst (step p e))
                  /\ forall err, snd (step p e) <> Hinted (HintFailed err))
  /\ (forall events,
         Forall timed events ->
         in_play (fst (play initial events))
         /\ forall err, ~ In (Hinted (HintFailed err))
                          (snd (play initial events)))
  /\ (forall p e, in_turn p -> timed e -> unhurried p e ->
                  in_turn (fst (step p e)))
  /\ (forall events,
         Forall timed events -> patient initial events ->
         in_turn (fst (play initial events))
         /\ hintsUsed (currentGame (fst (play initial events))) <= 3)
  /\ (Forall timed hurried
      /\ hintsUsed (currentGame (fst (play initial hurried))) = 4).
Proof.
  split; [apply in_turn_initial|].
  split; [apply in_turn_round|].
  split.
  { intros p e Hp He. split; [now apply in_play_step|].
    intro err. now apply step_never_fails. }
  split.
  { intros events Hall. split.
    - apply in_play_play; [apply in_play_initial | exact Hall].
    - intro err. apply play_never_fails; [apply in_play_initial | exact Hall]. }
  split; [apply in_turn_step|].
  split.
  { intros events Hall Hpat.
    assert (H : in_turn (fst (play initial events))).
    { apply in_turn_play; [apply in_turn_initial | assumption..]. }
    split; [exact H|]. apply (in_turn_round _ H). }
  split; [|reflexivity].
  repeat (apply Forall_cons; [unfold timed; simpl; try exact I; lia|]).
  apply Forall_nil.
Qed.

Lemma round_invariant_witness :
  hintsUsed
    (currentGame
       (fst (play (R := exact_rounding) initial
               (SelectNpc "alex_ceo" Score.example_question
                :: askHint FetchRejected ++ askHint FetchRejected
                ++ askHint FetchRejected ++ askHint FetchRejected))))
  <= 3.
Proof.
  apply (proj1 (proj2 (proj2 (proj2 (proj2 (proj2
           (round_invariant exact_rounding))))))).
  - repeat (apply Forall_cons; [unfold timed; simpl; try exact I; lia|]).
    apply Forall_nil.
  - simpl. repeat split.
Defined.

End RoundProperties.

Section AnswerFacts.
Import Npc Play.
Context (R : Rounding).

(** A score is shown by the rest of a submission only, and is calculated
    on the fields as they are then. *)
Lemma step_scored_from (p : Play) (e : Event) (r : ScoreResult) :
  snd (step p e) = Scored r ->
  e = AnswersRevealed
  /\ exists q,
       currentQuestion (currentGame p) = Some q
       /\ r = Score.scoreOf q (selectedAnswer (currentGame p))
                (timeRemaining (currentGame p)) (hintsUsed (currentGame p)).
Proof.
  destruct e as [id q0|q0|id| |k remote| | | |]; cbn [step snd];
    try discriminate.
  - unfold requestHint_first.
    destruct (currentQuestion (currentGame p)); [|discriminate].
    destruct (Z.leb 3 (hintsUsed (currentGame p))); [discriminate|].
    destruct (npcSystem (session p)) as [n|]; [|discriminate].
    destruct (noNpc (currentNpc (currentGame p))); [discriminate|].
    destruct (noNpc (npc_currentNpc n)); discriminate.
  - unfold requestHint_rest.
    destruct (nth_error (hintsPending p) k) as [[q level]|]; [|discriminate].
    destruct (npcSystem (session p)) as [n|]; [|discriminate].
    destruct (requestNpcHint_rest n q level remote) as [n1 [r'|e']];
      discriminate.
  - unfold submitAnswer_first.
    destruct (currentQuestion (currentGame p)); [|discriminate].
    destruct (unset (selectedAnswer (currentGame p))); discriminate.
  - unfold submitAnswer_rest.
    destruct (answersPending p) as [|waiting]; [discriminate|].
    unfold Score.calculateScore.
    destruct (currentQuestion (currentGame p)) as [q|]; [|discriminate].
    intro H. split; [reflexivity|]. exists q. split; [reflexivity|].
    destruct (npcSystem (session p)) as [n|]; [|cbn in H; congruence].
    destruct (unset (currentNpc (currentGame p))); [cbn in H; congruence|].
    destruct (showAnswerResponse n) as [n1 [u|e']]; cbn in H; congruence.
  - unfold tick. destruct (questionTimer p); [|discriminate].
    destruct (Z.leb _ 0); [|discriminate].
    unfold timeUp, submitAnswer_first.
    match goal with
    | |- context [currentQuestion ?g] => destruct (currentQuestion g)
    end; [|discriminate].
    match goal with
    | |- context [unset (selectedAnswer ?g)] =>
        destruct (unset (selectedAnswer g))
    end; discriminate.
Qed.

Lemma scoreOf_in_round (q : Question) (sel : option string) (tr hu : Z) :
  1 <= timeLimit q -> 0 <= tr <= timeLimit q -> 0 <= hu <= 3 ->
  let r := Score.scoreOf q sel tr hu in
  let floorBase :=
    Qfloor (inject_Z (points q) * Score.multiplierOf (difficulty q)) in
  baseScore r = points q
  /\ 0 <= timeBonus r <= 50
  /\ 0 <= hintPenalty r <= 30
  /\ (isCorrect r = true ->
      totalScore r = floorBase + timeBonus r - hintPenalty r
      /\ floorBase - 30 <= totalScore r <= floorBase + 50)
  /\ (isCorrect r = false -> totalScore r = 0).
Proof.
  intros HL Htr Hhu r floorBase. subst r floorBase.
  unfold Score.scoreOf.
  cbn [baseScore timeBonus hintPenalty isCorrect totalScore].
  assert (Hb : 0 <= Score.timeBonusOf tr (timeLimit q) <= 50).
  { split; [apply timeBonus_lower | apply timeBonus_upper; lia]. }
  split; [reflexivity|]. split; [exact Hb|]. split; [lia|].
  destruct (Score.strict_eq_answer sel (correctAnswer q)).
  - split; [|discriminate]. intros _.
    rewrite Qfloor_sub_Z, Qfloor_add_Z. lia.
  - split; [discriminate | reflexivity].
Qed.

(** A score shown by any event of a round is calculated on the loaded
    question within the bounds of the round. *)
Lemma step_scored (p : Play) (e : Event) (r : ScoreResult) :
  in_round p ->
  snd (step p e) = Scored r ->
  exists q,
    currentQuestion (currentGame p) = Some q
    /\ baseScore r = points q
    /\ 0 <= timeBonus r <= 50
    /\ 0 <= hintPenalty r <= 30
    /\ (isCorrect r = true ->
        totalScore r
        = Qfloor (inject_Z (points q) * Score.multiplierOf (difficulty q))
          + timeBonus r - hintPenalty r
        /\ Qfloor (inject_Z (points q) * Score.multiplierOf (difficulty q))
           - 30 <= totalScore r
           <= Qfloor (inject_Z (points q)
                      * Score.multiplierOf (difficulty q)) + 50)
    /\ (isCorrect r = false -> totalScore r = 0).
Proof.
  intros Hp Hs.
  destruct (step_scored_from p e r Hs) as [_ [q [Hq Hr]]].
  exists q. split; [exact Hq|].
  destruct Hp as [Hh [_ Hround]]. rewrite Hq in Hround.
  destruct Hround as [HL [Htr _]].
  rewrite Hr.
  exact (scoreOf_in_round q _ _ _ HL Htr Hh).
Qed.

(** A submission with a question and an option waits for its answers,
    with the timer stopped. *)
Lemma submitAnswer_first_waits (p : Play) (q : Question) :
  currentQuestion (currentGame p) = Some q ->
  unset (selectedAnswer (currentGame p)) = false ->
  submitAnswer_first p
  = (mkPlay (session p) false (hintsPending p) (S (answersPending p)), Quiet).
Proof.
  intros Hq Hsel. unfold submitAnswer_first. now rewrite Hq, Hsel.
Qed.

(** With a submission waiting, a question loaded and an NPC system able
    to react, the answer is scored on the fields as they are. *)
Lemma submitAnswer_rest_scores (p : Play) (q : Question) (waiting : nat) :
  answersPending p = S waiting ->
  currentQuestion (currentGame p) = Some q ->
  canReact p = true ->
  snd (submitAnswer_rest p)
  = Scored (Score.scoreOf q (selectedAnswer (currentGame p))
              (timeRemaining (currentGame p)) (hintsUsed (currentGame p)))
  /\ answersPending (fst (submitAnswer_rest p)) = waiting.
Proof.
  intros Hw Hq Hreact. unfold submitAnswer_rest, Score.calculateScore.
  rewrite Hw, Hq. unfold canReact in Hreact.
  destruct (npcSystem (session p)) as [n|]; [|split; reflexivity].
  destruct (unset (currentNpc (currentGame p))); [split; reflexivity|].
  unfold showAnswerResponse.
  destruct (npc_currentNpc n) as [id|]; [|split; reflexivity].
  destruct (truthyString id); cbn [negb orb] in *; [|split; reflexivity].
  rewrite Hreact. split; reflexivity.
Qed.

(** What a firing of the interval does. *)
Lemma tick_cases (p : Play) :
  in_round p ->
  (questionTimer p = false /\ tick p = (p, Quiet))
  \/ (questionTimer p = true
      /\ 1 < timeRemaining (currentGame p)
      /\ snd (tick p) = Quiet
      /\ timeRemaining (currentGame (fst (tick p)))
         = timeRemaining (currentGame p) - 1
      /\ questionTimer (fst (tick p)) = true)
  \/ (questionTimer p = true
      /\ timeRemaining (currentGame p) = 1
      /\ exists q,
           currentQuestion (currentGame p) = Some q
           /\ tick p
              = (mkPlay
                   (mkSession
                      (mkGameManager (Some q)
                         (currentNpc (currentGame p)) 0
                         (hintsUsed (currentGame p))
                         (questionsAnswered (currentGame p))
                         (correctAnswers (currentGame p))
                         (if unset (selectedAnswer (currentGame p))
                          then Some "A"%string
                          else selectedAnswer (currentGame p)))
                      (npcSystem (session p)))
                   false (hintsPending p) (S (answersPending p)),
                 Quiet)).
Proof.
  open_play p. unfold in_round, tick, currentGame. cbn.
  intros [Hh [Hs Hq]]. destruct t; [|left; split; reflexivity].
  right. destruct cq as [q|]; [|discriminate].
  destruct Hq as [HL [Hr H1]]. specialize (H1 eq_refl).
  destruct (Z.leb_spec (tr - 1) 0) as [Hz|Hz].
  - right. assert (tr = 1) by lia. subst tr.
    split; [reflexivity|]. split; [reflexivity|].
    exists q. split; [reflexivity|].
    unfold timeUp, submitAnswer_first, stopQuestionTimer, currentGame. cbn.
    destruct (unset sa) eqn:Hsa; cbn; [reflexivity|].
    now rewrite Hsa.
  - left. split; [reflexivity|]. split; [lia|]. repeat split.
Qed.

End AnswerFacts.

Section AnswerProperties.
Import Npc Play.

(** X8. Every score that the rest of a submission shows in a state of
    [in_round], whether a click or the timer submitted, is calculated on
    the loaded question with a time bonus between 0 and 50 and a hint
    penalty of at most 30: a correct answer scores
    [floor(points * multiplier) + timeBonus - hintPenalty], which lies
    between [floor(points * multiplier) - 30] and
    [floor(points * multiplier) + 50], and an incorrect one scores 0.  A
    submission with a question loaded and an option chosen stops the
    timer and waits for its answers; when they are revealed with the
    question still loaded and an NPC system able to react it does produce
    a score, calculated on the fields as they are by then, so the
    submission that nothing interrupts scores the fields it found. *)
Theorem scores_in_round (R : Rounding) :
  (forall p e r,
      in_round p ->
      snd (step p e) = Scored r ->
      exists q,
        currentQuestion (currentGame p) = Some q
        /\ baseScore r = points q
        /\ 0 <= timeBonus r <= 50
        /\ 0 <= hintPenalty r <= 30
        /\ (isCorrect r = true ->
            totalScore r
            = Qfloor (inject_Z (points q) * Score.multiplierOf (difficulty q))
              + timeBonus r - hintPenalty r
            /\ Qfloor (inject_Z (points q) * Score.multiplierOf (difficulty q))
               - 30 <= totalScore r
               <= Qfloor (inject_Z (points q)
                          * Score.multiplierOf (difficulty q)) + 50)
        /\ (isCorrect r = false -> totalScore r = 0))
  /\ (forall p q,
         currentQuestion (currentGame p) = Some q ->
         unset (selectedAnswer (currentGame p)) = false ->
         step p SubmitAnswer
         = (mkPlay (session p) false (hintsPending p) (S (answersPending p)),
            Quiet))
  /\ (forall p q waiting,
         answersPending p = S waiting ->
         currentQuestion (currentGame p) = Some q ->
         canReact p = true ->
         snd (step p AnswersRevealed)
         = Scored (Score.scoreOf q (selectedAnswer (currentGame p))
                     (timeRemaining (currentGame p))
                     (hintsUsed (currentGame p))))
  /\ (forall p q,
         currentQuestion (currentGame p) = Some q ->
         unset (selectedAnswer (currentGame p)) = false ->
         canReact p = true ->
         snd (play p answer)
         = [Quiet;
            Scored (Score.scoreOf q (selectedAnswer (currentGame p))
                      (timeRemaining (currentGame p))
                      (hintsUsed (currentGame p)))]).
Proof.
  split; [intros p e r; apply step_scored|].
  split; [intros p q; apply submitAnswer_first_waits|].
  split.
  { intros p q waiting Hw Hq Hreact. cbn [step].
    apply (submitAnswer_rest_scores R p q waiting Hw Hq Hreact). }
  intros p q Hq Hsel Hreact. unfold answer.
  rewrite !play_step. cbn [play snd step].
  rewrite (submitAnswer_first_waits p q Hq Hsel). cbn [fst snd].
  f_equal. f_equal.
  match goal with
  | |- snd (submitAnswer_rest ?p2) = _ =>
      apply (proj1 (submitAnswer_rest_scores R p2 q (answersPending p)
                      eq_refl Hq Hreact))
  end.
Qed.

Lemma scores_in_round_witness :
  snd (play (R := exact_rounding) (alexRound (R := exact_rounding)) answer)
  = [Quiet;
     Scored (Score.scoreOf (R := exact_rounding) Score.example_question
               (Some "B"%string) 60 0)].
Proof.
  apply (proj2 (proj2 (proj2 (scores_in_round exact_rounding)))
           (alexRound (R := exact_rounding)) Score.example_question);
    reflexivity.
Defined.

(** X9. While the timer runs with more than a second left, a tick only
    takes one second off.  At the last second it sets the time to 0,
    stops the timer, selects option A when no option is selected, and
    submits; when the answers of that submission are revealed with an
    NPC system able to react, the answer is scored with a time bonus of
    0. *)
Theorem tick_counts_down (R : Rounding) :
  (forall p,
      in_round p -> questionTimer p = true ->
      1 < timeRemaining (currentGame p) ->
      snd (tick p) = Quiet
      /\ timeRemaining (currentGame (fst (tick p)))
         = timeRemaining (currentGame p) - 1
      /\ questionTimer (fst (tick p)) = true)
  /\ (forall p,
         in_round p -> questionTimer p = true ->
         timeRemaining (currentGame p) = 1 ->
         canReact p = true ->
         exists q r,
           currentQuestion (currentGame p) = Some q
           /\ snd (tick p) = Quiet
           /\ answersPending (fst (tick p)) = S (answersPending p)
           /\ timeRemaining (currentGame (fst (tick p))) = 0
           /\ questionTimer (fst (tick p)) = false
           /\ unset (selectedAnswer (currentGame (fst (tick p)))) = false
           /\ snd (step (fst (tick p)) AnswersRevealed) = Scored r
           /\ r = Score.scoreOf q
                    (if unset (selectedAnswer (currentGame p))
                     then Some "A"%string
                     else selectedAnswer (currentGame p))
                    0 (hintsUsed (currentGame p))
           /\ timeBonus r = 0).
Proof.
  split.
  - intros p Hp Ht Hr.
    destruct (tick_cases p Hp) as [[E _]|[[_ [_ H]]|[_ [E _]]]];
      [congruence | exact H | lia].
  - intros p Hp Ht Hr Hreact.
    destruct (tick_cases p Hp) as [[E _]|[[_ [E _]]|[_ [_ [q [Hq E]]]]]];
      [congruence | lia |].
    exists q. eexists. split; [exact Hq|]. rewrite E. cbn [fst snd step].
    split; [reflexivity|]. split; [reflexivity|]. split; [reflexivity|].
    split; [reflexivity|].
    split.
    { unfold currentGame. cbn.
      destruct (unset (selectedAnswer (game (session p)))) eqn:Hu;
        [reflexivity | exact Hu]. }
    match goal with
    | |- snd (submitAnswer_rest ?p2) = _ /\ _ =>
        destruct (submitAnswer_rest_scores R p2 q (answersPending p)
                    eq_refl eq_refl Hreact) as [Hs _]
    end.
    split; [exact Hs|]. split; [reflexivity|].
    cbn [Score.scoreOf timeBonus]. apply timeBonus_none_left.
Qed.

Lemma tick_counts_down_witness :
  exists q r,
    currentQuestion (currentGame lastSecond) = Some q
    /\ snd (tick lastSecond) = Quiet
    /\ answersPending (fst (tick lastSecond)) = 1%nat
    /\ timeRemaining (currentGame (fst (tick lastSecond))) = 0
    /\ questionTimer (fst (tick lastSecond)) = false
    /\ unset (selectedAnswer (currentGame (fst (tick lastSecond)))) = false
    /\ snd (step (R := exact_rounding) (fst (tick lastSecond)) AnswersRevealed)
       = Scored r
    /\ r = Score.scoreOf (R := exact_rounding) q (Some "A"%string) 0 0
    /\ timeBonus r = 0.
Proof.
  apply (proj2 (tick_counts_down exact_rounding) lastSecond).
  - unfold in_round, currentGame. cbn. repeat split; try lia; discriminate.
  - reflexivity.
  - reflexivity.
  - reflexivity.
Defined.

End AnswerProperties.

(** ** Counting hints and answers *)

Section CountingFacts.
Import Npc Play.
Context (R : Rounding).

(** With a question loaded a hint request that nothing interrupts is
    refused once three hints are used, and is served and counted
    before. *)
Lemma requestHint_counts (s : Session) (q : Question) (remote : Remote) :
  currentQuestion (game s) = Some q ->
  0 <= hintsUsed (game s) ->
  currentQuestion (game (fst (requestHint s remote))) = Some q
  /\ ((3 <= hintsUsed (game s)
       /\ requestHint s remote = (s, NoHintLeft))
      \/ (hintsUsed (game s) < 3
          /\ hintsUsed (game (fst (requestHint s remote)))
             = hintsUsed (game s) + 1
          /\ snd (requestHint s remote) <> NoHintLeft)).
Proof.
  intros Hq H0. unfold requestHint. rewrite Hq.
  destruct (Z.leb_spec 3 (hintsUsed (game s))) as [Hge|Hlt].
  - split; [exact Hq|]. left. split; [exact Hge | reflexivity].
  - destruct (npcSystem s) as [n|].
    + destruct (noNpc (currentNpc (game s))).
      * split; [exact Hq|]. right. split; [exact Hlt|].
        split; [reflexivity | discriminate].
      * unfold provideHint.
        destruct (requestNpcHint_returns n q (hintsUsed (game s) + 1) remote
                    ltac:(lia)) as [n1 [r Hreq]].
        rewrite Hreq. split; [exact Hq|]. right. split; [exact Hlt|].
        split; [reflexivity | discriminate].
    + split; [exact Hq|]. right. split; [exact Hlt|].
      split; [reflexivity | discriminate].
Qed.

(** A hint request whose call ends before anything else happens is the
    call of [requestHint] followed to its end: the same session is
    reached, and its outcome is shown by the first part when nothing is
    awaited, by the rest otherwise. *)
Lemma askHint_alone (p : Play) (remote : Remote) :
  hintsPending p = [] ->
  fst (play p (askHint remote))
  = setSession p (fst (requestHint (session p) remote))
  /\ (snd (play p (askHint remote))
      = [Hinted (snd (requestHint (session p) remote)); Quiet]
      \/ (snd (play p (askHint remote))
          = [Quiet; Hinted (snd (requestHint (session p) remote))]
          /\ hintsUsed (currentGame p) < 3)).
Proof.
  intro Hw. unfold askHint. rewrite !play_step. cbn [play fst snd step].
  open_play p. cbn [hintsPending] in Hw. subst hp.
  unfold requestHint_first, requestHint, setSession, setGame, currentGame.
  fields.
  destruct cq as [q|]; [|cbn; auto].
  destruct (Z.leb_spec 3 hu) as [|Hlt]; [cbn; auto|].
  destruct o as [n|]; [|cbn; auto].
  destruct (noNpc cn); [cbn; auto|].
  unfold provideHint. rewrite requestNpcHint_blocks.
  destruct (noNpc (npc_currentNpc n)); [cbn; auto|].
  unfold requestHint_rest, currentGame. cbn [app nth_error without]. fields.
  destruct (requestNpcHint_rest n q (hu + 1) remote) as [n1 [r|e]];
    cbn; auto.
Qed.

Lemma askHints_budget (remotes : list Remote) :
  forall (p : Play) (q : Question),
    hintsPending p = [] ->
    currentQuestion (currentGame p) = Some q ->
    0 <= hintsUsed (currentGame p) <= 3 ->
    let run := play p (flat_map askHint remotes) in
    hintsUsed (currentGame (fst run))
    = Z.min 3 (hintsUsed (currentGame p) + Z.of_nat (List.length remotes))
    /\ hintsPending (fst run) = []
    /\ List.length (snd run) = (2 * List.length remotes)%nat
    /\ forall i,
         (i < List.length remotes)%nat ->
         (nth_error (snd run) (2 * i) = Some (Hinted NoHintLeft)
          <-> 3 <= hintsUsed (currentGame p) + Z.of_nat i).
Proof.
  induction remotes as [|remote rest IH]; intros p q Hw Hq Hh run; subst run.
  - cbn [flat_map play fst snd List.length]. split; [cbn; lia|].
    split; [exact Hw|]. split; [reflexivity|]. intros i Hi. cbn in Hi. lia.
  - cbn [flat_map]. rewrite play_app. cbn [fst snd].
    destruct (askHint_alone p remote Hw) as [Hst Hout].
    destruct (requestHint_counts (session p) q remote Hq ltac:(apply Hh))
      as [Hq1 Hcase].
    set (p1 := fst (play p (askHint remote))) in *.
    assert (Hw1 : hintsPending p1 = []) by (rewrite Hst; exact Hw).
    assert (Hg1 : currentGame p1 = game (fst (requestHint (session p) remote)))
      by (rewrite Hst; reflexivity).
    assert (Hstep : (3 <= hintsUsed (currentGame p)
                     /\ hintsUsed (currentGame p1) = hintsUsed (currentGame p)
                     /\ snd (requestHint (session p) remote) = NoHintLeft)
                    \/ (hintsUsed (currentGame p) < 3
                        /\ hintsUsed (currentGame p1)
                           = hintsUsed (currentGame p) + 1
                        /\ snd (requestHint (session p) remote)
                           <> NoHintLeft)).
    { rewrite Hg1. unfold currentGame.
      destruct Hcase as [[Hge E]|[Hlt [E Hne]]].
      - left. rewrite E. cbn [fst snd]. auto.
      - right. auto. }
    assert (Hh1 : 0 <= hintsUsed (currentGame p1) <= 3)
      by (destruct Hstep as [[? [-> _]]|[? [-> _]]]; lia).
    assert (Hq1' : currentQuestion (currentGame p1) = Some q)
      by (rewrite Hg1; exact Hq1).
    destruct (IH p1 q Hw1 Hq1' Hh1) as [Hfin [Hwf [Hlen Hnth]]].
    assert (Hlen1 : List.length (snd (play p (askHint remote))) = 2%nat)
      by (destruct Hout as [-> | [-> _]]; reflexivity).
    split; [|split; [exact Hwf|split]].
    + rewrite Hfin. cbn [List.length].
      destruct Hstep as [[? [-> _]]|[? [-> _]]]; lia.
    + rewrite length_app, Hlen1, Hlen. cbn [List.length]. lia.
    + intros [|i] Hi.
      * replace (2 * 0)%nat with 0%nat by reflexivity.
        rewrite nth_error_app1 by (rewrite Hlen1; lia).
        destruct Hstep as [[Hge [_ Eo]]|[Hlt [_ Hne]]].
        -- destruct Hout as [-> | [_ Hlt]]; [|lia].
           cbn [nth_error]. rewrite Eo. split; [intros _; lia | reflexivity].
        -- split; [|cbn; lia]. intro Hn.
           destruct Hout as [Ho | [Ho _]]; rewrite Ho in Hn;
             cbn [nth_error] in Hn;
             [inversion Hn; congruence | discriminate].
      * replace (2 * S i)%nat with (2 + 2 * i)%nat by lia.
        rewrite nth_error_app2 by (rewrite Hlen1; lia).
        rewrite Hlen1. replace (2 + 2 * i - 2)%nat with (2 * i)%nat by lia.
        cbn [List.length] in Hi.
        rewrite (Hnth i ltac:(lia)).
        destruct Hstep as [[? [-> _]]|[? [-> _]]]; lia.
Qed.

(** Hint requests made while the NPC hint of each is awaited all pass the
    guard and wait, each with the level of the first. *)
Lemma requests_wait (k : nat) :
  forall (p : Play) (q : Question) (n : NPCSystem),
    currentQuestion (currentGame p) = Some q ->
    npcSystem (session p) = Some n ->
    noNpc (currentNpc (currentGame p)) = false ->
    noNpc (npc_currentNpc n) = false ->
    hintsUsed (currentGame p) < 3 ->
    play p (repeat RequestHint k)
    = (mkPlay (session p) (questionTimer p)
              (hintsPending p
               ++ repeat (q, hintsUsed (currentGame p) + 1) k)
              (answersPending p),
       repeat Quiet k).
Proof.
  induction k as [|k IH]; intros p q n Hq Hn Hg Hnpc Hlt.
  - cbn [repeat play]. rewrite app_nil_r. now destruct p.
  - cbn [repeat]. rewrite play_step. cbn [step].
    assert (E : requestHint_first p
                = (mkPlay (session p) (questionTimer p)
                          (hintsPending p
                           ++ [(q, hintsUsed (currentGame p) + 1)])
                          (answersPending p), Quiet)).
    { unfold requestHint_first. rewrite Hq, Hn, Hg, Hnpc.
      destruct (Z.leb_spec 3 (hintsUsed (currentGame p))); [lia|].
      reflexivity. }
    rewrite E. cbn [fst snd].
    rewrite (IH _ q n); try assumption.
    cbn [fst snd session questionTimer hintsPending answersPending].
    unfold currentGame. cbn [session]. rewrite <- app_assoc. reflexivity.
Qed.

(** The ends of waiting hint calls count one hint each. *)
Lemma settles_count (remotes : list Remote) :
  forall (p : Play) (n : NPCSystem),
    npcSystem (session p) = Some n ->
    Forall (fun w => 1 <= snd w <= 3) (hintsPending p) ->
    (List.length remotes <= List.length (hintsPending p))%nat ->
    let run := play p (map (HintSettles 0) remotes) in
    hintsUsed (currentGame (fst run))
    = hintsUsed (currentGame p) + Z.of_nat (List.length remotes)
    /\ hintsPending (fst run)
       = skipn (List.length remotes) (hintsPending p).
Proof.
  induction remotes as [|remote rest IH]; intros p n Hn Hl Hlen run; subst run.
  - cbn. split; [lia | reflexivity].
  - cbn [map]. rewrite play_step. cbn [fst step].
    destruct (hintsPending p) as [|[q level] ws] eqn:Hw;
      [cbn in Hlen; lia|].
    inversion Hl as [|w ws' Hlev Hl']; subst. cbn [snd] in Hlev.
    destruct (requestNpcHint_rest_returns n q level remote Hlev)
      as [n1 [r [E _]]].
    assert (Es : requestHint_rest p 0 remote
                 = (mkPlay (mkSession (setHintsUsed (currentGame p)
                                         (hintsUsed (currentGame p) + 1))
                                      (Some n1))
                           (questionTimer p) ws (answersPending p),
                    Hinted (HintProvided r))).
    { unfold requestHint_rest. rewrite Hw, Hn. cbn [nth_error without].
      now rewrite E. }
    rewrite Es. cbn [fst].
    match goal with
    | |- context [play ?p1 _] =>
        destruct (IH p1 n1 eq_refl Hl' ltac:(cbn in Hlen |- *; lia))
          as [Hfin Hrest]
    end.
    rewrite Hfin, Hrest.
    unfold currentGame. cbn. split; [lia | reflexivity].
Qed.

End CountingFacts.

Section CountingProperties.
Import Npc Play Progress.

(** X10. The answers counted change only when an answer is scored while
    both an NPC system and an NPC are set: then the answers counted grow
    by one and the correct answers by one exactly when the answer is
    correct.  Every other event, a score without NPC and a submission
    whose NPC reaction throws leave both counters as they were; no event
    resets them. *)
Theorem answers_counted (R : Rounding) (p : Play) (e : Event) :
  let g := currentGame p in
  let g' := currentGame (fst (step p e)) in
  match snd (step p e) with
  | Scored r =>
      if npcChosen p
      then questionsAnswered g' = questionsAnswered g + 1
           /\ correctAnswers g'
              = correctAnswers g + (if isCorrect r then 1 else 0)
      else questionsAnswered g' = questionsAnswered g
           /\ correctAnswers g' = correctAnswers g
  | _ => questionsAnswered g' = questionsAnswered g
         /\ correctAnswers g' = correctAnswers g
  end.
Proof.
  destruct e as [id q0|q0|id| |k remote| | | |]; cbn [step fst snd].
  - unfold selectNpc.
    destruct (npcSystem (session p)) as [n|];
      [destruct (unset (Some id)); [|destruct (knownNpc id)]|];
      open_play p; cbn; split; reflexivity.
  - open_play p. cbn. split; reflexivity.
  - open_play p. cbn. split; reflexivity.
  - open_play p. unfold requestHint_first, currentGame. fields.
    destruct cq as [q|]; [|cbn; split; reflexivity].
    destruct (Z.leb 3 hu); [cbn; split; reflexivity|].
    destruct o as [n|]; [|cbn; split; reflexivity].
    destruct (noNpc cn); [cbn; split; reflexivity|].
    destruct (noNpc (npc_currentNpc n)); cbn; split; reflexivity.
  - open_play p. unfold requestHint_rest, currentGame. fields.
    destruct (nth_error hp k) as [[q level]|]; [|cbn; split; reflexivity].
    destruct o as [n|]; [|cbn; split; reflexivity].
    destruct (requestNpcHint_rest n q level remote) as [n1 [r|e]];
      cbn; split; reflexivity.
  - open_play p. unfold submitAnswer_first, currentGame. fields.
    destruct cq as [q|]; [|cbn; split; reflexivity].
    destruct (unset sa); cbn; split; reflexivity.
  - open_play p. unfold submitAnswer_rest, npcChosen, currentGame. fields.
    destruct ap as [|waiting]; [cbn; split; reflexivity|].
    unfold Score.calculateScore. fields.
    destruct cq as [q|]; [|cbn; split; reflexivity].
    destruct o as [n|]; [|cbn; split; reflexivity].
    destruct (unset cn); [cbn; split; reflexivity|].
    destruct (showAnswerResponse n) as [n1 [[]|e]];
      [|cbn; split; reflexivity].
    cbn. split; [reflexivity|].
    match goal with
    | |- context [if ?b then _ else _] => destruct b
    end; lia.
  - unfold tick. destruct (questionTimer p);
      [|cbn; split; reflexivity].
    destruct (Z.leb _ 0); [|open_play p; cbn; split; reflexivity].
    unfold timeUp, submitAnswer_first. open_play p. unfold currentGame. cbn.
    destruct (unset sa) eqn:Hsa; cbn; destruct cq; cbn;
      try rewrite Hsa; cbn; split; reflexivity.
  - open_play p. cbn. split; reflexivity.
Qed.

(** X11. The accuracy shown is 0 before the first answer, and with
    [0 <= correct <= answered] it is a whole number between 0 and 100;
    so it is after every sequence of events from the initial state. *)
Theorem accuracy_in_range (R : Rounding) :
  (forall correct answered,
      answered <= 0 -> accuracyOf correct answered = 0)
  /\ (forall correct answered,
         0 <= correct <= answered ->
         0 <= accuracyOf correct answered <= 100)
  /\ (forall events,
         Forall timed events ->
         let g := currentGame (fst (play initial events)) in
         0 <= accuracyOf (correctAnswers g) (questionsAnswered g) <= 100).
Proof.
  assert (Hrange : forall correct answered,
             0 <= correct <= answered ->
             0 <= accuracyOf correct answered <= 100).
  { intros c a Hc. unfold accuracyOf.
    destruct (Z.ltb_spec 0 a) as [Ha|Ha]; [|lia].
    apply mathRound_range. split.
    - apply rnd_nonneg. apply Qmult_le_0_compat; [|discriminate].
      apply rnd_nonneg. apply ratio_nonneg; lia.
    - apply rnd_le_Z; [simpl; lia|].
      setoid_replace (inject_Z 100) with (1 * 100)%Q by reflexivity.
      apply Qmult_le_compat_r; [|discriminate].
      change 1%Q with (inject_Z 1).
      apply rnd_le_Z; [simpl; lia|]. apply ratio_le_1; lia. }
  split; [|split].
  - intros c a Ha. unfold accuracyOf.
    destruct (Z.ltb_spec 0 a); [lia | reflexivity].
  - exact Hrange.
  - intros events Hall g. apply Hrange.
    apply (in_play_play R events initial (in_play_initial) Hall).
Qed.

Lemma accuracy_in_range_witness :
  0 <= accuracyOf (R := exact_rounding) 2 3 <= 100.
Proof.
  apply (proj1 (proj2 (accuracy_in_range exact_rounding))). lia.
Defined.

(** X12. A hint request whose call ends before anything else happens
    reaches the session that [requestHint], followed to its end, returns,
    and shows its outcome.  With a question loaded and at most three
    hints used, of any number of such requests in a row exactly those
    made while fewer than three hints are used are served, each counting
    one hint; every later one is refused with the no-hint-left warning,
    so the hints used end at the smaller of 3 and the sum.  Requests made
    while the NPC hint of the first is still awaited all pass the guard:
    with an NPC chosen in both objects and fewer than three hints used,
    [k] requests followed by their ends count [k] hints, whatever [k]. *)
Theorem hint_budget (R : Rounding) :
  (forall p remote,
      hintsPending p = [] ->
      fst (play p (askHint remote))
      = setSession p (fst (requestHint (session p) remote))
      /\ In (Hinted (snd (requestHint (session p) remote)))
            (snd (play p (askHint remote))))
  /\ (forall p q remotes,
         hintsPending p = [] ->
         currentQuestion (currentGame p) = Some q ->
         0 <= hintsUsed (currentGame p) <= 3 ->
         let run := play p (flat_map askHint remotes) in
         hintsUsed (currentGame (fst run))
         = Z.min 3 (hintsUsed (currentGame p)
                    + Z.of_nat (List.length remotes))
         /\ hintsPending (fst run) = []
         /\ List.length (snd run) = (2 * List.length remotes)%nat
         /\ forall i,
              (i < List.length remotes)%nat ->
              (nth_error (snd run) (2 * i) = Some (Hinted NoHintLeft)
               <-> 3 <= hintsUsed (currentGame p) + Z.of_nat i))
  /\ (forall p q n remotes,
         hintsPending p = [] ->
         currentQuestion (currentGame p) = Some q ->
         npcSystem (session p) = Some n ->
         noNpc (currentNpc (currentGame p)) = false ->
         noNpc (npc_currentNpc n) = false ->
         0 <= hintsUsed (currentGame p) < 3 ->
         let run := play p (repeat RequestHint (List.length remotes)
                            ++ map (HintSettles 0) remotes) in
         hintsUsed (currentGame (fst run))
         = hintsUsed (currentGame p) + Z.of_nat (List.length remotes)
         /\ hintsPending (fst run) = []).
Proof.
  split; [|split].
  - intros p remote Hw. destruct (askHint_alone R p remote Hw) as [Hst Hout].
    split; [exact Hst|].
    destruct Hout as [-> | [-> _]]; cbn; auto.
  - intros p q remotes. apply askHints_budget.
  - intros p q n remotes Hw Hq Hn Hg Hnpc Hh run. subst run.
    rewrite play_app. cbn [fst].
    rewrite (requests_wait R (List.length remotes) p q n Hq Hn Hg Hnpc
               ltac:(lia)).
    cbn [fst]. rewrite Hw. cbn [app].
    match goal with
    | |- context [play ?p1 (map _ _)] =>
        destruct (settles_count R remotes p1 n Hn) as [Hfin Hrest]
    end.
    + cbn [hintsPending]. apply Forall_forall. intros w Hin.
      apply repeat_spec in Hin. subst w. cbn [snd]. lia.
    + cbn [hintsPending]. rewrite repeat_length. lia.
    + rewrite Hfin, Hrest. cbn [hintsPending]. split; [reflexivity|].
      rewrite skipn_all2; [reflexivity|]. rewrite repeat_length. lia.
Qed.

Lemma hint_budget_witness :
  hintsUsed
    (currentGame
       (fst (play (R := exact_rounding) (alexRound (R := exact_rounding))
               (repeat RequestHint 4
                ++ map (HintSettles 0)
                     [FetchRejected; Responded false None; FetchRejected;
                      FetchRejected]))))
  = 0 + 4.
Proof.
  apply (proj2 (proj2 (hint_budget exact_rounding))
           (alexRound (R := exact_rounding)) Score.example_question
           (mkNPCSystem (Some "alex_ceo"%string) false)
           [FetchRejected; Responded false None; FetchRejected;
            FetchRejected]);
    try reflexivity.
  simpl. lia.
Defined.

End CountingProperties.


(** ** The result screen *)

Section ResultFacts.

Lemma difficulty_bonus_split (b : Z) (m : Q) :
  b + Qfloor (inject_Z b * (m - 1)) = Qfloor (inject_Z b * m).
Proof.
  assert (E : (inject_Z b * (m - 1) == inject_Z b * m - inject_Z b)%Q) by ring.
  rewrite (Qfloor_comp _ _ E), Qfloor_sub_Z. lia.
Qed.

End ResultFacts.

Section ResultProperties.
Import Play.

(** X13. On the result screen the base score and the difficulty bonus
    shown add up to [floor(points * multiplier)]; with the time bonus added
    and the hint penalty taken off, the lines shown add up to the total
    score shown whenever the answer is correct, while an incorrect answer
    shows the same lines above a total of 0. *)
Theorem displayResult_lines_add_up (R : Rounding) (q : Question)
  (sel : option string) (remaining hints : Z) :
  let r := Score.scoreOf q sel remaining hints in
  baseScore r + difficultyBonusShown r
  = Qfloor (inject_Z (points q) * Score.multiplierOf (difficulty q))
  /\ (isCorrect r = true -> shownSum r = totalScore r)
  /\ (isCorrect r = false ->
      totalScore r = 0
      /\ shownSum r
         = Qfloor (inject_Z (points q) * Score.multiplierOf (difficulty q))
           + timeBonus r - hintPenalty r).
Proof.
  intro r. subst r. unfold shownSum, difficultyBonusShown, Score.scoreOf.
  cbn [baseScore difficultyMultiplier timeBonus hintPenalty isCorrect
       totalScore].
  rewrite difficulty_bonus_split.
  split; [reflexivity|].
  destruct (Score.strict_eq_answer sel (correctAnswer q)).
  - split; [|discriminate]. intros _.
    rewrite Qfloor_sub_Z, Qfloor_add_Z. reflexivity.
  - split; [discriminate|]. intros _. split; reflexivity.
Qed.

Lemma displayResult_lines_add_up_witness :
  shownSum (Score.scoreOf (R := exact_rounding) Score.example_question
              (Some "B"%string) 45 1)
  = totalScore (Score.scoreOf (R := exact_rounding) Score.example_question
                  (Some "B"%string) 45 1).
Proof.
  apply (proj1 (proj2 (displayResult_lines_add_up exact_rounding
                         Score.example_question (Some "B"%string) 45 1))).
  reflexivity.
Defined.

End ResultProperties.

(** ** The typed line *)

Section TypingFacts.
Import Typing.
Local Open Scope string_scope.

Lemma append_unit (a b : string) (c : ascii) :
  (a ++ String c EmptyString) ++ b = a ++ String c b.
Proof.
  induction a as [|x a IH]; [reflexivity|].
  cbn [append]. now rewrite IH.
Qed.

Lemma append_empty (a : string) : a ++ EmptyString = a.
Proof.
  induction a as [|x a IH]; [reflexivity|]. cbn [append]. now rewrite IH.
Qed.

(** Once the flag is cleared the loop types nothing more. *)
Lemma typeLoop_stopped (rest : string) (skips : list bool) (l : Line) :
  typing l = false -> typeLoop rest skips l = l.
Proof.
  intro H. destruct rest as [|c rest]; [reflexivity|].
  cbn [typeLoop]. now rewrite H.
Qed.

(** A loop that ends with the flag set has typed every unit. *)
Lemma typeLoop_complete (rest : string) :
  forall (skips : list bool) (pre : string),
    typing (typeLoop rest skips (mkLine pre true)) = true ->
    shown (typeLoop rest skips (mkLine pre true)) = pre ++ rest.
Proof.
  induction rest as [|c rest IH]; intros skips pre H.
  - cbn [typeLoop shown]. now rewrite append_empty.
  - cbn [typeLoop typing shown negb] in *.
    destruct (match skips with b :: _ => b | [] => false end).
    + rewrite typeLoop_stopped in H by reflexivity. discriminate.
    + rewrite (IH _ _ H). apply append_unit.
Qed.

(** A skip during the sleep after unit [k + 1] stops the loop there. *)
Lemma typeLoop_skipped (k : nat) :
  forall (rest pre : string) (more : list bool),
    (k < String.length rest)%nat ->
    typeLoop rest (repeat false k ++ true :: more) (mkLine pre true)
    = mkLine (pre ++ firstUnits (S k) rest) false.
Proof.
  unfold firstUnits.
  induction k as [|k IH]; intros rest pre more Hk;
    (destruct rest as [|c rest]; [cbn in Hk; lia|]).
  - cbn [repeat app typeLoop typing shown negb tl].
    rewrite typeLoop_stopped by reflexivity.
    cbn [substring]. destruct rest; reflexivity.
  - cbn [repeat app typeLoop typing shown negb tl].
    rewrite IH by (cbn in Hk; lia).
    rewrite append_unit. reflexivity.
Qed.

End TypingFacts.

Section TypingProperties.
Import Typing.
Local Open Scope string_scope.

(** X14. Whenever the skip button is pressed or not while a message is
    typed, the call ends with the whole message in the dialogue box and
    the typing flag cleared.  A skip during the sleep that follows unit
    [k + 1] ends the loop with exactly the first [k + 1] units typed; the
    rest is put in the box in one piece. *)
Theorem typeMessage_shows_message :
  (forall message skips, typeString message skips = mkLine message false)
  /\ (forall message k more,
         (k < String.length message)%nat ->
         typeLoop message (repeat false k ++ true :: more) (mkLine "" true)
         = mkLine (firstUnits (S k) message) false).
Proof.
  split.
  - intros message skips. unfold typeString.
    destruct (typing (typeLoop message skips (mkLine "" true))) eqn:H.
    + cbn [negb]. now rewrite (typeLoop_complete message skips "" H).
    + reflexivity.
  - intros message k more Hk.
    now rewrite (typeLoop_skipped k message "" more Hk).
Qed.

Lemma typeMessage_shows_message_witness :
  typeLoop "Hello" (repeat false 1 ++ true :: []) (mkLine "" true)
  = mkLine (firstUnits 2 "Hello") false.
Proof.
  apply (proj2 typeMessage_shows_message "Hello" 1%nat []). simpl. lia.
Defined.

End TypingProperties.

(** ** The questions the game draws *)

Section MockFacts.
Import Npc Play.
Context (R : Rounding).

Lemma mocked_timed (e : Event) : mocked e -> timed e.
Proof.
  unfold mocked, timed. destruct (loaded e) as [q|]; [|trivial].
  intros [<- | [<- | []]]; simpl; lia.
Qed.

Lemma Forall_mocked_timed (events : list Event) :
  Forall mocked events -> Forall timed events.
Proof.
  intro H. eapply Forall_impl; [|exact H]. apply mocked_timed.
Qed.

(** An event keeps the loaded question, loads its own or unloads it. *)
Lemma step_question (p : Play) (e : Event) :
  currentQuestion (currentGame (fst (step p e)))
  = currentQuestion (currentGame p)
  \/ currentQuestion (currentGame (fst (step p e))) = loaded e
  \/ currentQuestion (currentGame (fst (step p e))) = None.
Proof.
  destruct e as [id q0|q0|id| |k remote| | | |]; cbn [step fst snd].
  - unfold selectNpc.
    destruct (npcSystem (session p)) as [n|];
      [destruct (unset (Some id)); [|destruct (knownNpc id)]|];
      open_play p; cbn; auto.
  - open_play p. cbn. auto.
  - open_play p. cbn. auto.
  - open_play p. unfold requestHint_first, currentGame. fields.
    destruct cq as [q|]; [|cbn; auto].
    destruct (Z.leb 3 hu); [cbn; auto|].
    destruct o as [n|]; [|cbn; auto].
    destruct (noNpc cn); [cbn; auto|].
    destruct (noNpc (npc_currentNpc n)); cbn; auto.
  - open_play p. unfold requestHint_rest, currentGame. fields.
    destruct (nth_error hp k) as [[q level]|]; [|cbn; auto].
    destruct o as [n|]; [|cbn; auto].
    destruct (requestNpcHint_rest n q level remote) as [n1 [r|e]];
      cbn; auto.
  - open_play p. unfold submitAnswer_first, currentGame. fields.
    destruct cq as [q|]; [|cbn; auto].
    destruct (unset sa); cbn; auto.
  - open_play p. unfold submitAnswer_rest, currentGame. fields.
    destruct ap as [|waiting]; [cbn; auto|].
    unfold Score.calculateScore. fields.
    destruct cq as [q|]; [|cbn; auto].
    destruct o as [n|]; [|cbn; auto].
    destruct (unset cn); [cbn; auto|].
    destruct (showAnswerResponse n) as [n1 [[]|e]]; cbn; auto.
  - unfold tick. destruct (questionTimer p); [|auto].
    destruct (Z.leb _ 0); [|open_play p; cbn; auto].
    unfold timeUp, submitAnswer_first. open_play p. unfold currentGame. cbn.
    destruct (unset sa) eqn:Hsa; cbn; destruct cq; cbn;
      try rewrite Hsa; cbn; auto.
  - open_play p. cbn. auto.
Qed.

Lemma mock_loaded_step (p : Play) (e : Event) :
  mock_loaded p -> mocked e -> mock_loaded (fst (step p e)).
Proof.
  unfold mock_loaded, mocked. intros Hp He.
  destruct (step_question p e) as [E|[E|E]]; rewrite E; trivial.
Qed.

Lemma mock_floor (q : Question) :
  In q mockQuestions ->
  Qfloor (inject_Z (points q) * Score.multiplierOf (difficulty q)) = 150
  \/ Qfloor (inject_Z (points q) * Score.multiplierOf (difficulty q)) = 75.
Proof. intros [<- | [<- | []]]; [left | right]; reflexivity. Qed.

(** The score of a mock question in a round. *)
Lemma mock_score (p : Play) (e : Event) (r : ScoreResult) :
  in_round p -> mock_loaded p ->
  snd (step p e) = Scored r ->
  0 <= totalScore r <= 200 /\ (isCorrect r = true -> 45 <= totalScore r).
Proof.
  intros Hp Hm Hs.
  destruct (step_scored R p e r Hp Hs) as [q [Hq [_ [Hb [Hpen [Hc Hi]]]]]].
  unfold mock_loaded in Hm. rewrite Hq in Hm.
  pose proof (mock_floor q Hm) as Hf.
  destruct (isCorrect r).
  - destruct (Hc eq_refl) as [_ Hrange]. split; [|intros _]; lia.
  - rewrite (Hi eq_refl). split; [lia | discriminate].
Qed.

(** The score of a mock question in any state of a session: the penalty
    has no bound, the bonus has. *)
Lemma mock_score_upper (p : Play) (e : Event) (r : ScoreResult) :
  in_play p -> mock_loaded p ->
  snd (step p e) = Scored r ->
  totalScore r <= 200 /\ (isCorrect r = false -> totalScore r = 0).
Proof.
  intros Hp Hm Hs.
  destruct (step_scored_from R p e r Hs) as [_ [q [Hq Hr]]].
  unfold mock_loaded in Hm. rewrite Hq in Hm.
  pose proof (mock_floor q Hm) as Hf.
  destruct Hp as [Hh [_ [Hround _]]]. rewrite Hq in Hround.
  destruct Hround as [HL [Htr _]].
  rewrite Hr. unfold Score.scoreOf. cbn [totalScore isCorrect].
  pose proof (timeBonus_upper R (timeRemaining (currentGame p))
                (timeLimit q) Htr ltac:(lia)) as Hb.
  destruct (Score.strict_eq_answer _ _).
  - split; [|discriminate]. rewrite Qfloor_sub_Z, Qfloor_add_Z. lia.
  - split; [lia | reflexivity].
Qed.

Lemma play_mock_upper (events : list Event) :
  forall p,
    in_play p -> mock_loaded p -> Forall mocked events ->
    forall r,
      In (Scored r) (snd (play p events)) ->
      totalScore r <= 200 /\ (isCorrect r = false -> totalScore r = 0).
Proof.
  induction events as [|e rest IH]; intros p Hp Hm Hall r Hin; [destruct Hin|].
  inversion Hall as [|e' rest' He Hrest]; subst.
  rewrite play_step in Hin. cbn [snd] in Hin.
  destruct Hin as [Hin|Hin].
  - apply (mock_score_upper p e r Hp Hm Hin).
  - apply (IH (fst (step p e))); trivial.
    + apply in_play_step; [exact Hp | now apply mocked_timed].
    + now apply mock_loaded_step.
Qed.

Lemma play_mock_scores (events : list Event) :
  forall p,
    in_turn p -> mock_loaded p -> Forall mocked events -> patient p events ->
    forall r,
      In (Scored r) (snd (play p events)) ->
      0 <= totalScore r <= 200 /\ (isCorrect r = true -> 45 <= totalScore r).
Proof.
  induction events as [|e rest IH]; intros p Hp Hm Hall Hpat r Hin;
    [destruct Hin|].
  inversion Hall as [|e' rest' He Hrest]; subst.
  destruct Hpat as [Hu Hpat].
  rewrite play_step in Hin. cbn [snd] in Hin.
  destruct Hin as [Hin|Hin].
  - apply (mock_score p e r (in_turn_round p Hp) Hm Hin).
  - apply (IH (fst (step p e))); trivial.
    + apply in_turn_step; [exact Hp | now apply mocked_timed | exact Hu].
    + now apply mock_loaded_step.
Qed.

(** The state in which the answers of [hurriedMock] are revealed: eight
    hints counted, no time left, the timer stopped. *)
Lemma hurriedStart_state :
  fst (play initial hurriedStart)
  = mkPlay
      (mkSession
         (mkGameManager
            (Some (mkQuestion "q002" (Some "S3"%string) "easy" 75 45 "B"))
            (Some "alex_ceo"%string) 0 8 0 0 (Some "B"%string))
         (Some (mkNPCSystem (Some "alex_ceo"%string) false)))
      false [] 1.
Proof. vm_compute. reflexivity. Qed.

End MockFacts.

Section MockProperties.
Import Npc Play.

(** X15. With the questions that [generateMockQuestion] draws, every
    score shown in the course of a session is 200 at most, and 0 for a
    wrong answer.  As long as no hint is requested while another request
    is waiting for its hint, every score lies between 0 and 200 and the
    score of a correct answer is 45 or more; eight hints requested
    before the first has ended make the right answer to the second
    question score -5 when the time is up.  When the time of a mock
    question runs out with no option selected, the option A selected in
    its place is wrong and the score is 0. *)
Theorem mock_questions_scores (R : Rounding) :
  (forall events r,
      Forall mocked events ->
      In (Scored r) (snd (play initial events)) ->
      totalScore r <= 200 /\ (isCorrect r = false -> totalScore r = 0))
  /\ (forall events r,
         Forall mocked events -> patient initial events ->
         In (Scored r) (snd (play initial events)) ->
         0 <= totalScore r <= 200
         /\ (isCorrect r = true -> 45 <= totalScore r))
  /\ (Forall mocked hurriedMock
      /\ exists r,
           In (Scored r) (snd (play initial hurriedMock))
           /\ isCorrect r = true
           /\ hintPenalty r = 80
           /\ totalScore r = -5)
  /\ (forall p,
         in_round p -> mock_loaded p ->
         questionTimer p = true ->
         timeRemaining (currentGame p) = 1 ->
         unset (selectedAnswer (currentGame p)) = true ->
         canReact p = true ->
         exists r,
           snd (play p [Tick; AnswersRevealed]) = [Quiet; Scored r]
           /\ res_selectedAnswer r = Some "A"%string
           /\ isCorrect r = false
           /\ totalScore r = 0).
Proof.
  split; [|split; [|split]].
  - intros events r Hall Hin.
    apply (play_mock_upper R events initial); trivial.
    + apply in_play_initial.
    + exact I.
  - intros events r Hall Hpat Hin.
    apply (play_mock_scores R events initial); trivial.
    + apply in_turn_initial.
    + exact I.
  - split.
    { unfold hurriedMock, hurriedStart. cbn [repeat app].
      repeat (apply Forall_cons;
              [unfold mocked; simpl; try exact I; right; left; reflexivity|]).
      apply Forall_nil. }
    unfold hurriedMock. rewrite play_app. cbn [snd].
    rewrite hurriedStart_state. cbn [play step].
    eexists. split.
    { apply in_or_app. right. left. reflexivity. }
    cbn [submitAnswer_rest answersPending currentGame session game
         Score.calculateScore currentQuestion npcSystem currentNpc
         selectedAnswer timeRemaining hintsUsed].
    change (Some "B"%string)
      with (Some (correctAnswer
                    (mkQuestion "q002" (Some "S3"%string) "easy" 75 45 "B"))).
    split; [unfold Score.scoreOf; cbn [isCorrect];
            apply strict_eq_answer_refl|].
    split; [reflexivity|].
    rewrite total_correct. cbn [timeLimit]. rewrite timeBonus_none_left.
    reflexivity.
  - intros p Hp Hm Ht Hr Hsel Hreact.
    destruct (tick_cases p Hp) as [[E _]|[[_ [E _]]|[_ [_ [q [Hq E]]]]]];
      [congruence | lia |].
    rewrite !play_step. cbn [play snd fst step]. rewrite E. cbn [fst snd].
    match goal with
    | |- context [submitAnswer_rest ?p2] =>
        destruct (submitAnswer_rest_scores R p2 q (answersPending p)
                    eq_refl eq_refl Hreact) as [Hs _]
    end.
    rewrite Hs. eexists. split; [reflexivity|].
    unfold currentGame at 1 2 3. cbn [session game selectedAnswer].
    rewrite Hsel. unfold mock_loaded in Hm. rewrite Hq in Hm.
    destruct Hm as [<- | [<- | []]]; repeat split.
Qed.

Lemma mock_questions_scores_witness :
  exists r,
    snd (play (R := exact_rounding) lastSecond [Tick; AnswersRevealed])
    = [Quiet; Scored r]
    /\ res_selectedAnswer r = Some "A"%string
    /\ isCorrect r = false
    /\ totalScore r = 0.
Proof.
  apply (proj2 (proj2 (proj2 (mock_questions_scores exact_rounding)))
           lastSecond).
  - unfold in_round, currentGame. cbn. repeat split; try lia; discriminate.
  - left. reflexivity.
  - reflexivity.
  - reflexivity.
  - reflexivity.
  - reflexivity.
Defined.

End MockProperties.


(** ** The hint a request shows *)

Section HintPathFacts.
Import Npc Play.

Lemma lookupKey_absent {A} (l : list (string * A)) (k : string) :
  ~ In k (map fst l) -> lookupKey l k = None.
Proof.
  induction l as [|[k' v] rest IH]; [reflexivity|].
  cbn [map fst In lookupKey]. intro H.
  destruct (String.eqb_spec k' k) as [E|_]; [tauto|].
  apply IH. tauto.
Qed.

Lemma lookupKey_present {A} (l : list (string * A)) (k : string) :
  In k (map fst l) -> exists v, lookupKey l k = Some v.
Proof.
  induction l as [|[k' v] rest IH]; [intros []|].
  cbn [map fst In lookupKey]. intro H.
  destruct (String.eqb_spec k' k) as [E|Hne]; [eauto|].
  apply IH. destruct H; [contradiction | assumption].
Qed.

Lemma knownNpc_In (id : string) : knownNpc id = true <-> In id npcIds.
Proof.
  unfold knownNpc. rewrite existsb_exists. split.
  - intros [x [Hin Hx]]. apply String.eqb_eq in Hx. now subst.
  - intro Hin. exists id. split; [exact Hin | apply String.eqb_refl].
Qed.

(** Every level entry of the templates has a line for each of the four
    NPCs and for nobody else. *)
Lemma allLevelHints_keys :
  forall lh, In lh allLevelHints -> map fst (byNpc lh) = npcIds.
Proof.
  assert (H : forallb (fun lh =>
                if list_eq_dec string_dec (map fst (byNpc lh)) npcIds
                then true else false) allLevelHints = true)
    by (vm_compute; reflexivity).
  rewrite forallb_forall in H. intros lh Hin. specialize (H lh Hin).
  destruct (list_eq_dec string_dec (map fst (byNpc lh)) npcIds);
    [assumption | discriminate].
Qed.

Lemma inheritedKeys_In (id : string) :
  existsb (String.eqb id) inheritedKeys = true <-> In id inheritedKeys.
Proof.
  rewrite existsb_exists. split.
  - intros [x [Hin Hx]]. apply String.eqb_eq in Hx. now subst.
  - intro Hin. exists id. split; [exact Hin | apply String.eqb_refl].
Qed.

(** No name of [Object.prototype] is a key the level entries own. *)
Lemma inherited_not_own (id : string) :
  In id inheritedKeys -> id <> "base"%string /\ ~ In id npcIds.
Proof.
  assert (H : forallb (fun k =>
                negb (String.eqb k "base"%string)
                && negb (existsb (String.eqb k) npcIds)) inheritedKeys = true)
    by (vm_compute; reflexivity).
  rewrite forallb_forall in H. intro Hin. specialize (H id Hin).
  apply andb_prop in H. destruct H as [H1 H2].
  apply negb_true_iff in H1, H2. split.
  - now apply String.eqb_neq.
  - intro Hn. apply knownNpc_In in Hn. unfold knownNpc in Hn. congruence.
Qed.

Lemma basicHintAt_in_range (used : Z) :
  0 <= used < 3 -> basicHintAt used = nth_error basicHints (Z.to_nat used).
Proof.
  intro H. unfold basicHintAt.
  rewrite Z.min_l by lia.
  destruct (Z.ltb_spec used 0); [lia | reflexivity].
Qed.

End HintPathFacts.

Section HintPathProperties.
Import Npc Play.

(** X16. With a question loaded and fewer than three hints used, a hint
    request counts one hint on each of its paths.  Without an NPC system
    or without an NPC chosen it shows the basic hint at the position of
    the hints used so far.  With an NPC chosen in the game manager and an
    NPC system that has none, it counts the hint although the NPC system
    returns [null].  With an NPC in both and a failing remote service it
    returns the local fallback hint of level [hintsUsed + 1]. *)
Theorem requestHint_paths (s : Session) (q : Question) (remote : Remote) :
  currentQuestion (game s) = Some q ->
  0 <= hintsUsed (game s) < 3 ->
  let counted := setHintsUsed (game s) (hintsUsed (game s) + 1) in
  ((npcSystem s = None \/ noNpc (currentNpc (game s)) = true) ->
   requestHint s remote
   = (mkSession counted (npcSystem s),
      BasicHintShown (nth_error basicHints (Z.to_nat (hintsUsed (game s))))))
  /\ (forall n,
         npcSystem s = Some n ->
         noNpc (currentNpc (game s)) = false ->
         noNpc (npc_currentNpc n) = true ->
         requestHint s remote
         = (mkSession counted (Some n), HintProvided RetNull))
  /\ (forall n,
         npcSystem s = Some n ->
         noNpc (currentNpc (game s)) = false ->
         noNpc (npc_currentNpc n) = false ->
         remoteFails remote = true ->
         exists h,
           requestHint s remote
           = (mkSession counted (Some (setTyping n false)),
              HintProvided (RetFallback h))
           /\ generateEnhancedFallbackHint n q (hintsUsed (game s) + 1)
              = Return h
           /\ hintLevel h = hintsUsed (game s) + 1).
Proof.
  intros Hq Hh counted. subst counted.
  split; [|split].
  - intro Hno. unfold requestHint. rewrite Hq.
    destruct (Z.leb_spec 3 (hintsUsed (game s))) as [|_]; [lia|].
    unfold showBasicHint. cbn [fst snd].
    rewrite (basicHintAt_in_range _ Hh).
    destruct (npcSystem s) as [n|]; [|reflexivity].
    destruct Hno as [Hno|Hno]; [discriminate|]. now rewrite Hno.
  - intros n Hn Hg Hnone. unfold requestHint. rewrite Hq, Hn, Hg.
    destruct (Z.leb_spec 3 (hintsUsed (game s))) as [|_]; [lia|].
    unfold provideHint, requestNpcHint. now rewrite Hnone.
  - intros n Hn Hg Hsome Hr.
    destruct s as [g o]. cbn [game npcSystem] in *. subst o.
    apply (requestHint_fallback_step g n q remote Hq ltac:(lia) Hg Hsome Hr).
Qed.

Lemma requestHint_paths_witness :
  requestHint (mkSession (Score.example_game "B" 45 2) None) FetchRejected
  = (mkSession (setHintsUsed (Score.example_game "B" 45 2) 3) None,
     BasicHintShown (nth_error basicHints 2)).
Proof.
  apply (proj1 (requestHint_paths
                  (mkSession (Score.example_game "B" 45 2) None)
                  Score.example_question FetchRejected
                  eq_refl ltac:(simpl; lia))).
  left. reflexivity.
Defined.

(** X17. In a fallback hint of level 1 to 3 the hint is the base text of
    a level entry of the templates.  For each of the four NPCs of the game
    the message is that NPC's own line of the entry.  For an NPC identifier
    that is a name of [Object.prototype] the message is no text but the
    function or object the entry inherits under that name.  For any other
    identifier, and without an NPC, the message is the base text. *)
Theorem fallback_message_by_npc (n : NPCSystem) (q : Question) (level : Z) :
  1 <= level <= 3 ->
  exists h lh,
    generateEnhancedFallbackHint n q level = Return h
    /\ In lh allLevelHints
    /\ hint h = base lh
    /\ (forall id,
           npc_currentNpc n = Some id -> knownNpc id = true ->
           exists s,
             lookupKey (byNpc lh) id = Some s /\ message h = Text s)
    /\ (forall id,
           npc_currentNpc n = Some id -> In id inheritedKeys ->
           message h = Native id)
    /\ (forall id,
           npc_currentNpc n = Some id -> knownNpc id = false ->
           ~ In id inheritedKeys ->
           message h = Text (base lh))
    /\ (npc_currentNpc n = None -> message h = Text (base lh)).
Proof.
  intro Hl. unfold generateEnhancedFallbackHint.
  destruct (fallback_level_entry (categoryOf q) level Hl) as [lh [Hlh Hin]].
  rewrite Hlh. eexists. exists lh.
  split; [reflexivity|]. split; [exact Hin|].
  cbn [hint message]. split; [reflexivity|].
  pose proof (allLevelHints_keys lh Hin) as Hkeys.
  destruct (allLevelHints_truthy lh Hin) as [Hbase Htruthy].
  split; [|split; [|split]].
  - intros id Hid Hknown. rewrite Hid. unfold levelHintsProp.
    destruct (String.eqb_spec id "base") as [E|_].
    { subst id. discriminate. }
    apply knownNpc_In in Hknown. rewrite <- Hkeys in Hknown.
    destruct (lookupKey_present (byNpc lh) id Hknown) as [v Hv].
    rewrite Hv. cbn [truthyFound]. rewrite (Htruthy id v Hv). eauto.
  - intros id Hid Hinh. rewrite Hid. unfold levelHintsProp.
    destruct (inherited_not_own id Hinh) as [Hbase' Hown].
    apply String.eqb_neq in Hbase'. rewrite Hbase'.
    rewrite lookupKey_absent by (rewrite Hkeys; exact Hown).
    apply inheritedKeys_In in Hinh. now rewrite Hinh.
  - intros id Hid Hunknown Hinh. rewrite Hid. unfold levelHintsProp.
    destruct (String.eqb id "base").
    { cbn [truthyFound]. now rewrite Hbase. }
    rewrite lookupKey_absent.
    + destruct (existsb (String.eqb id) inheritedKeys) eqn:E; [|reflexivity].
      apply inheritedKeys_In in E. contradiction.
    + rewrite Hkeys. intro Hin'. apply knownNpc_In in Hin'. congruence.
  - intros Hnone. now rewrite Hnone.
Qed.

Lemma fallback_message_by_npc_witness :
  exists h lh,
    generateEnhancedFallbackHint (mkNPCSystem (Some "toString"%string) false)
      Score.example_question 2
    = Return h
    /\ In lh allLevelHints
    /\ hint h = base lh
    /\ (forall id,
           Some "toString"%string = Some id -> knownNpc id = true ->
           exists s,
             lookupKey (byNpc lh) id = Some s /\ message h = Text s)
    /\ (forall id,
           Some "toString"%string = Some id -> In id inheritedKeys ->
           message h = Native id)
    /\ (forall id,
           Some "toString"%string = Some id -> knownNpc id = false ->
           ~ In id inheritedKeys ->
           message h = Text (base lh))
    /\ (Some "toString"%string = None -> message h = Text (base lh)).
Proof.
  apply (fallback_message_by_npc (mkNPCSystem (Some "toString"%string) false)
           Score.example_question 2).
  lia.
Defined.

End HintPathProperties.

(** ** The NPC of the game manager and of the NPC system *)

Section SyncFacts.
Import Npc Play.
Context (R : Rounding).












End SyncFacts.

Section SyncProperties.
Import Npc Play.



End SyncProperties.
